(** * Time-dependent A* route search with traffic-signal wait times

    A shallow embedding of [traffic_light.py], [road_network.py] and
    [astar.py].

    Numbers.  A Python [float] is a binary64 number.  The search and
    most of the oracle are stated over exact rationals [Q], with [Qeq]
    (written [==]) as equality: what is proved there of orders, bounds
    and counts does not depend on how a sum or a difference rounds.
    The one non-finite value the code manufactures, [float('inf')], is
    the extra constructor [PInf] of [xfloat].  Where rounding decides,
    the oracle is also given in binary64 arithmetic, in [Binary64],
    with [%] as CPython computes it; on a grid of multiples of a power
    of two, where no operation rounds, the two agree
    ([light_wait_on_grid]).  Node ids are [Z].

    Effects.  A Python call either returns or raises; loops are run on
    fuel.  [result] has one constructor for each of the three ways a
    modelled call can end. *)

From Stdlib Require Import ZArith QArith Qround Qabs Qpower Lia Lqa.
From Stdlib Require Floats.
From stdpp Require Import gmap strings list.

Local Open Scope Z_scope.

(** ** Outcomes of a call *)

Inductive exn : Set :=
| ZeroDivisionError
| KeyError
| IndexError
| NetworkXError.

Inductive result (A : Type) : Type :=
| Ret (a : A)
| Raise (e : exn)
| OutOfFuel.

Arguments Ret {A} a.
Arguments Raise {A} e.
Arguments OutOfFuel {A}.

#[global] Instance result_bind : MBind result := fun A B k m =>
  match m with
  | Ret a => k a
  | Raise e => Raise e
  | OutOfFuel => OutOfFuel
  end.

#[global] Instance result_ret : MRet result := fun A a => Ret a.

(** ** Floats *)

Inductive xfloat : Set :=
| Fin (q : Q)
| PInf.

(** [a < b] on floats that may be [float('inf')]. *)
Definition xlt (a b : xfloat) : bool :=
  match a, b with
  | Fin x, Fin y => if Qlt_le_dec x y then true else false
  | Fin _, PInf => true
  | PInf, _ => false
  end.

Definition xadd (a b : xfloat) : xfloat :=
  match a, b with
  | Fin x, Fin y => Fin (x + y)
  | _, _ => PInf
  end.

Definition Qltb (a b : Q) : bool := if Qlt_le_dec a b then true else false.

(** Python's [a % b] on floats, in exact arithmetic: the result has the
    sign of [b], that is [a - floor(a / b) * b]; a zero divisor
    raises.  For [0 < b] it lies in [[0, b)].  The float [%] can round
    up to [b] itself; [Binary64.py_mod] is the operation with its
    rounding. *)
Definition Qmod (a b : Q) : Q := (a - inject_Z (Qfloor (a / b)) * b)%Q.

Definition py_mod (a b : Q) : result Q :=
  if Qeq_bool b 0 then Raise ZeroDivisionError else Ret (Qmod a b).

(** ** traffic_light.py *)

(** The field [node_id] of [TrafficLight] is [light_node_id] here: the
    name [node_id] is kept for [PathNode], where the search reads it. *)
Record TrafficLight : Set := mkTrafficLight {
  light_node_id : Z;
  cycle_time : Q;
  green_time : Q;
  red_time : Q;
  current_phase : string;
  phase_start_time : Q
}.

Record TrafficLightPredictor : Type := mkPredictor {
  traffic_lights : gmap (Z * Z) TrafficLight
}.

(** [TrafficLightPredictor()] : [_initialize_default_traffic_lights] is
    a [pass]. *)
Definition new_predictor : TrafficLightPredictor :=
  {| traffic_lights := ∅ |}.

(** [add_traffic_light].  The two draws of the random source,
    [random.random()] and [random.uniform(0, cycle_time)], are the
    arguments [u] and [anchor].  The two products are exact here; the
    code rounds each, so that its [red_time] is [cycle_time -
    green_time] up to rounding only. *)
Definition add_traffic_light (p : TrafficLightPredictor) (from_node to_node : Z)
    (cycle green_ratio : Q) (u anchor : Q) : TrafficLightPredictor :=
  let green := (cycle * green_ratio)%Q in
  let red := (cycle * (1 - green_ratio))%Q in
  let initial_phase := if Qltb u green_ratio then "green"%string else "red"%string in
  {| traffic_lights :=
       <[ (from_node, to_node) :=
            {| light_node_id := from_node;
               cycle_time := cycle;
               green_time := green;
               red_time := red;
               current_phase := initial_phase;
               phase_start_time := anchor |} ]> (traffic_lights p) |}.

(** The body of [get_wait_time] once the signal has been fetched. *)
Definition light_wait (tl : TrafficLight) (current_time : Q) : result Q :=
  cycle_position ← py_mod (current_time - phase_start_time tl) (cycle_time tl);
  if String.eqb (current_phase tl) "green" then
    if Qltb cycle_position (green_time tl) then
      let remaining_green := (green_time tl - cycle_position)%Q in
      if Qltb 5 remaining_green then Ret 0%Q
      else Ret (red_time tl)
    else
      let remaining_red := (cycle_time tl - cycle_position)%Q in
      Ret remaining_red
  else
    if Qltb cycle_position (red_time tl) then
      let remaining_red := (red_time tl - cycle_position)%Q in
      Ret remaining_red
    else Ret 0%Q.

Definition get_wait_time (p : TrafficLightPredictor) (from_node to_node : Z)
    (current_time : Q) : result Q :=
  match traffic_lights p !! (from_node, to_node) with
  | None => Ret 0%Q
  | Some traffic_light => light_wait traffic_light current_time
  end.

(** [predict_remaining_time] *)
Definition predict_remaining_time (p : TrafficLightPredictor) (from_node to_node : Z)
    (current_time : Q) : result (string * Q) :=
  match traffic_lights p !! (from_node, to_node) with
  | None => Ret ("none"%string, 0%Q)
  | Some tl =>
      cycle_position ← py_mod (current_time - phase_start_time tl) (cycle_time tl);
      if Qltb cycle_position (green_time tl)
      then Ret ("green"%string, (green_time tl - cycle_position)%Q)
      else Ret ("red"%string, (cycle_time tl - cycle_position)%Q)
  end.

(** The signal invariant of the data model: a positive cycle, a green
    duration within the cycle, and the red duration being the rest of
    the cycle. *)
Definition wf_light (tl : TrafficLight) : Prop :=
  (0 < cycle_time tl)%Q /\
  (0 <= green_time tl)%Q /\ (green_time tl <= cycle_time tl)%Q /\
  (red_time tl == cycle_time tl - green_time tl)%Q.

Definition wf_predictor (p : TrafficLightPredictor) : Prop :=
  forall k tl, traffic_lights p !! k = Some tl -> wf_light tl.

(** ** road_network.py *)

(** [Node]; its [node_id] field is [nd_node_id] here. *)
Record Node : Set := mkNode {
  nd_node_id : Z;
  lat : Q;
  lon : Q;
  name : option string
}.

(** [RoadNetwork].  [graph] is the networkx graph when one was loaded:
    all that the search reads of it is [graph.neighbors(n)], the
    successors of [n] in adjacency order, which raises for a node that
    is not in the graph.  [edges] is a Python dict read both by key and
    in insertion order, hence an association list. *)
Record RoadNetwork : Type := mkRoadNetwork {
  graph : option (gmap Z (list Z));
  nodes : gmap Z Node;
  edges : list ((Z * Z) * Q)
}.

Definition get_node (rn : RoadNetwork) (n : Z) : option Node := nodes rn !! n.

Definition has_node (rn : RoadNetwork) (n : Z) : bool :=
  bool_decide (is_Some (nodes rn !! n)).

Definition get_neighbors (rn : RoadNetwork) (n : Z) : result (list Z) :=
  match graph rn with
  | Some g =>
      match g !! n with
      | Some succs => Ret succs
      | None => Raise NetworkXError
      end
  | None =>
      Ret ((fun e : (Z * Z) * Q => e.1.2) <$>
           filter (fun e : (Z * Z) * Q => e.1.1 = n) (edges rn))
  end.

(** [dict.get(key)] on an insertion-ordered dict. *)
Fixpoint dict_get (d : list ((Z * Z) * Q)) (key : Z * Z) : option Q :=
  match d with
  | [] => None
  | (k, v) :: d' => if bool_decide (k = key) then Some v else dict_get d' key
  end.

Definition get_edge_distance (rn : RoadNetwork) (from_node_id to_node_id : Z) : option Q :=
  dict_get (edges rn) (from_node_id, to_node_id).

(** ** astar.py *)

#[local] Set Warnings "-register-all".

Inductive PathNode : Set := mkPathNode {
  node_id : Z;
  g_cost : Q;
  h_cost : xfloat;
  parent : option PathNode
}.

#[local] Set Warnings "register-all".

Definition f_cost (x : PathNode) : xfloat := xadd (Fin (g_cost x)) (h_cost x).

(** [PathNode.__lt__] *)
Definition PathNode_lt (x other : PathNode) : bool := xlt (f_cost x) (f_cost other).

(** *** heapq on a list of [PathNode]

    [heappush] and [heappop] as the library has them: the moved item is
    held aside while parents (or children) are shifted into the hole,
    and is written back once.  Positions strictly decrease in
    [siftdown] and strictly increase in [siftup], which bounds the
    fuel. *)

Fixpoint siftdown_loop (fuel : nat) (heap : list PathNode) (newitem : PathNode)
    (startpos pos : nat) : list PathNode :=
  match fuel with
  | O => <[pos := newitem]> heap
  | S fuel' =>
      if bool_decide (startpos < pos)%nat then
        let parentpos := ((pos - 1) / 2)%nat in
        match heap !! parentpos with
        | Some parent =>
            if PathNode_lt newitem parent
            then siftdown_loop fuel' (<[pos := parent]> heap) newitem startpos parentpos
            else <[pos := newitem]> heap
        | None => <[pos := newitem]> heap
        end
      else <[pos := newitem]> heap
  end.

Definition siftdown (heap : list PathNode) (startpos pos : nat) : list PathNode :=
  match heap !! pos with
  | Some newitem => siftdown_loop pos heap newitem startpos pos
  | None => heap
  end.

Definition lt_at (heap : list PathNode) (i j : nat) : bool :=
  match heap !! i, heap !! j with
  | Some a, Some b => PathNode_lt a b
  | _, _ => false
  end.

Fixpoint siftup_loop (fuel : nat) (heap : list PathNode) (newitem : PathNode)
    (startpos pos : nat) : list PathNode :=
  match fuel with
  | O => siftdown (<[pos := newitem]> heap) startpos pos
  | S fuel' =>
      let endpos := length heap in
      let childpos := (2 * pos + 1)%nat in
      if bool_decide (childpos < endpos)%nat then
        let rightpos := (childpos + 1)%nat in
        let childpos :=
          if bool_decide (rightpos < endpos)%nat && negb (lt_at heap childpos rightpos)
          then rightpos else childpos in
        match heap !! childpos with
        | Some child =>
            siftup_loop fuel' (<[pos := child]> heap) newitem startpos childpos
        | None => siftdown (<[pos := newitem]> heap) startpos pos
        end
      else siftdown (<[pos := newitem]> heap) startpos pos
  end.

Definition siftup (heap : list PathNode) (pos : nat) : list PathNode :=
  match heap !! pos with
  | Some newitem => siftup_loop (length heap) heap newitem pos pos
  | None => heap
  end.

Definition heappush (heap : list PathNode) (item : PathNode) : list PathNode :=
  siftdown (heap ++ [item]) 0 (length heap).

(** [None] is the [IndexError] of popping an empty list. *)
Definition heappop (heap : list PathNode) : option (PathNode * list PathNode) :=
  match last heap with
  | None => None
  | Some lastelt =>
      match removelast heap with
      | [] => Some (lastelt, [])
      | returnitem :: rest =>
          Some (returnitem, siftup (lastelt :: rest) 0)
      end
  end.

(** *** The stats dictionary *)

Inductive pyval : Set :=
| PyInt (n : Z)
| PyFloat (x : Q).

Definition py_add (a b : pyval) : pyval :=
  match a, b with
  | PyInt m, PyInt n => PyInt (m + n)
  | PyInt m, PyFloat y => PyFloat (inject_Z m + y)
  | PyFloat x, PyInt n => PyFloat (x + inject_Z n)
  | PyFloat x, PyFloat y => PyFloat (x + y)
  end.

(** [d[key] += v] *)
Definition dict_iadd (key : string) (v : pyval) (d : gmap string pyval)
    : result (gmap string pyval) :=
  match d !! key with
  | Some old => Ret (<[key := py_add old v]> d)
  | None => Raise KeyError
  end.

Definition initial_stats : gmap string pyval :=
  <["total_wait_time"%string := PyFloat 0]>
  (<["traffic_lights_encountered"%string := PyInt 0]>
  (<["nodes_explored"%string := PyInt 0]> ∅)).

(** *** The pathfinder *)

Record AStarPathfinder : Type := mkAStarPathfinder {
  road_network : RoadNetwork;
  traffic_predictor : TrafficLightPredictor
}.

Definition average_speed : Q := 1389 # 100.

Definition get_edge_cost (self : AStarPathfinder) (from_node_id to_node_id : Z)
    (current_time : Q) : result xfloat :=
  match get_edge_distance (road_network self) from_node_id to_node_id with
  | None => Ret PInf
  | Some distance =>
      wait_time ← get_wait_time (traffic_predictor self) from_node_id to_node_id current_time;
      let wait_distance := (wait_time * average_speed)%Q in
      Ret (Fin (distance + wait_distance))
  end.

(** The working state of one [find_path] run. *)
Record search : Type := mkSearch {
  open_list : list PathNode;
  closed_set : gset Z;
  g_costs : gmap Z Q;
  parents : gmap Z Z;
  stats : gmap string pyval;
  current_time : Q
}.

(** The path reconstruction loop: [node_id] is [None] once
    [parents.get] finds no predecessor. *)
Fixpoint reconstruct_loop (fuel : nat) (parents : gmap Z Z) (node_id : option Z)
    (path : list Z) : result (list Z) :=
  match fuel with
  | O => OutOfFuel
  | S fuel' =>
      match node_id with
      | None => Ret path
      | Some n => reconstruct_loop fuel' parents (parents !! n) (path ++ [n])
      end
  end.

Definition reconstruct (fuel : nat) (parents : gmap Z Z) (goal_id : Z) : result (list Z) :=
  path ← reconstruct_loop fuel parents (Some goal_id) [];
  Ret (reverse path).

(** [for x in xs: st = body st x], stopping at the first exception. *)
Fixpoint for_each {S A : Type} (body : S -> A -> result S) (xs : list A) (st : S)
    : result S :=
  match xs with
  | [] => Ret st
  | x :: xs' => st' ← body st x; for_each body xs' st'
  end.

Section Search.

(** [x ** 0.5] of the heuristic has no exact rational value; it is a
    parameter of the search, and no property below depends on it. *)
Variable pow_half : Q -> Q.
Variable self : AStarPathfinder.

Definition heuristic (node1_id node2_id : Z) : xfloat :=
  match get_node (road_network self) node1_id, get_node (road_network self) node2_id with
  | Some node1, Some node2 =>
      let lat_diff := (lat node1 - lat node2)%Q in
      let lon_diff := (lon node1 - lon node2)%Q in
      let distance := pow_half (lat_diff ^ 2 + lon_diff ^ 2)%Q in
      Fin (distance * 111000)%Q
  | _, _ => PInf
  end.

(** The body of [for neighbor_id in neighbors]. *)
Definition relax (goal_id : Z) (current : PathNode) (st : search) (neighbor_id : Z)
    : result search :=
  if bool_decide (neighbor_id ∈ closed_set st) then Ret st
  else
    edge_cost ← get_edge_cost self (node_id current) neighbor_id (current_time st);
    match edge_cost with
    | PInf => Ret st
    | Fin edge_cost =>
        wait_time ← get_wait_time (traffic_predictor self)
                      (node_id current) neighbor_id (current_time st);
        stats' ← (if Qltb 0 wait_time then
                    s ← dict_iadd "traffic_lights_encountered" (PyInt 1) (stats st);
                    dict_iadd "total_wait_time" (PyFloat wait_time) s
                  else Ret (stats st));
        g_current ← match g_costs st !! node_id current with
                    | Some g => Ret g
                    | None => Raise KeyError
                    end;
        let tentative_g_cost := (g_current + edge_cost)%Q in
        let better :=
          match g_costs st !! neighbor_id with
          | None => true
          | Some g => Qltb tentative_g_cost g
          end in
        let travel_time := (edge_cost / average_speed)%Q in
        if better then
          let h_cost := heuristic neighbor_id goal_id in
          Ret {| open_list :=
                   heappush (open_list st)
                     {| node_id := neighbor_id;
                        g_cost := tentative_g_cost;
                        h_cost := h_cost;
                        parent := Some current |};
                 closed_set := closed_set st;
                 g_costs := <[neighbor_id := tentative_g_cost]> (g_costs st);
                 parents := <[neighbor_id := node_id current]> (parents st);
                 stats := stats';
                 current_time := (current_time st + travel_time)%Q |}
        else
          Ret {| open_list := open_list st;
                 closed_set := closed_set st;
                 g_costs := g_costs st;
                 parents := parents st;
                 stats := stats';
                 current_time := (current_time st + travel_time)%Q |}
    end.

(** [while open_list: ...] *)
Fixpoint search_loop (fuel0 fuel : nat) (goal_id : Z) (st : search)
    : result (list Z * xfloat * gmap string pyval) :=
  match fuel with
  | O => OutOfFuel
  | S fuel' =>
      match open_list st with
      | [] => Ret ([], PInf, stats st)
      | _ :: _ =>
          match heappop (open_list st) with
          | None => Raise IndexError
          | Some (current, rest) =>
              if bool_decide (node_id current = goal_id) then
                path ← reconstruct fuel0 (parents st) goal_id;
                Ret (path, Fin (g_cost current), stats st)
              else if bool_decide (node_id current ∈ closed_set st) then
                search_loop fuel0 fuel' goal_id
                  {| open_list := rest;
                     closed_set := closed_set st;
                     g_costs := g_costs st;
                     parents := parents st;
                     stats := stats st;
                     current_time := current_time st |}
              else
                stats' ← dict_iadd "nodes_explored" (PyInt 1) (stats st);
                neighbors ← get_neighbors (road_network self) (node_id current);
                st' ← for_each (relax goal_id current) neighbors
                        {| open_list := rest;
                           closed_set := {[node_id current]} ∪ closed_set st;
                           g_costs := g_costs st;
                           parents := parents st;
                           stats := stats';
                           current_time := current_time st |};
                search_loop fuel0 fuel' goal_id st'
          end
      end
  end.

Definition initial_search (start_id goal_id : Z) (start_time : Q) : search :=
  {| open_list :=
       heappush []
         {| node_id := start_id;
            g_cost := 0;
            h_cost := heuristic start_id goal_id;
            parent := None |};
     closed_set := ∅;
     g_costs := {[start_id := 0%Q]};
     parents := ∅;
     stats := initial_stats;
     current_time := start_time |}.

(** [find_path]; [fuel] bounds the iterations of each of its two
    [while] loops. *)
Definition find_path (fuel : nat) (start_id goal_id : Z) (start_time : Q)
    : result (list Z * xfloat * gmap string pyval) :=
  if bool_decide (start_id = goal_id) then Ret ([start_id], Fin 0, ∅)
  else if negb (has_node (road_network self) start_id)
          || negb (has_node (road_network self) goal_id)
  then Ret ([], PInf, ∅)
  else search_loop fuel fuel goal_id (initial_search start_id goal_id start_time).

(** *** The run with its pricing log

    The same loops, recording each call
    [get_edge_cost(current.node_id, neighbor_id, current_time)] whose
    result is finite: the edge, the clock it was priced at, and the
    [edge_cost] it returned, the value that then enters
    [tentative_g_cost] and [travel_time].  The log is ghost data:
    erasing it gives [find_path]. *)

Definition relax_log (goal_id : Z) (current : PathNode)
    (sl : search * list (Z * Z * Q * Q)) (neighbor_id : Z)
    : result (search * list (Z * Z * Q * Q)) :=
  let (st, log) := sl in
  if bool_decide (neighbor_id ∈ closed_set st) then Ret (st, log)
  else
    edge_cost ← get_edge_cost self (node_id current) neighbor_id (current_time st);
    match edge_cost with
    | PInf => Ret (st, log)
    | Fin edge_cost =>
        let log' :=
          log ++ [(node_id current, neighbor_id, current_time st, edge_cost)] in
        wait_time ← get_wait_time (traffic_predictor self)
                      (node_id current) neighbor_id (current_time st);
        stats' ← (if Qltb 0 wait_time then
                    s ← dict_iadd "traffic_lights_encountered" (PyInt 1) (stats st);
                    dict_iadd "total_wait_time" (PyFloat wait_time) s
                  else Ret (stats st));
        g_current ← match g_costs st !! node_id current with
                    | Some g => Ret g
                    | None => Raise KeyError
                    end;
        let tentative_g_cost := (g_current + edge_cost)%Q in
        let better :=
          match g_costs st !! neighbor_id with
          | None => true
          | Some g => Qltb tentative_g_cost g
          end in
        let travel_time := (edge_cost / average_speed)%Q in
        if better then
          let h_cost := heuristic neighbor_id goal_id in
          Ret ({| open_list :=
                    heappush (open_list st)
                      {| node_id := neighbor_id;
                         g_cost := tentative_g_cost;
                         h_cost := h_cost;
                         parent := Some current |};
                  closed_set := closed_set st;
                  g_costs := <[neighbor_id := tentative_g_cost]> (g_costs st);
                  parents := <[neighbor_id := node_id current]> (parents st);
                  stats := stats';
                  current_time := (current_time st + travel_time)%Q |}, log')
        else
          Ret ({| open_list := open_list st;
                  closed_set := closed_set st;
                  g_costs := g_costs st;
                  parents := parents st;
                  stats := stats';
                  current_time := (current_time st + travel_time)%Q |}, log')
    end.

Fixpoint search_loop_log (fuel0 fuel : nat) (goal_id : Z) (st : search)
    (log : list (Z * Z * Q * Q))
    : result (list Z * xfloat * gmap string pyval * list (Z * Z * Q * Q)) :=
  match fuel with
  | O => OutOfFuel
  | S fuel' =>
      match open_list st with
      | [] => Ret ([], PInf, stats st, log)
      | _ :: _ =>
          match heappop (open_list st) with
          | None => Raise IndexError
          | Some (current, rest) =>
              if bool_decide (node_id current = goal_id) then
                path ← reconstruct fuel0 (parents st) goal_id;
                Ret (path, Fin (g_cost current), stats st, log)
              else if bool_decide (node_id current ∈ closed_set st) then
                search_loop_log fuel0 fuel' goal_id
                  {| open_list := rest;
                     closed_set := closed_set st;
                     g_costs := g_costs st;
                     parents := parents st;
                     stats := stats st;
                     current_time := current_time st |} log
              else
                stats' ← dict_iadd "nodes_explored" (PyInt 1) (stats st);
                neighbors ← get_neighbors (road_network self) (node_id current);
                sl ← for_each (relax_log goal_id current) neighbors
                       ({| open_list := rest;
                           closed_set := {[node_id current]} ∪ closed_set st;
                           g_costs := g_costs st;
                           parents := parents st;
                           stats := stats';
                           current_time := current_time st |}, log);
                search_loop_log fuel0 fuel' goal_id sl.1 sl.2
          end
      end
  end.

Definition find_path_log (fuel : nat) (start_id goal_id : Z) (start_time : Q)
    : result (list Z * xfloat * gmap string pyval * list (Z * Z * Q * Q)) :=
  if bool_decide (start_id = goal_id) then Ret ([start_id], Fin 0, ∅, [])
  else if negb (has_node (road_network self) start_id)
          || negb (has_node (road_network self) goal_id)
  then Ret ([], PInf, ∅, [])
  else search_loop_log fuel fuel goal_id
         (initial_search start_id goal_id start_time) [].

(** A log is on the clock that starts at [t] when each entry was
    priced at the clock reached so far, its cost is the static
    distance plus the wait at that clock turned into metres, and the
    clock then moves on by [cost / average_speed]. *)
Fixpoint clock_chain (t : Q) (log : list (Z * Z * Q * Q)) : Prop :=
  match log with
  | [] => True
  | (u, v, tq, edge_cost) :: log' =>
      tq = t /\
      (exists distance wait_time,
          get_edge_distance (road_network self) u v = Some distance /\
          get_wait_time (traffic_predictor self) u v tq = Ret wait_time /\
          edge_cost = (distance + wait_time * average_speed)%Q) /\
      clock_chain (t + edge_cost / average_speed)%Q log'
  end.

End Search.

(** ** Notions the properties are stated with *)

(** The sum of the static distances along a path; [None] when two
    consecutive nodes have no edge. *)
Fixpoint path_distance (rn : RoadNetwork) (path : list Z) : option Q :=
  match path with
  | [] => Some 0%Q
  | x :: rest =>
      match rest with
      | [] => Some 0%Q
      | y :: _ =>
          match get_edge_distance rn x y, path_distance rn rest with
          | Some d, Some s => Some (d + s)%Q
          | _, _ => None
          end
      end
  end.

(** A stats record with its three counts at zero. *)
Definition zero_counts (s : gmap string pyval) : Prop :=
  s !! "nodes_explored"%string = Some (PyInt 0) /\
  s !! "traffic_lights_encountered"%string = Some (PyInt 0) /\
  (exists w, s !! "total_wait_time"%string = Some (PyFloat w) /\ (w == 0)%Q).

(** [stats.get(key, 0)] *)
Definition stats_get (s : gmap string pyval) (key : string) : pyval :=
  default (PyInt 0) (s !! key).

(** An edge the search can take: a listed neighbour with a distance. *)
Definition edge (rn : RoadNetwork) (u v : Z) : Prop :=
  exists succs, get_neighbors rn u = Ret succs /\ v ∈ succs /\
                is_Some (get_edge_distance rn u v).

Definition reachable (rn : RoadNetwork) (start_id n : Z) : Prop :=
  rtc (edge rn) start_id n.

Definition out_degree (rn : RoadNetwork) (u : Z) : nat :=
  match get_neighbors rn u with
  | Ret succs => length succs
  | _ => O
  end.

(** Iterations that exhaust the frontier of a search confined to the
    node set [R]: one per frontier entry, and a node pushes at most its
    out-degree of entries, once. *)
Definition search_budget (rn : RoadNetwork) (R : gset Z) : nat :=
  2 + sum_list_with (out_degree rn) (elements R).

(** ** Sample data *)

(** A rational stand-in for [x ** 0.5], to six decimals. *)
Definition sqrt_approx (q : Q) : Q :=
  (Z.sqrt (Qnum q * 1000000000000 * Zpos (Qden q)) # (1000000 * Qden q))%Q.

(** Two nodes, one road of 1000 m from 1 to 2. *)
Definition two_nodes : RoadNetwork :=
  {| graph := None;
     nodes := <[1 := mkNode 1 0 0 None]> (<[2 := mkNode 2 0 (1 # 100) None]> ∅);
     edges := [((1, 2), 1000%Q)] |}.

Definition red_light : TrafficLight := mkTrafficLight 1 120 60 60 "red" 0.

Definition green_light : TrafficLight := mkTrafficLight 1 120 60 60 "green" 0.

Definition red_signal : TrafficLightPredictor :=
  {| traffic_lights := {[ (1, 2) := red_light ]} |}.

Definition green_signal : TrafficLightPredictor :=
  {| traffic_lights := {[ (1, 2) := green_light ]} |}.

Definition plain_finder : AStarPathfinder :=
  {| road_network := two_nodes; traffic_predictor := new_predictor |}.

Definition red_finder : AStarPathfinder :=
  {| road_network := two_nodes; traffic_predictor := red_signal |}.

(** A fork: from 1, a road of 1389 m to 2 and a road of 500 m to 3, the
    latter behind a signal that is red for the first 60 s of each 120 s;
    node 4 has no road. *)
Definition fork : RoadNetwork :=
  {| graph := None;
     nodes := <[1 := mkNode 1 0 0 None]>
              (<[2 := mkNode 2 0 (1 # 100) None]>
              (<[3 := mkNode 3 (1 # 100) 0 None]>
              (<[4 := mkNode 4 (1 # 100) (1 # 100) None]> ∅)));
     edges := [((1, 2), 1389%Q); ((1, 3), 500%Q)] |}.

Definition fork_signal : TrafficLightPredictor :=
  {| traffic_lights := {[ (1, 3) := red_light ]} |}.

Definition fork_finder : AStarPathfinder :=
  {| road_network := fork; traffic_predictor := fork_signal |}.

(** A result with its rationals in lowest terms and its dict as the
    list of its items, to compare runs with. *)
Definition xred (c : xfloat) : xfloat :=
  match c with
  | Fin q => Fin (Qred q)
  | PInf => PInf
  end.

Definition pyred (v : pyval) : pyval :=
  match v with
  | PyInt n => PyInt n
  | PyFloat x => PyFloat (Qred x)
  end.

Definition summary (r : result (list Z * xfloat * gmap string pyval))
    : result (list Z * xfloat * list (string * pyval)) :=
  match r with
  | Ret (path, cost, s) => Ret (path, xred cost, map_to_list (pyred <$> s))
  | Raise e => Raise e
  | OutOfFuel => OutOfFuel
  end.

Definition summary_wait (r : result Q) : result Q :=
  match r with
  | Ret w => Ret (Qred w)
  | Raise e => Raise e
  | OutOfFuel => OutOfFuel
  end.

(** The runs the examples below are about, evaluated once. *)
Definition red_run_cost : xfloat :=
  Eval vm_compute in
    match find_path sqrt_approx red_finder 10 1 2 0 with
    | Ret (_, c, _) => c
    | _ => PInf
    end.

Definition red_run_stats : gmap string pyval :=
  Eval vm_compute in
    match find_path sqrt_approx red_finder 10 1 2 0 with
    | Ret (_, _, s) => s
    | _ => ∅
    end.

Definition fork_run : list Z * xfloat * gmap string pyval :=
  Eval vm_compute in
    match find_path sqrt_approx fork_finder 10 1 3 0 with
    | Ret r => r
    | _ => ([], PInf, ∅)
    end.

Definition fork_log : list (Z * Z * Q * Q) :=
  Eval vm_compute in
    match find_path_log sqrt_approx fork_finder 10 1 3 0 with
    | Ret (_, log) => log
    | _ => []
    end.

(** ** Notions the proofs are stated with *)

(** The stats update of one priced edge, as [relax] has it inline. *)
Definition count_wait (w : Q) (s : gmap string pyval) : result (gmap string pyval) :=
  if Qltb 0 w then
    s' ← dict_iadd "traffic_lights_encountered" (PyInt 1) s;
    dict_iadd "total_wait_time" (PyFloat w) s'
  else Ret s.

(** The nodes that [reconstruct_loop] walks from [n]: each is the
    parent of the one before, and the last has none. *)
Inductive chain (parents : gmap Z Z) : Z -> list Z -> Prop :=
| chain_root n : parents !! n = None -> chain parents n [n]
| chain_step n p c :
    parents !! n = Some p -> chain parents p c -> chain parents n (n :: c).

(** Forgetting the log of a run. *)
Definition erase {A L : Type} (m : result (A * L)) : result A :=
  match m with
  | Ret (a, _) => Ret a
  | Raise e => Raise e
  | OutOfFuel => OutOfFuel
  end.

(** The clock a log ends on. *)
Fixpoint chain_end (t : Q) (log : list (Z * Z * Q * Q)) : Q :=
  match log with
  | [] => t
  | (_, _, _, edge_cost) :: log' => chain_end (t + edge_cost / average_speed)%Q log'
  end.

Section Invariants.

Variable self : AStarPathfinder.
Variable start : Z.
Variable R : gset Z.

(** What the best-known costs and the parent map satisfy during a
    search from [start]: a parent is a closed node one edge before its
    child and at least that edge's distance cheaper, the only node
    without a parent is [start], at cost 0, and no frontier entry is
    cheaper than the best-known cost of its node. *)
Definition cost_inv (st : search) : Prop :=
  g_costs st !! start = Some 0%Q /\
  parents st !! start = None /\
  (forall n g, g_costs st !! n = Some g -> parents st !! n = None -> n = start) /\
  (forall n p, parents st !! n = Some p ->
     p ∈ closed_set st /\
     exists gp gn d,
       g_costs st !! p = Some gp /\ g_costs st !! n = Some gn /\
       get_edge_distance (road_network self) p n = Some d /\ (gp + d <= gn)%Q) /\
  (forall x, x ∈ open_list st ->
     exists g, g_costs st !! node_id x = Some g /\ (g <= g_cost x)%Q).

(** The invariant of a search that stays inside [R]; [skip] is
    [Some u] while [u] is being expanded, when its own edges are not
    yet all recorded. *)
Definition exh_inv (skip : option Z) (st : search) : Prop :=
  closed_set st ⊆ R /\
  (forall x, x ∈ open_list st -> node_id x ∈ R) /\
  (forall n, is_Some (g_costs st !! n) ->
     n ∈ closed_set st \/ exists x, x ∈ open_list st /\ node_id x = n) /\
  is_Some (g_costs st !! start) /\
  (forall u v, u ∈ closed_set st -> skip <> Some u -> edge (road_network self) u v ->
     is_Some (g_costs st !! v)) /\
  (stats st !! "nodes_explored"%string
     = Some (PyInt (Z.of_nat (size (closed_set st)))) /\
   is_Some (stats st !! "traffic_lights_encountered"%string) /\
   is_Some (stats st !! "total_wait_time"%string)) /\
  (forall x, x ∈ open_list st -> is_Some (g_costs st !! node_id x)) /\
  (forall n, n ∈ closed_set st -> is_Some (g_costs st !! n)).

(** What bounds the iterations left: the frontier entries, and the
    entries the nodes of [R] not yet closed can still push. *)
Definition measure (st : search) : nat :=
  length (open_list st)
  + sum_list_with (out_degree (road_network self)) (elements (R ∖ closed_set st)).

(** The log is on the clock from [t0] and ends on the clock of the
    state. *)
Definition on_clock (t0 : Q) (st : search) (log : list (Z * Z * Q * Q)) : Prop :=
  clock_chain self t0 log /\ chain_end t0 log = current_time st.

End Invariants.

(** ** More of road_network.py *)

(** [min(xs)] and [max(xs)] on a non-empty list, [x] its first item:
    the first smallest (largest) item is kept. *)
Definition py_min (x : Q) (xs : list Q) : Q :=
  foldl (fun m y => if Qltb y m then y else m) x xs.

Definition py_max (x : Q) (xs : list Q) : Q :=
  foldl (fun m y => if Qltb m y then y else m) x xs.

(** [get_bounds]; [nodes.values()] is read in the order of the map. *)
Definition get_bounds (rn : RoadNetwork) : Q * Q * Q * Q :=
  match (map_to_list (nodes rn)).*2 with
  | [] => (0, 0, 0, 0)%Q
  | node :: rest =>
      let lats := lat <$> rest in
      let lons := lon <$> rest in
      (py_min (lat node) lats, py_max (lat node) lats,
       py_min (lon node) lons, py_max (lon node) lons)
  end.

(** What a call of [find_nearest_node] ends in: it returns a node id
    or [None], or [geodesic] raises [ValueError]. *)
Inductive nearest : Set :=
| Returns (node_id : option Z)
| RaisesValueError.

(** The loop of [find_nearest_node] over [nodes.items()]; the state is
    [None] once [geodesic] has raised. *)
Definition nearest_step (geodesic : Q * Q -> Q * Q -> option Q) (lat0 lon0 : Q)
    (acc : option (xfloat * option Z)) (item : Z * Node) : option (xfloat * option Z) :=
  match acc with
  | None => None
  | Some acc =>
      match geodesic (lat0, lon0) (lat item.2, lon item.2) with
      | None => None
      | Some distance =>
          Some (if xlt (Fin distance) acc.1 then (Fin distance, Some item.1) else acc)
      end
  end.

(** [find_nearest_node]; the metres of [geopy]'s [geodesic] between two
    positions are the parameter [geodesic], which is [None] where
    [geopy] raises [ValueError], as it does for a latitude outside
    [-90, 90]. *)
Definition find_nearest_node (geodesic : Q * Q -> Q * Q -> option Q) (rn : RoadNetwork)
    (lat0 lon0 : Q) : nearest :=
  match map_to_list (nodes rn) with
  | [] => Returns None
  | items =>
      match foldl (nearest_step geodesic lat0 lon0) (Some (PInf, None)) items with
      | Some acc => Returns acc.2
      | None => RaisesValueError
      end
  end.

(** ** More of traffic_light.py *)

(** [random.uniform(a, b)], from the draw [r] of [random.random()]. *)
Definition uniform (a b r : Q) : Q := (a + (b - a) * r)%Q.

(** The body of the inner loop of [auto_detect_traffic_lights]: the
    random source is the stream [rand] of the draws of
    [random.random()], read from position [k]. *)
Definition place_light (rand : nat -> Q) (node_id : Z)
    (pk : TrafficLightPredictor * nat) (neighbor_id : Z) : TrafficLightPredictor * nat :=
  let (p, k) := pk in
  match traffic_lights p !! (node_id, neighbor_id) with
  | Some _ => (p, k)
  | None =>
      let cycle_time := uniform 90 150 (rand k) in
      let green_ratio := uniform (4 # 10) (6 # 10) (rand (S k)) in
      (add_traffic_light p node_id neighbor_id cycle_time green_ratio
         (rand (S (S k))) (uniform 0 cycle_time (rand (S (S (S k))))),
       S (S (S (S k))))
  end.

(** The first loop: the nodes with two neighbours or more. *)
Fixpoint intersection_nodes (rn : RoadNetwork) (node_ids : list Z) : result (list Z) :=
  match node_ids with
  | [] => Ret []
  | node_id :: rest =>
      neighbors ← get_neighbors rn node_id;
      found ← intersection_nodes rn rest;
      Ret (if bool_decide (2 <= length neighbors)%nat then node_id :: found else found)
  end.

(** The second loop. *)
Fixpoint place_lights (rand : nat -> Q) (rn : RoadNetwork) (junctions : list Z)
    (pk : TrafficLightPredictor * nat) : result (TrafficLightPredictor * nat) :=
  match junctions with
  | [] => Ret pk
  | node_id :: rest =>
      neighbors ← get_neighbors rn node_id;
      place_lights rand rn rest (foldl (place_light rand node_id) pk neighbors)
  end.

(** [auto_detect_traffic_lights] over the node ids in the order
    [node_ids]; the result carries the position reached in [rand]. *)
Definition auto_detect_from (rand : nat -> Q) (rn : RoadNetwork) (node_ids : list Z)
    (p : TrafficLightPredictor) (k : nat) : result (TrafficLightPredictor * nat) :=
  junctions ← intersection_nodes rn node_ids;
  place_lights rand rn junctions (p, k).

Definition auto_detect_traffic_lights (rand : nat -> Q) (rn : RoadNetwork)
    (p : TrafficLightPredictor) (k : nat) : result (TrafficLightPredictor * nat) :=
  auto_detect_from rand rn (map_to_list (nodes rn)).*1 p k.

(** [v] is a neighbour of the junction [u]: a node with two
    neighbours or more. *)
Definition junction (rn : RoadNetwork) (u v : Z) : Prop :=
  has_node rn u = true /\
  exists neighbors, get_neighbors rn u = Ret neighbors /\
                    (2 <= length neighbors)%nat /\ v ∈ neighbors.

(** What [auto_detect_traffic_lights] draws for a signal: a cycle of
    90 to 150 s, green and red durations that each take 40% to 60% of
    it, stated here with a margin of one point for the rounding of the
    float products, and an anchor within one cycle. *)
Definition drawn_light (tl : TrafficLight) : Prop :=
  (90 <= cycle_time tl)%Q /\ (cycle_time tl <= 150)%Q /\
  ((39 # 100) * cycle_time tl <= green_time tl)%Q /\
  (green_time tl <= (61 # 100) * cycle_time tl)%Q /\
  ((39 # 100) * cycle_time tl <= red_time tl)%Q /\
  (red_time tl <= (61 # 100) * cycle_time tl)%Q /\
  (0 <= phase_start_time tl)%Q /\ (phase_start_time tl <= cycle_time tl)%Q.

(** [p'] keeps the signals of [p] and adds drawn ones only. *)
Definition extends_with_drawn (p p' : TrafficLightPredictor) : Prop :=
  (forall key tl, traffic_lights p !! key = Some tl ->
                  traffic_lights p' !! key = Some tl) /\
  (forall key tl, traffic_lights p !! key = None ->
                  traffic_lights p' !! key = Some tl -> drawn_light tl).

(** Sample data: squared degrees as a stand-in for [geodesic], refused
    for a latitude outside [-90, 90]. *)
Definition flat_distance (a b : Q * Q) : option Q :=
  if Qltb 90 a.1 || Qltb a.1 (-90) || Qltb 90 b.1 || Qltb b.1 (-90) then None
  else Some ((a.1 - b.1) ^ 2 + (a.2 - b.2) ^ 2)%Q.

Definition half_draws (k : nat) : Q := (1 # 2)%Q.

Definition fork_detected : TrafficLightPredictor * nat :=
  Eval vm_compute in
    match auto_detect_traffic_lights half_draws fork new_predictor 0 with
    | Ret r => r
    | _ => (new_predictor, O)
    end.

(** ** More notions for the search *)

(** Every step of the path is an edge of the graph. *)
Fixpoint is_route (rn : RoadNetwork) (path : list Z) : Prop :=
  match path with
  | [] => True
  | x :: rest =>
      match rest with
      | [] => True
      | y :: _ => edge rn x y /\ is_route rn rest
      end
  end.

(** The stats of a search that has closed [n] nodes. *)
Definition stats_ok (n : nat) (s : gmap string pyval) : Prop :=
  s !! "nodes_explored"%string = Some (PyInt (Z.of_nat n)) /\
  exists k w,
    s !! "traffic_lights_encountered"%string = Some (PyInt k) /\
    s !! "total_wait_time"%string = Some (PyFloat w) /\
    0 <= k /\ (0 <= w)%Q /\ (k = 0 <-> (w == 0)%Q).

(** The parent map is a tree rooted at [start_id] over the closed
    nodes, listed in [order] as they were closed: a parent is closed,
    one edge before its child, and closed before its child is. *)
Definition tree_inv (self : AStarPathfinder) (start_id goal_id : Z)
    (order : list Z) (st : search) : Prop :=
  parents st !! start_id = None /\
  (forall n, is_Some (g_costs st !! n) -> parents st !! n = None -> n = start_id) /\
  (forall n p, parents st !! n = Some p ->
     edge (road_network self) p n /\
     exists i, order !! i = Some p /\
               forall j, order !! j = Some n -> (i < j)%nat) /\
  (forall n, n ∈ closed_set st <-> n ∈ order) /\
  NoDup order /\
  (goal_id ∉ closed_set st) /\
  (forall x, x ∈ open_list st -> is_Some (g_costs st !! node_id x)) /\
  (forall n, n ∈ closed_set st -> is_Some (g_costs st !! n)) /\
  (start_id ∈ closed_set st \/
   (open_list st <> [] /\ forall x, x ∈ open_list st -> node_id x = start_id)).

(** A signal whose cycle is zero, on which the modulo raises. *)
Definition zero_signal : TrafficLightPredictor :=
  {| traffic_lights := {[ (1, 2) := mkTrafficLight 1 0 0 0 "red" 0 ]} |}.

Definition zero_finder : AStarPathfinder :=
  {| road_network := two_nodes; traffic_predictor := zero_signal |}.

(** Some registered signal has a zero cycle. *)
Definition has_zero_cycle (p : TrafficLightPredictor) : Prop :=
  exists key tl, traffic_lights p !! key = Some tl /\ (cycle_time tl == 0)%Q.

(** ** The frontier as a heap *)

(** [not (b < a)]: [a] comes no later than [b]. *)
Definition PathNode_le (a b : PathNode) : Prop := PathNode_lt b a = false.

Definition parent_pos (i : nat) : nat := ((i - 1) / 2)%nat.

(** The heap property of heapq: no entry is less than its parent. *)
Definition heap_ok (heap : list PathNode) : Prop :=
  forall i x p, (0 < i)%nat ->
    heap !! i = Some x -> heap !! parent_pos i = Some p -> PathNode_le p x.

(** ** What a signal can add to a price *)

(** The most the signal of an edge adds to its price: its whole red
    time, driven at the average speed. *)
Definition allowance (self : AStarPathfinder) (u v : Z) : Q :=
  match traffic_lights (traffic_predictor self) !! (u, v) with
  | Some tl => (red_time tl * average_speed)%Q
  | None => 0%Q
  end.

Fixpoint path_allowance (self : AStarPathfinder) (path : list Z) : Q :=
  match path with
  | [] => 0%Q
  | x :: rest =>
      match rest with
      | [] => 0%Q
      | y :: _ => (allowance self x y + path_allowance self rest)%Q
      end
  end.

(** The frontier is a heap whose entries carry the heuristic of their
    node, every best-known cost of a node not yet closed is the cost of
    a frontier entry, and a child costs at most its parent's cost, the
    edge and the allowance of the edge's signal. *)
Definition price_inv (pow_half : Q -> Q) (self : AStarPathfinder) (goal_id : Z)
    (st : search) : Prop :=
  heap_ok (open_list st) /\
  (forall x, x ∈ open_list st ->
     h_cost x = heuristic pow_half self (node_id x) goal_id) /\
  (forall n g, n ∉ closed_set st -> g_costs st !! n = Some g ->
     exists x, x ∈ open_list st /\ node_id x = n /\ g_cost x = g) /\
  (forall n p, parents st !! n = Some p ->
     exists gp gn d,
       g_costs st !! p = Some gp /\ g_costs st !! n = Some gn /\
       get_edge_distance (road_network self) p n = Some d /\
       (gn <= gp + d + allowance self p n)%Q) /\
  (goal_id ∉ closed_set st).

(** A frontier of three entries, the last with an infinite heuristic. *)
Definition sample_frontier : list PathNode :=
  [ mkPathNode 1 0 (Fin 1) None;
    mkPathNode 2 5 (Fin 0) None;
    mkPathNode 3 2 PInf None ].

(** The run from 1 to 2 on the two-node network without signals. *)
Definition plain_run : list Z * xfloat * gmap string pyval :=
  Eval vm_compute in
    match find_path sqrt_approx plain_finder 10 1 2 0 with
    | Ret r => r
    | _ => ([], PInf, ∅)
    end.


(** ** What the log says of the costs *)

(** The cost of a path as the log priced it: for every step of the
    path an entry of the log for that edge, and the prices of these
    entries added up along the path. *)
Inductive priced_route (log : list (Z * Z * Q * Q)) : list Z -> Q -> Prop :=
| priced_start n : priced_route log [n] 0%Q
| priced_step l p n s t c :
    last l = Some p ->
    priced_route log l s ->
    (p, n, t, c) ∈ log ->
    priced_route log (l ++ [n]) (s + c)%Q.

(** The best-known costs are sums of logged prices: the cost of a
    child is the cost of its parent plus the price of a log entry for
    that edge.  With it, what makes the popped goal entry carry the
    best-known cost of the goal: the frontier is a heap whose entries
    carry the heuristic of their node and are no cheaper than the
    best-known cost of their node, and every best-known cost of a node
    not yet closed is the cost of a frontier entry. *)
Definition ledger_inv (pow_half : Q -> Q) (self : AStarPathfinder)
    (start_id goal_id : Z) (st : search) (log : list (Z * Z * Q * Q)) : Prop :=
  g_costs st !! start_id = Some 0%Q /\
  parents st !! start_id = None /\
  (forall n g, g_costs st !! n = Some g -> parents st !! n = None -> n = start_id) /\
  (forall n p, parents st !! n = Some p ->
     p ∈ closed_set st /\
     exists t c gp,
       (p, n, t, c) ∈ log /\
       g_costs st !! p = Some gp /\ g_costs st !! n = Some (gp + c)%Q) /\
  (forall x, x ∈ open_list st ->
     exists g, g_costs st !! node_id x = Some g /\ (g <= g_cost x)%Q) /\
  heap_ok (open_list st) /\
  (forall x, x ∈ open_list st ->
     h_cost x = heuristic pow_half self (node_id x) goal_id) /\
  (forall n g, n ∉ closed_set st -> g_costs st !! n = Some g ->
     exists x, x ∈ open_list st /\ node_id x = n /\ g_cost x = g) /\
  (goal_id ∉ closed_set st).

(** ** traffic_light.py in binary64 arithmetic *)

Module Binary64.

(** A Python [float]: a binary64 number.  The finite ones are
    rationals [m * 2 ^ e] with [|m| < 2 ^ 53] and [-1074 <= e <= 971];
    the two zeros are one value, as they are for [==] and [<]. *)
Inductive binary64 : Set :=
| Finite (q : Q)
| PosInf
| NegInf
| NaN.

Definition pow2 (e : Z) : Q := (2 ^ e)%Q.

(** [floor (log2 q)] for a positive [q]. *)
Definition ilog2 (q : Q) : Z :=
  let k := Z.log2 (Qnum q) - Z.log2 (Zpos (Qden q)) in
  if Qle_bool (pow2 k) q then k else k - 1.

(** The nearest integer, ties to the even one. *)
Definition rne (x : Q) : Z :=
  let f := Qfloor x in
  match ((x - inject_Z f) ?= (1 # 2))%Q with
  | Lt => f
  | Gt => f + 1
  | Eq => if Z.even f then f else f + 1
  end.

(** Rounding to binary64, to nearest and ties to even: 53 bits from
    the leading one, the unit no finer than [2 ^ -1074], and infinity
    once the rounded magnitude reaches [2 ^ 1024].  Results are kept
    in lowest terms. *)
Definition round64 (x : Q) : binary64 :=
  if Qeq_bool x 0 then Finite 0
  else
    let e := Z.max (ilog2 (Qabs x) - 52) (-1074) in
    let y := (inject_Z (rne (x / pow2 e)) * pow2 e)%Q in
    if Qle_bool (pow2 1024) (Qabs y)
    then (if Qle_bool 0 x then PosInf else NegInf)
    else Finite (Qred y).

(** [a + b] *)
Definition fadd (a b : binary64) : binary64 :=
  match a, b with
  | Finite x, Finite y => round64 (x + y)
  | NaN, _ | _, NaN => NaN
  | PosInf, NegInf | NegInf, PosInf => NaN
  | PosInf, _ | _, PosInf => PosInf
  | NegInf, _ | _, NegInf => NegInf
  end.

(** [- a], which is exact *)
Definition fneg (a : binary64) : binary64 :=
  match a with
  | Finite x => Finite (- x)
  | PosInf => NegInf
  | NegInf => PosInf
  | NaN => NaN
  end.

(** [a - b] *)
Definition fsub (a b : binary64) : binary64 :=
  match a, b with
  | Finite x, Finite y => round64 (x - y)
  | _, _ => fadd a (fneg b)
  end.

(** [a < b]: false when either is not a number. *)
Definition fltb (a b : binary64) : bool :=
  match a, b with
  | Finite x, Finite y => Qltb x y
  | NaN, _ | _, NaN => false
  | _, NegInf => false
  | NegInf, _ => true
  | PosInf, _ => false
  | Finite _, PosInf => true
  end.

(** The integer part, rounding toward zero. *)
Definition Qtrunc (q : Q) : Z :=
  if Qle_bool 0 q then Qfloor q else Qceiling q.

(** C's [fmod]: the remainder of the division truncated toward zero,
    which is exact. *)
Definition fmod (a b : binary64) : binary64 :=
  match a, b with
  | NaN, _ | _, NaN => NaN
  | PosInf, _ | NegInf, _ => NaN
  | Finite x, PosInf | Finite x, NegInf => Finite x
  | Finite x, Finite y =>
      if Qeq_bool y 0 then NaN
      else Finite (Qred (x - inject_Z (Qtrunc (x / y)) * y))
  end.

(** Python's [a % b] on floats ([float_rem]): a zero divisor raises;
    otherwise [fmod], moved by [b] when its sign is not the sign of
    [b], and that addition rounds. *)
Definition py_mod (a b : binary64) : result binary64 :=
  if match b with Finite y => Qeq_bool y 0 | _ => false end
  then Raise ZeroDivisionError
  else
    let rem := fmod a b in
    match rem with
    | Finite r =>
        if Qeq_bool r 0 then Ret (Finite 0)
        else if xorb (fltb b (Finite 0)) (fltb rem (Finite 0))
             then Ret (fadd rem b)
             else Ret rem
    | _ => Ret NaN
    end.

(** [cycle_position] of [get_wait_time] and [predict_remaining_time];
    the fields of a signal are finite floats. *)
Definition cycle_position (tl : TrafficLight) (current_time : binary64)
    : result binary64 :=
  py_mod (fsub current_time (Finite (phase_start_time tl))) (Finite (cycle_time tl)).

(** The body of [get_wait_time] once the signal has been fetched. *)
Definition light_wait (tl : TrafficLight) (current_time : binary64) : result binary64 :=
  cycle_position ← cycle_position tl current_time;
  if String.eqb (current_phase tl) "green" then
    if fltb cycle_position (Finite (green_time tl)) then
      let remaining_green := fsub (Finite (green_time tl)) cycle_position in
      if fltb (Finite 5) remaining_green then Ret (Finite 0)
      else Ret (Finite (red_time tl))
    else
      let remaining_red := fsub (Finite (cycle_time tl)) cycle_position in
      Ret remaining_red
  else
    if fltb cycle_position (Finite (red_time tl)) then
      let remaining_red := fsub (Finite (red_time tl)) cycle_position in
      Ret remaining_red
    else Ret (Finite 0).

Definition get_wait_time (p : TrafficLightPredictor) (from_node to_node : Z)
    (current_time : binary64) : result binary64 :=
  match traffic_lights p !! (from_node, to_node) with
  | None => Ret (Finite 0)
  | Some traffic_light => light_wait traffic_light current_time
  end.

(** The finite binary64 numbers. *)
Definition representable (q : Q) : Prop :=
  exists m e : Z,
    -1074 <= e /\ Z.abs m < 2 ^ 53 /\
    (q == inject_Z m * pow2 e)%Q /\ (Qabs q < pow2 1024)%Q.

(** The float a decimal literal denotes. *)
Definition literal (q : Q) : Q :=
  match round64 q with
  | Finite y => y
  | _ => 0%Q
  end.

(** The whole multiples of [2 ^ j] of fewer than [2 ^ 52] units. *)
Definition on_grid (j : Z) (q : Q) : Prop :=
  exists n : Z, Z.abs n < 2 ^ 52 /\ (q == inject_Z n * pow2 j)%Q.

(** A signal whose durations and anchor are on the grid of [2 ^ j]. *)
Definition grid_light (j : Z) (tl : TrafficLight) : Prop :=
  -1074 <= j <= 970 /\ (0 < cycle_time tl)%Q /\
  on_grid j (cycle_time tl) /\ on_grid j (green_time tl) /\
  on_grid j (red_time tl) /\ on_grid j (phase_start_time tl).

End Binary64.

(** A signal anchored on green at the float [0.1]. *)
Definition offset_light : TrafficLight :=
  mkTrafficLight 1 120 60 60 "green" (Binary64.literal (1 # 10)).

Definition offset_signal : TrafficLightPredictor :=
  {| traffic_lights := {[ (1, 2) := offset_light ]} |}.

(** ** The machine's floats, to compare [Binary64] with *)

Module Hardware.
Import PrimFloat.

(** The value of a machine float. *)
Definition value (f : float) : Binary64.binary64 :=
  match FloatOps.Prim2SF f with
  | SpecFloat.S754_zero _ => Binary64.Finite 0
  | SpecFloat.S754_finite s m e =>
      Binary64.Finite
        (Qred ((if s then -1 else 1) * inject_Z (Zpos m) * Binary64.pow2 e))
  | SpecFloat.S754_infinity s => if s then Binary64.NegInf else Binary64.PosInf
  | SpecFloat.S754_nan => Binary64.NaN
  end.

Definition same (a b : Binary64.binary64) : bool :=
  match a, b with
  | Binary64.Finite x, Binary64.Finite y => Qeq_bool x y
  | Binary64.PosInf, Binary64.PosInf
  | Binary64.NegInf, Binary64.NegInf
  | Binary64.NaN, Binary64.NaN => true
  | _, _ => false
  end.

(** [a + b] and [a - b] of the machine are those of [Binary64]. *)
Definition agree (ab : float * float) : bool :=
  let (a, b) := ab in
  same (value (a + b)) (Binary64.fadd (value a) (value b)) &&
  same (value (a - b)) (Binary64.fsub (value a) (value b)).

Definition samples : list (float * float) :=
  [ (1, 0x1.999999999999ap-4); (121, 0x1.999999999999ap-4);
    (0x1.3333333333333p-2, 0x1.999999999999ap-4);
    (0x1.999999999999ap-4, 0x1.999999999999ap-3);
    (-0x1p-60, 120); (120, 0x1.199999999999ap-1);
    (0x1.b8cccccccccccp5, 0x1.999999999999ap-4);
    (0x1.5e33333333333p7, 0x1.999999999999ap-4);
    (60, 0x1.b7fffffffffffp5); (60, 0x1.b8p5);
    (0x1p1023, 0x1p1023); (0x1.fffffffffffffp1023, 0x1p970);
    (0x1.fffffffffffffp1023, 0x1.fffffffffffffp969);
    (0x1p-1074, 0x1.8p-1073); (0x1p-1074, 2);
    (0x1p53, 1); (0x1p53, 3); (1, 0x1p-53); (1, 0x1.8p-53); (1, 0x1p-54);
    (-0x1.8p0, 0x1p-53); (infinity, 1); (infinity, infinity); (1, nan) ]%float.

End Hardware.

(** * Properties *)

(** ** Rational arithmetic *)

Lemma Qfloor_unique (x : Q) (z : Z) :
  (inject_Z z <= x)%Q -> (x < inject_Z (z + 1))%Q -> Qfloor x = z.
Proof.
  intros Hlo Hhi.
  pose proof (Qfloor_le x) as H1. pose proof (Qlt_floor x) as H2.
  assert (inject_Z z < inject_Z (Qfloor x + 1))%Q as A by (eapply Qle_lt_trans; eauto).
  assert (inject_Z (Qfloor x) < inject_Z (z + 1))%Q as B by (eapply Qle_lt_trans; eauto).
  rewrite <- Zlt_Qlt in A, B. lia.
Qed.

Lemma Qfloor_add_Z (x : Q) (k : Z) : Qfloor (x + inject_Z k) = Qfloor x + k.
Proof.
  apply Qfloor_unique.
  - rewrite inject_Z_plus. pose proof (Qfloor_le x). lra.
  - pose proof (Qlt_floor x) as H. rewrite !inject_Z_plus in *. lra.
Qed.

Lemma Qmod_bounds (a b : Q) : (0 < b)%Q -> (0 <= Qmod a b)%Q /\ (Qmod a b < b)%Q.
Proof.
  intros Hb. unfold Qmod.
  pose proof (Qfloor_le (a / b)) as H1. pose proof (Qlt_floor (a / b)) as H2.
  rewrite inject_Z_plus in H2.
  set (k := inject_Z (Qfloor (a / b))) in *.
  assert (a == (a / b) * b)%Q as E by (field; lra).
  split.
  - assert (k * b <= (a / b) * b)%Q by (apply Qmult_le_compat_r; lra). lra.
  - assert ((a / b) * b < (k + inject_Z 1) * b)%Q by (apply Qmult_lt_compat_r; lra).
    change (inject_Z 1) with 1%Q in *. lra.
Qed.

Lemma Qmod_period (a b : Q) (k : Z) :
  ~ (b == 0)%Q -> (Qmod (a + inject_Z k * b) b == Qmod a b)%Q.
Proof.
  intros Hb. unfold Qmod.
  assert ((a + inject_Z k * b) / b == a / b + inject_Z k)%Q as E by (field; auto).
  rewrite E, Qfloor_add_Z, inject_Z_plus. ring.
Qed.

Lemma Qmod_comp (a a' b : Q) : (a == a')%Q -> (Qmod a b == Qmod a' b)%Q.
Proof.
  intros E. unfold Qmod.
  assert (Qfloor (a / b) = Qfloor (a' / b)) as -> by (apply Qfloor_comp; rewrite E; reflexivity).
  rewrite E. reflexivity.
Qed.

(** ** The signal oracle *)

Lemma Qltb_true (a b : Q) : Qltb a b = true <-> (a < b)%Q.
Proof. unfold Qltb. destruct (Qlt_le_dec a b); split; intros; try done; lra. Qed.

Lemma Qltb_false (a b : Q) : Qltb a b = false <-> (b <= a)%Q.
Proof. unfold Qltb. destruct (Qlt_le_dec a b); split; intros; try done; lra. Qed.

Lemma Qltb_comp (a b a' b' : Q) :
  (a == a')%Q -> (b == b')%Q -> Qltb a b = Qltb a' b'.
Proof.
  intros Ea Eb. destruct (Qltb a' b') eqn:F.
  - apply Qltb_true in F. apply Qltb_true. lra.
  - apply Qltb_false in F. apply Qltb_false. lra.
Qed.

Lemma py_mod_Ret (a b : Q) : ~ (b == 0)%Q -> py_mod a b = Ret (Qmod a b).
Proof.
  intros Hb. unfold py_mod.
  destruct (Qeq_bool b 0) eqn:E; [|done].
  apply Qeq_bool_iff in E. contradiction.
Qed.

Lemma py_mod_zero (a b : Q) : (b == 0)%Q -> py_mod a b = Raise ZeroDivisionError.
Proof.
  intros Hb. unfold py_mod. apply Qeq_bool_iff in Hb. by rewrite Hb.
Qed.

(** The wait as a function of the position in the cycle. *)
Lemma light_wait_unfold (tl : TrafficLight) (t : Q) :
  ~ (cycle_time tl == 0)%Q ->
  light_wait tl t =
    let pos := Qmod (t - phase_start_time tl) (cycle_time tl) in
    if String.eqb (current_phase tl) "green" then
      if Qltb pos (green_time tl) then
        if Qltb 5 (green_time tl - pos) then Ret 0%Q else Ret (red_time tl)
      else Ret (cycle_time tl - pos)%Q
    else
      if Qltb pos (red_time tl) then Ret (red_time tl - pos)%Q else Ret 0%Q.
Proof. intros Hc. unfold light_wait. by rewrite py_mod_Ret. Qed.

Lemma light_wait_nonneg (tl : TrafficLight) (t : Q) :
  wf_light tl -> exists w, light_wait tl t = Ret w /\ (0 <= w)%Q.
Proof.
  intros (Hc & Hg0 & Hgc & Hr).
  rewrite light_wait_unfold by lra. cbv zeta.
  destruct (Qmod_bounds (t - phase_start_time tl) (cycle_time tl) Hc) as [Hp0 Hpc].
  set (pos := Qmod _ _) in *.
  destruct (String.eqb _ _).
  - destruct (Qltb pos (green_time tl)) eqn:E1.
    + destruct (Qltb 5 _); eexists; split; try reflexivity; lra.
    + eexists; split; [reflexivity|lra].
  - destruct (Qltb pos (red_time tl)) eqn:E1.
    + apply Qltb_true in E1. eexists; split; [reflexivity|lra].
    + eexists; split; [reflexivity|lra].
Qed.

Lemma add_traffic_light_wf p from_node to_node cycle ratio u anchor :
  wf_predictor p -> (0 < cycle)%Q -> (0 <= ratio)%Q -> (ratio <= 1)%Q ->
  wf_predictor (add_traffic_light p from_node to_node cycle ratio u anchor).
Proof.
  intros Hp Hc H0 H1 k tl. unfold add_traffic_light. cbn.
  destruct (decide (k = (from_node, to_node))) as [->|Hne].
  - rewrite lookup_insert_eq. intros [= <-]. unfold wf_light; cbn.
    split; [lra|split; [nra|split; [nra|ring]]].
  - rewrite lookup_insert_ne by done. apply Hp.
Qed.

Lemma new_predictor_wf : wf_predictor new_predictor.
Proof. intros k tl. unfold new_predictor. cbn. by rewrite lookup_empty. Qed.

Lemma get_wait_time_total (p : TrafficLightPredictor) (from_node to_node : Z) (t : Q) :
  wf_predictor p ->
  exists w, get_wait_time p from_node to_node t = Ret w /\ (0 <= w)%Q.
Proof.
  intros Hp. unfold get_wait_time.
  destruct (traffic_lights p !! (from_node, to_node)) as [tl|] eqn:E.
  - apply light_wait_nonneg. eapply Hp, E.
  - exists 0%Q. split; [done|lra].
Qed.

(** In exact arithmetic the oracle is periodic: the positions at [t]
    and at [t + k * c] are equal. *)
Lemma light_wait_periodic (tl : TrafficLight) (t : Q) (k : Z) :
  ~ (cycle_time tl == 0)%Q ->
  exists w w',
    light_wait tl t = Ret w /\
    light_wait tl (t + inject_Z k * cycle_time tl)%Q = Ret w' /\
    (w == w')%Q.
Proof.
  intros Hc. rewrite !light_wait_unfold by done. cbv zeta.
  assert (Qmod (t + inject_Z k * cycle_time tl - phase_start_time tl) (cycle_time tl)
          == Qmod (t - phase_start_time tl) (cycle_time tl))%Q as E.
  { rewrite <- (Qmod_period (t - phase_start_time tl) (cycle_time tl) k Hc).
    apply Qmod_comp. ring. }
  set (pos := Qmod (t - _) _) in *. set (pos' := Qmod (t + _ - _) _) in *.
  rewrite !(Qltb_comp pos' _ pos _ E (Qeq_refl _)).
  rewrite (Qltb_comp 5 (green_time tl - pos') 5 (green_time tl - pos))
    by (try reflexivity; rewrite E; reflexivity).
  destruct (String.eqb _ _).
  - destruct (Qltb pos (green_time tl)).
    + destruct (Qltb 5 _); do 2 eexists; (split; [reflexivity|split; [reflexivity|lra]]).
    + do 2 eexists; (split; [reflexivity|split; [reflexivity|lra]]).
  - destruct (Qltb pos (red_time tl));
      do 2 eexists; (split; [reflexivity|split; [reflexivity|lra]]).
Qed.

(** ** heapq keeps the entries *)

Section Heap.
Implicit Types (heap : list PathNode) (x : PathNode).

(** More fuel than the position (for [siftup]: than the distance to
    the end) changes nothing: the loops stop by themselves. *)
Lemma siftdown_loop_fuel fuel fuel' heap x startpos pos :
  (pos <= fuel)%nat -> (pos <= fuel')%nat ->
  siftdown_loop fuel heap x startpos pos = siftdown_loop fuel' heap x startpos pos.
Proof.
  revert fuel' heap pos.
  induction fuel as [|fuel IH]; intros [|fuel'] heap pos H1 H2; cbn -[Nat.div]; try done.
  - rewrite bool_decide_false by lia. done.
  - rewrite bool_decide_false by lia. done.
  - case_bool_decide as Hlt; [|done].
    destruct (heap !! ((pos - 1) / 2)%nat) as [par|]; [|done].
    destruct (PathNode_lt x par); [|done].
    assert ((pos - 1) / 2 <= pos - 1)%nat by (apply Nat.Div0.div_le_upper_bound; lia).
    apply IH; lia.
Qed.

Lemma siftup_loop_fuel fuel fuel' heap x startpos pos :
  (length heap <= pos + fuel)%nat -> (length heap <= pos + fuel')%nat ->
  siftup_loop fuel heap x startpos pos = siftup_loop fuel' heap x startpos pos.
Proof.
  revert fuel' heap pos.
  induction fuel as [|fuel IH]; intros [|fuel'] heap pos H1 H2; cbn -[Nat.mul]; try done.
  - rewrite bool_decide_false by lia. done.
  - rewrite bool_decide_false by lia. done.
  - case_bool_decide as Hlt; [|done].
    set (cp := if _ && _ then _ else _).
    assert (pos < cp)%nat as Hcp by (unfold cp; destruct (_ && _); lia).
    destruct (heap !! cp) as [child|]; [|done].
    apply IH; rewrite length_insert; lia.
Qed.

Lemma siftdown_loop_perm fuel heap x startpos pos :
  (pos < length heap)%nat ->
  siftdown_loop fuel heap x startpos pos ≡ₚ <[pos := x]> heap.
Proof.
  revert heap pos. induction fuel as [|fuel IH]; intros heap pos Hpos.
  { reflexivity. }
  cbn -[Nat.div].
  case_bool_decide as Hlt; [|reflexivity].
  destruct (heap !! ((pos - 1) / 2)%nat) as [par|] eqn:Hpar; [|reflexivity].
  destruct (PathNode_lt x par); [|reflexivity].
  assert ((pos - 1) / 2 < pos)%nat as Hlt'.
  { apply Nat.Div0.div_lt_upper_bound. lia. }
  rewrite IH by (rewrite length_insert; lia).
  rewrite <- (list_insert_insert_eq heap pos par x).
  apply Permutation_insert_swap.
  - by apply list_lookup_insert_eq.
  - rewrite list_lookup_insert_ne by lia. done.
Qed.

Lemma siftdown_perm heap startpos pos : siftdown heap startpos pos ≡ₚ heap.
Proof.
  unfold siftdown. destruct (heap !! pos) as [x|] eqn:E; [|done].
  rewrite siftdown_loop_perm by (by eapply lookup_lt_Some).
  by rewrite list_insert_id.
Qed.

Lemma siftup_loop_perm fuel heap x startpos pos :
  (pos < length heap)%nat ->
  siftup_loop fuel heap x startpos pos ≡ₚ <[pos := x]> heap.
Proof.
  revert heap pos. induction fuel as [|fuel IH]; intros heap pos Hpos; cbn -[Nat.mul].
  { rewrite siftdown_perm. reflexivity. }
  case_bool_decide as Hlt; [|by rewrite siftdown_perm].
  set (cp := if _ && _ then _ else _).
  assert (pos < cp)%nat as Hcp by (unfold cp; destruct (_ && _); lia).
  destruct (heap !! cp) as [child|] eqn:Hch; [|by rewrite siftdown_perm].
  rewrite IH by (rewrite length_insert; by eapply lookup_lt_Some).
  rewrite <- (list_insert_insert_eq heap pos child x).
  apply Permutation_insert_swap.
  - by apply list_lookup_insert_eq.
  - rewrite list_lookup_insert_ne by lia. done.
Qed.

Lemma siftup_perm heap pos : siftup heap pos ≡ₚ heap.
Proof.
  unfold siftup. destruct (heap !! pos) as [x|] eqn:E; [|done].
  rewrite siftup_loop_perm by (by eapply lookup_lt_Some).
  by rewrite list_insert_id.
Qed.

Lemma heappush_perm heap x : heappush heap x ≡ₚ x :: heap.
Proof.
  unfold heappush. rewrite siftdown_perm. by rewrite Permutation_app_comm.
Qed.

Lemma heappop_perm heap x rest : heappop heap = Some (x, rest) -> heap ≡ₚ x :: rest.
Proof.
  unfold heappop. destruct (last heap) as [lastelt|] eqn:El; [|done].
  apply last_Some in El as [l' ->]. rewrite removelast_last.
  destruct l' as [|r l'']; intros [= <- <-]; [done|].
  rewrite siftup_perm. cbn. f_equiv. by rewrite Permutation_app_comm.
Qed.

Lemma heappop_is_Some heap : heap <> [] -> is_Some (heappop heap).
Proof.
  intros Hne. unfold heappop.
  destruct (last heap) as [lastelt|] eqn:El.
  - destruct (removelast heap); eauto.
  - apply last_None in El. done.
Qed.
End Heap.

(** ** heapq keeps the heap order *)

Lemma xlt_irrefl (a : xfloat) : xlt a a = false.
Proof. destruct a as [x|]; cbn; [|done]. destruct (Qlt_le_dec x x); [lra|done]. Qed.

Lemma xlt_trans (a b c : xfloat) : xlt a b = true -> xlt b c = true -> xlt a c = true.
Proof.
  destruct a as [x|], b as [y|], c as [z|]; cbn; try done.
  destruct (Qlt_le_dec x y), (Qlt_le_dec y z), (Qlt_le_dec x z); try done. lra.
Qed.

Lemma xlt_asym (a b : xfloat) : xlt a b = true -> xlt b a = false.
Proof.
  destruct a as [x|], b as [y|]; cbn; try done.
  destruct (Qlt_le_dec x y), (Qlt_le_dec y x); try done. lra.
Qed.

(** Being no later is transitive: [<] is a strict weak order. *)
Lemma xlt_neg_trans (a b c : xfloat) :
  xlt b a = false -> xlt c b = false -> xlt c a = false.
Proof.
  destruct a as [x|], b as [y|], c as [z|]; cbn; try done.
  destruct (Qlt_le_dec y x), (Qlt_le_dec z y), (Qlt_le_dec z x); try done. lra.
Qed.

Lemma PathNode_le_refl (a : PathNode) : PathNode_le a a.
Proof. apply xlt_irrefl. Qed.

Lemma PathNode_le_trans (a b c : PathNode) :
  PathNode_le a b -> PathNode_le b c -> PathNode_le a c.
Proof. unfold PathNode_le, PathNode_lt. apply xlt_neg_trans. Qed.

Lemma PathNode_lt_le (a b : PathNode) : PathNode_lt a b = true -> PathNode_le a b.
Proof. unfold PathNode_le, PathNode_lt. apply xlt_asym. Qed.

Lemma parent_pos_lt (i : nat) : (0 < i)%nat -> (parent_pos i < i)%nat.
Proof. intros Hi. unfold parent_pos. apply Nat.Div0.div_lt_upper_bound. lia. Qed.

Lemma parent_pos_child (c p : nat) :
  (0 < c)%nat -> parent_pos c = p -> c = (2 * p + 1)%nat \/ c = (2 * p + 2)%nat.
Proof.
  intros Hc <-. unfold parent_pos.
  pose proof (Nat.div_mod_eq (c - 1) 2) as E.
  pose proof (Nat.mod_upper_bound (c - 1) 2 ltac:(lia)). lia.
Qed.

Lemma parent_pos_left (p : nat) : parent_pos (2 * p + 1) = p.
Proof.
  unfold parent_pos. replace (2 * p + 1 - 1)%nat with (p * 2)%nat by lia.
  apply Nat.div_mul. lia.
Qed.

Lemma parent_pos_right (p : nat) : parent_pos (2 * p + 2) = p.
Proof.
  unfold parent_pos. replace (2 * p + 2 - 1)%nat with (1 + p * 2)%nat by lia.
  rewrite Nat.div_add by lia. done.
Qed.

Section HeapOrder.
Implicit Types (heap : list PathNode) (x : PathNode).

(** Writing the held item back closes the hole. *)
Lemma heap_ok_insert heap x pos :
  (pos < length heap)%nat ->
  (forall i y p, (0 < i)%nat -> i <> pos ->
     heap !! i = Some y -> heap !! parent_pos i = Some p -> PathNode_le p y) ->
  (forall c y, (0 < c)%nat -> parent_pos c = pos -> heap !! c = Some y -> PathNode_le x y) ->
  (forall par, (0 < pos)%nat -> heap !! parent_pos pos = Some par -> PathNode_le par x) ->
  heap_ok (<[pos := x]> heap).
Proof.
  intros Hpos I1 I3 Hpar i y p Hi Hy Hp.
  destruct (decide (i = pos)) as [->|Hne].
  - rewrite list_lookup_insert_eq in Hy by done. injection Hy as <-.
    rewrite list_lookup_insert_ne in Hp by (pose proof (parent_pos_lt pos Hi); lia).
    by apply Hpar.
  - rewrite list_lookup_insert_ne in Hy by done.
    destruct (decide (parent_pos i = pos)) as [E|E].
    + rewrite E, list_lookup_insert_eq in Hp by done. injection Hp as <-.
      by apply (I3 i).
    + rewrite list_lookup_insert_ne in Hp by done. by apply (I1 i).
Qed.

Lemma siftdown_loop_ok fuel heap x pos :
  (pos <= fuel)%nat -> (pos < length heap)%nat ->
  (forall i y p, (0 < i)%nat -> i <> pos ->
     heap !! i = Some y -> heap !! parent_pos i = Some p -> PathNode_le p y) ->
  (forall c y g, (0 < pos)%nat -> (0 < c)%nat -> parent_pos c = pos ->
     heap !! c = Some y -> heap !! parent_pos pos = Some g -> PathNode_le g y) ->
  (forall c y, (0 < c)%nat -> parent_pos c = pos -> heap !! c = Some y -> PathNode_le x y) ->
  heap_ok (siftdown_loop fuel heap x 0 pos).
Proof.
  revert heap pos. induction fuel as [|fuel IH]; intros heap pos Hfuel Hpos I1 I2 I3.
  { cbn. apply heap_ok_insert; auto. intros par Hp. lia. }
  cbn -[Nat.div]. case_bool_decide as Hlt.
  2:{ apply heap_ok_insert; auto. intros par Hp. lia. }
  fold (parent_pos pos).
  pose proof (parent_pos_lt pos Hlt) as Hpp.
  destruct (heap !! parent_pos pos) as [par|] eqn:Hpar.
  2:{ apply lookup_ge_None in Hpar. lia. }
  destruct (PathNode_lt x par) eqn:Hx.
  2:{ apply heap_ok_insert; auto. intros par' _ Hp. rewrite Hpar in Hp.
      injection Hp as <-. done. }
  apply PathNode_lt_le in Hx.
  assert (forall i y, (0 < i)%nat -> i <> pos -> parent_pos i = parent_pos pos ->
            heap !! i = Some y -> PathNode_le par y) as Hsib.
  { intros i y Hi Hne E Hy. apply (I1 i); auto. by rewrite E. }
  apply IH.
  - lia.
  - rewrite length_insert. lia.
  - intros i y p Hi Hne Hy Hp.
    destruct (decide (i = pos)) as [->|Hnp].
    + rewrite list_lookup_insert_eq in Hy by done. injection Hy as <-.
      rewrite list_lookup_insert_ne in Hp by lia. rewrite Hpar in Hp.
      injection Hp as <-. apply PathNode_le_refl.
    + rewrite list_lookup_insert_ne in Hy by done.
      destruct (decide (parent_pos i = pos)) as [E|E].
      * rewrite E, list_lookup_insert_eq in Hp by done. injection Hp as <-.
        by apply (I2 i y par).
      * rewrite list_lookup_insert_ne in Hp by done. by apply (I1 i).
  - intros c y g Hpp0 Hc Ec Hy Hg.
    rewrite list_lookup_insert_ne in Hg
      by (pose proof (parent_pos_lt (parent_pos pos) Hpp0); lia).
    assert (PathNode_le g par) as Hgp by (apply (I1 (parent_pos pos)); auto; lia).
    destruct (decide (c = pos)) as [->|Hnp].
    + rewrite list_lookup_insert_eq in Hy by done. by injection Hy as <-.
    + rewrite list_lookup_insert_ne in Hy by done.
      eapply PathNode_le_trans; [exact Hgp|]. by apply (Hsib c).
  - intros c y Hc Ec Hy.
    destruct (decide (c = pos)) as [->|Hnp].
    + rewrite list_lookup_insert_eq in Hy by done. by injection Hy as <-.
    + rewrite list_lookup_insert_ne in Hy by done.
      eapply PathNode_le_trans; [exact Hx|]. by apply (Hsib c).
Qed.

Lemma siftup_loop_ok fuel heap x pos :
  (length heap <= pos + fuel)%nat -> (pos < length heap)%nat ->
  (forall i y p, (0 < i)%nat -> parent_pos i <> pos ->
     heap !! i = Some y -> heap !! parent_pos i = Some p -> PathNode_le p y) ->
  (forall c y g, (0 < pos)%nat -> (0 < c)%nat -> parent_pos c = pos ->
     heap !! c = Some y -> heap !! parent_pos pos = Some g -> PathNode_le g y) ->
  heap_ok (siftup_loop fuel heap x 0 pos).
Proof.
  revert heap pos. induction fuel as [|fuel IH]; intros heap pos Hfuel Hpos K1 K2; [lia|].
  assert ((length heap <= 2 * pos + 1)%nat ->
          heap_ok (siftdown (<[pos := x]> heap) 0 pos)) as Hleaf.
  { intros Hl. unfold siftdown. rewrite list_lookup_insert_eq by done.
    assert (forall c y, (0 < c)%nat -> parent_pos c = pos ->
              <[pos := x]> heap !! c = Some y -> False) as Hnone.
    { intros c y Hc Ec Hy. apply lookup_lt_Some in Hy. rewrite length_insert in Hy.
      destruct (parent_pos_child c pos Hc Ec); lia. }
    apply siftdown_loop_ok.
    - lia.
    - by rewrite length_insert.
    - intros i y p Hi Hne Hy Hp.
      destruct (decide (parent_pos i = pos)) as [E|E]; [by destruct (Hnone i y)|].
      rewrite list_lookup_insert_ne in Hy by done.
      rewrite list_lookup_insert_ne in Hp by done. by apply (K1 i).
    - intros c y g _ Hc Ec Hy _. by destruct (Hnone c y).
    - intros c y Hc Ec Hy. by destruct (Hnone c y). }
  assert (forall cp child, (0 < cp)%nat -> heap !! cp = Some child ->
            parent_pos cp = pos ->
            (forall i y, (0 < i)%nat -> parent_pos i = pos -> heap !! i = Some y ->
               PathNode_le child y) ->
            heap_ok (siftup_loop fuel (<[pos := child]> heap) x 0 cp)) as Hcont.
  { intros cp child Hcp0 Hch Epc Hsel.
    assert (pos < cp)%nat as Hcp by (pose proof (parent_pos_lt cp); lia).
    apply IH.
    - rewrite length_insert. lia.
    - rewrite length_insert. by eapply lookup_lt_Some.
    - intros i y p Hi Hne Hy Hp.
      destruct (decide (i = pos)) as [->|Hnp].
      + rewrite list_lookup_insert_eq in Hy by done. injection Hy as <-.
        rewrite list_lookup_insert_ne in Hp by (pose proof (parent_pos_lt pos Hi); lia).
        apply (K2 cp child p); auto.
      + rewrite list_lookup_insert_ne in Hy by done.
        destruct (decide (parent_pos i = pos)) as [E|E].
        * rewrite E, list_lookup_insert_eq in Hp by done. injection Hp as <-.
          by apply (Hsel i).
        * rewrite list_lookup_insert_ne in Hp by done. by apply (K1 i).
    - intros c y g _ Hc Ec Hy Hg.
      rewrite Epc, list_lookup_insert_eq in Hg by done. injection Hg as <-.
      assert (c <> pos) by (destruct (parent_pos_child c cp Hc Ec); lia).
      rewrite list_lookup_insert_ne in Hy by done.
      apply (K1 c); auto; [lia|]. by rewrite Ec. }
  cbn -[Nat.mul siftdown]. case_bool_decide as Hlt; [|apply Hleaf; lia].
  destruct (heap !! (2 * pos + 1)%nat) as [lc|] eqn:Hlc.
  2:{ apply lookup_ge_None in Hlc. lia. }
  unfold lt_at. rewrite Hlc.
  case_bool_decide as Hr; cbn [andb].
  - destruct (heap !! (2 * pos + 1 + 1)%nat) as [rc|] eqn:Hrc.
    2:{ apply lookup_ge_None in Hrc. lia. }
    destruct (PathNode_lt lc rc) eqn:Hsel; cbn [negb].
    + rewrite Hlc. apply Hcont; [lia|done|apply parent_pos_left|].
      intros i y Hi Ei Hy. destruct (parent_pos_child i pos Hi Ei) as [-> | ->].
      * rewrite Hlc in Hy. injection Hy as <-. apply PathNode_le_refl.
      * replace (2 * pos + 2)%nat with (2 * pos + 1 + 1)%nat in Hy by lia.
        rewrite Hrc in Hy. injection Hy as <-. by apply PathNode_lt_le.
    + rewrite Hrc. apply Hcont; [lia|done| |].
      { replace (2 * pos + 1 + 1)%nat with (2 * pos + 2)%nat by lia.
        apply parent_pos_right. }
      intros i y Hi Ei Hy. destruct (parent_pos_child i pos Hi Ei) as [-> | ->].
      * rewrite Hlc in Hy. by injection Hy as <-.
      * replace (2 * pos + 2)%nat with (2 * pos + 1 + 1)%nat in Hy by lia.
        rewrite Hrc in Hy. injection Hy as <-. apply PathNode_le_refl.
  - rewrite Hlc. apply Hcont; [lia|done|apply parent_pos_left|].
    intros i y Hi Ei Hy. destruct (parent_pos_child i pos Hi Ei) as [-> | ->].
    + rewrite Hlc in Hy. injection Hy as <-. apply PathNode_le_refl.
    + apply lookup_lt_Some in Hy. lia.
Qed.

Lemma heappush_ok heap x : heap_ok heap -> heap_ok (heappush heap x).
Proof.
  intros Hok. unfold heappush, siftdown.
  rewrite lookup_app_r, Nat.sub_diag by lia. cbn [lookup list_lookup].
  assert (forall c y, (0 < c)%nat -> parent_pos c = length heap ->
            (heap ++ [x]) !! c = Some y -> False) as Hnone.
  { intros c y Hc Ec Hy. apply lookup_lt_Some in Hy. rewrite length_app in Hy. cbn in Hy.
    destruct (parent_pos_child c _ Hc Ec); lia. }
  apply siftdown_loop_ok.
  - lia.
  - rewrite length_app. cbn. lia.
  - intros i y p Hi Hne Hy Hp.
    assert (i < length heap)%nat.
    { apply lookup_lt_Some in Hy. rewrite length_app in Hy. cbn in Hy. lia. }
    rewrite lookup_app_l in Hy by done.
    rewrite lookup_app_l in Hp by (pose proof (parent_pos_lt i Hi); lia).
    by apply (Hok i).
  - intros c y g _ Hc Ec Hy _. by destruct (Hnone c y).
  - intros c y Hc Ec Hy. by destruct (Hnone c y).
Qed.

Lemma heap_root_least heap r :
  heap_ok heap -> heap !! 0%nat = Some r ->
  forall y, y ∈ heap -> PathNode_le r y.
Proof.
  intros Hok Hr y [i Hi]%list_elem_of_lookup. revert y Hi.
  induction i as [i IH] using lt_wf_ind. intros y Hi.
  destruct (decide (i = 0%nat)) as [->|Hne].
  { rewrite Hr in Hi. injection Hi as <-. apply PathNode_le_refl. }
  assert (0 < i)%nat as Hpos by lia.
  pose proof (parent_pos_lt i Hpos) as Hlt.
  destruct (heap !! parent_pos i) as [p|] eqn:Hp.
  2:{ apply lookup_ge_None in Hp. apply lookup_lt_Some in Hi. lia. }
  eapply PathNode_le_trans; [apply (IH _ Hlt p Hp)|]. by apply (Hok i).
Qed.

Lemma heappop_ok heap x rest :
  heap_ok heap -> heappop heap = Some (x, rest) ->
  heap_ok rest /\ forall y, y ∈ rest -> PathNode_le x y.
Proof.
  intros Hok Hpop.
  pose proof (heappop_perm _ _ _ Hpop) as Hperm.
  unfold heappop in Hpop. destruct (last heap) as [lastelt|] eqn:El; [|done].
  apply last_Some in El as [l' ->]. rewrite removelast_last in Hpop.
  destruct l' as [|r l'']; injection Hpop as <- <-.
  { split; [|intros y Hy; by apply elem_of_nil in Hy].
    intros i y p _ Hy. by rewrite lookup_nil in Hy. }
  split.
  - unfold siftup. cbn [lookup list_lookup].
    apply siftup_loop_ok.
    + lia.
    + cbn. lia.
    + intros i y p Hi Hne Hy Hp.
      assert (0 < parent_pos i)%nat by (unfold parent_pos in *; lia).
      pose proof (lookup_lt_Some _ _ _ Hy) as Hil. cbn in Hil.
      apply (Hok i); [done| |].
      * destruct i as [|i]; [lia|]. cbn in Hy |- *. by apply lookup_app_l_Some.
      * destruct (parent_pos i) as [|j]; [lia|]. cbn in Hp |- *.
        by apply lookup_app_l_Some.
    + intros c y g Hlt. lia.
  - intros y Hy. apply (heap_root_least ((r :: l'') ++ [lastelt]) r); [done|done|].
    rewrite Hperm. by right.
Qed.
End HeapOrder.

(** ** One relaxation *)

Lemma bind_Ret {A B} (m : result A) (k : A -> result B) (b : B) :
(m ≫= k) = Ret b -> exists a, m = Ret a /\ k a = Ret b.
Proof. destruct m; cbn; intros H; try done. eauto. Qed.

Lemma get_edge_cost_inv self u v t c :
get_edge_cost self u v t = Ret c ->
(c = PInf /\ get_edge_distance (road_network self) u v = None) \/
(exists d w, get_edge_distance (road_network self) u v = Some d /\
             get_wait_time (traffic_predictor self) u v t = Ret w /\
             c = Fin (d + w * average_speed)).
Proof.
unfold get_edge_cost.
destruct (get_edge_distance _ u v) as [d|]; [|intros [= <-]; by left].
intros (w & Hw & [= <-])%bind_Ret. right. eauto.
Qed.

Section SearchFacts.
Context (pow_half : Q -> Q) (self : AStarPathfinder).
Lemma relax_inv goal current st v st' :
  relax pow_half self goal current st v = Ret st' ->
  ((st' = st /\
    (v ∈ closed_set st \/ get_edge_distance (road_network self) (node_id current) v = None)) \/
  ((v ∉ closed_set st) /\
   exists d w gcur,
     get_edge_distance (road_network self) (node_id current) v = Some d /\
     get_wait_time (traffic_predictor self) (node_id current) v (current_time st) = Ret w /\
     g_costs st !! node_id current = Some gcur /\
     closed_set st' = closed_set st /\
     current_time st' =
       (current_time st + (d + w * average_speed) / average_speed)%Q /\
     count_wait w (stats st) = Ret (stats st') /\
     ((open_list st' =
         heappush (open_list st)
           (mkPathNode v (gcur + (d + w * average_speed))
              (heuristic pow_half self v goal) (Some current)) /\
       g_costs st' = <[v := (gcur + (d + w * average_speed))%Q]> (g_costs st) /\
       parents st' = <[v := node_id current]> (parents st) /\
       (g_costs st !! v = None \/
        exists g, g_costs st !! v = Some g /\
                  (gcur + (d + w * average_speed) < g)%Q)) \/
      (open_list st' = open_list st /\
       g_costs st' = g_costs st /\
       parents st' = parents st /\
       exists g, g_costs st !! v = Some g /\
                 (g <= gcur + (d + w * average_speed))%Q)))).
Proof.
  unfold relax. case_bool_decide as Hcl.
  { intros [= <-]. left. auto. }
  intros (c & Hc & H)%bind_Ret.
  apply get_edge_cost_inv in Hc as [[-> Hd]|(d & w & Hd & Hw & ->)].
  { injection H as <-. left. auto. }
  right. split; [done|].
  apply bind_Ret in H as (w' & Hw' & H).
  rewrite Hw in Hw'. injection Hw' as <-.
  apply bind_Ret in H as (stats' & Hst & H).
  apply bind_Ret in H as (gcur & Hg & H).
  destruct (g_costs st !! node_id current) as [g0|] eqn:Hg0; [|done].
  injection Hg as ->.
  exists d, w, gcur. do 3 (split; [done|]).
  destruct (g_costs st !! v) as [gv|] eqn:Hgv.
  - destruct (Qltb _ gv) eqn:Hlt; injection H as <-; cbn.
    + apply Qltb_true in Hlt. do 3 (split; [done|]). left. eauto 10.
    + apply Qltb_false in Hlt. do 3 (split; [done|]). right. eauto 10.
  - injection H as <-; cbn. do 3 (split; [done|]). left. eauto 10.
Qed.

Lemma for_each_closed goal current nbrs st st' :
  for_each (relax pow_half self goal current) nbrs st = Ret st' ->
  closed_set st' = closed_set st.
Proof.
  revert st. induction nbrs as [|v nbrs IH]; intros st; cbn.
  { by intros [= <-]. }
  intros (st1 & H1 & H2)%bind_Ret. rewrite (IH _ H2).
  apply relax_inv in H1 as [[-> _]|(_ & d & w & g & _ & _ & _ & -> & _)]; done.
Qed.

(** *** The cost of a returned path *)

Lemma reconstruct_loop_chain fuel parents n acc l :
  reconstruct_loop fuel parents (Some n) acc = Ret l ->
  exists c, l = acc ++ c /\ chain parents n c.
Proof.
  revert n acc. induction fuel as [|fuel IH]; intros n acc; cbn; [done|].
  destruct (parents !! n) as [p|] eqn:Hp.
  - intros (c & -> & Hc)%IH. exists (n :: c). split.
    + by rewrite <- app_assoc.
    + by eapply chain_step.
  - destruct fuel; cbn; [done|]. intros [= <-]. exists [n]. split; [done|].
    by apply chain_root.
Qed.

Lemma chain_head parents n c : chain parents n c -> exists c', c = n :: c'.
Proof. destruct 1; eauto. Qed.

Lemma path_distance_snoc l p n s d :
  last l = Some p ->
  path_distance (road_network self) l = Some s ->
  get_edge_distance (road_network self) p n = Some d ->
  exists s', path_distance (road_network self) (l ++ [n]) = Some s' /\ (s' == s + d)%Q.
Proof.
  intros Hl Hs Hd. revert s Hl Hs.
  induction l as [|x l IH]; intros s Hl Hs; [done|].
  destruct l as [|y l].
  - cbn in Hl, Hs. injection Hl as ->. injection Hs as <-.
    cbn. rewrite Hd. eexists. split; [done|]. ring.
  - rewrite last_cons_cons in Hl.
    change (path_distance (road_network self) (x :: y :: l)) with
      (match get_edge_distance (road_network self) x y, path_distance (road_network self) (y :: l) with
       | Some d, Some s => Some (d + s)%Q
       | _, _ => None
       end) in Hs.
    destruct (get_edge_distance (road_network self) x y) as [d0|] eqn:Hd0; [|done].
    destruct (path_distance (road_network self) (y :: l)) as [s0|] eqn:Hs0; [|done].
    injection Hs as <-.
    destruct (IH s0 Hl eq_refl) as (s0' & Hs0' & E).
    change (path_distance (road_network self) ((x :: y :: l) ++ [n])) with
      (match get_edge_distance (road_network self) x y, path_distance (road_network self) ((y :: l) ++ [n]) with
       | Some d, Some s => Some (d + s)%Q
       | _, _ => None
       end).
    rewrite Hd0, Hs0'. eexists. split; [done|]. rewrite E. ring.
Qed.

Lemma chain_bound start st n c g :
  cost_inv self start st ->
  chain (parents st) n c ->
  g_costs st !! n = Some g ->
  exists d, path_distance (road_network self) (reverse c) = Some d /\ (d <= g)%Q.
Proof.
  intros (Hs & Hps & Hroot & Hpar & _) Hc. revert g.
  induction Hc as [n Hn|n p c Hp Hc IH]; intros g Hg.
  - assert (n = start) as -> by eauto. rewrite Hs in Hg. injection Hg as <-.
    exists 0%Q. split; [done|lra].
  - destruct (Hpar n p Hp) as (_ & gp & gn & d0 & Hgp & Hgn & Hd0 & Hle).
    rewrite Hg in Hgn. injection Hgn as <-.
    destruct (IH gp Hgp) as (d' & Hd' & Hle').
    destruct (chain_head _ _ _ Hc) as [c' ->].
    rewrite reverse_cons.
    destruct (path_distance_snoc (reverse (p :: c')) p n d' d0) as (s' & Hs' & E); auto.
    { rewrite reverse_cons. apply last_snoc. }
    exists s'. split; [done|]. lra.
Qed.

Lemma relax_cost_inv start goal current st v st' :
  wf_predictor (traffic_predictor self) ->
  start ∈ closed_set st ->
  node_id current ∈ closed_set st ->
  cost_inv self start st ->
  relax pow_half self goal current st v = Ret st' ->
  cost_inv self start st'.
Proof.
  intros Hwf Hstart Hcur (Hs & Hps & Hroot & Hpar & Hopen) H.
  apply relax_inv in H as [[-> _]|(Hv & d & w & gcur & Hd & Hw & Hgc & Hcl & _ & _ & H)].
  { done. }
  assert (0 <= w)%Q as Hw0.
  { destruct (get_wait_time_total (traffic_predictor self) (node_id current) v (current_time st) Hwf)
      as (w' & Hw' & ?).
    rewrite Hw in Hw'. by injection Hw' as <-. }
  assert (0 <= w * average_speed)%Q as Hws.
  { apply Qmult_le_0_compat; [done|]. unfold average_speed. lra. }
  assert (v <> start) as Hvs by (intros ->; done).
  assert (v <> node_id current) as Hvc by (intros ->; done).
  destruct H as [(Ho & Hg & Hp & Hbetter)|(Ho & Hg & Hp & _)]; unfold cost_inv;
    rewrite Ho, Hg, Hp, Hcl.
  - split; [by rewrite lookup_insert_ne|].
    split; [by rewrite lookup_insert_ne|].
    split; [|split].
    + intros n g. destruct (decide (n = v)) as [->|Hn].
      * rewrite !lookup_insert_eq. done.
      * rewrite !lookup_insert_ne by done. apply Hroot.
    + intros n p. destruct (decide (n = v)) as [->|Hn].
      * rewrite !lookup_insert_eq. intros [= <-]. split; [done|].
        exists gcur, (gcur + (d + w * average_speed))%Q, d.
        rewrite lookup_insert_ne by done. repeat split; try done. lra.
      * rewrite lookup_insert_ne by done. intros Hp'.
        destruct (Hpar n p Hp') as (Hpc & gp & gn & d0 & ? & ? & ? & ?).
        split; [done|]. exists gp, gn, d0.
        rewrite !lookup_insert_ne by (try done; intros ->; done). done.
    + intros x Hx. rewrite heappush_perm in Hx.
      apply elem_of_cons in Hx as [->|Hx]; cbn.
      * rewrite lookup_insert_eq. eexists. split; [done|lra].
      * destruct (Hopen x Hx) as (g & Hgx & Hle).
        destruct (decide (node_id x = v)) as [E|E].
        -- rewrite E, lookup_insert_eq. eexists. split; [done|].
           rewrite E in Hgx. destruct Hbetter as [Hn|(g' & Hg' & Hlt)]; [congruence|].
           rewrite Hgx in Hg'. injection Hg' as <-. lra.
        -- rewrite lookup_insert_ne by done. eauto.
  - done.
Qed.

Lemma for_each_cost_inv start goal current nbrs st st' :
  wf_predictor (traffic_predictor self) ->
  start ∈ closed_set st ->
  node_id current ∈ closed_set st ->
  cost_inv self start st ->
  for_each (relax pow_half self goal current) nbrs st = Ret st' ->
  cost_inv self start st'.
Proof.
  intros Hwf. revert st. induction nbrs as [|v nbrs IH]; intros st Hs Hc Hinv; cbn.
  { by intros [= <-]. }
  intros (st1 & H1 & H2)%bind_Ret.
  assert (closed_set st1 = closed_set st) as Hcl.
  { apply (for_each_closed goal current [v]). cbn. by rewrite H1. }
  eapply (IH st1); [by rewrite Hcl|by rewrite Hcl|by eapply relax_cost_inv|done].
Qed.

Lemma search_loop_cost start goal fuel0 fuel st path cost stats' :
  wf_predictor (traffic_predictor self) ->
  cost_inv self start st ->
  (start ∈ closed_set st \/ forall x, x ∈ open_list st -> node_id x = start) ->
  search_loop pow_half self fuel0 fuel goal st = Ret (path, cost, stats') ->
  path <> [] ->
  exists c d, cost = Fin c /\ path_distance (road_network self) path = Some d /\ (d <= c)%Q.
Proof.
  intros Hwf. revert st. induction fuel as [|fuel IH]; intros st Hinv Hst; cbn; [done|].
  destruct (open_list st) as [|x0 l0] eqn:Hol.
  { intros [= <- _ _]. done. }
  destruct (heappop (x0 :: l0)) as [[current rest]|] eqn:Hpop; [|done].
  apply heappop_perm in Hpop. rewrite <- Hol in Hpop.
  assert (current ∈ open_list st) as Hcur by (rewrite Hpop; left).
  assert (forall x, x ∈ rest -> x ∈ open_list st) as Hrest
    by (intros x Hx; rewrite Hpop; by right).
  destruct Hinv as (Hs & Hps & Hroot & Hpar & Hopen).
  case_bool_decide as Hgoal.
  - intros (p & Hp & [= <- <- <-])%bind_Ret Hne.
    unfold reconstruct in Hp.
    apply bind_Ret in Hp as (l & Hl & [= <-]).
    apply reconstruct_loop_chain in Hl as (c & -> & Hc).
    destruct (Hopen current Hcur) as (g & Hg & Hle). rewrite Hgoal in Hg.
    destruct (chain_bound start st goal c g) as (d & Hd & Hle'); [done..|].
    exists (g_cost current), d. split; [done|]. split; [done|lra].
  - case_bool_decide as Hclosed.
    + apply IH; cbn.
      * unfold cost_inv; cbn. split_and!; auto.
      * destruct Hst as [?|Hst]; [by left|]. right. intros x Hx.
        apply Hst. rewrite <- Hol. auto.
    + intros (s1 & Hs1 & H)%bind_Ret.
      apply bind_Ret in H as (nbrs & Hn & H).
      apply bind_Ret in H as (st1 & Hfe & H).
      assert (start ∈ ({[node_id current]} ∪ closed_set st : gset Z)) as Hsc.
      { destruct Hst as [?|Hst]; [by apply elem_of_union_r|].
        rewrite <- (Hst current) by (rewrite <- Hol; done).
        by apply elem_of_union_l, elem_of_singleton. }
      revert H. apply IH.
      * eapply for_each_cost_inv; [done| | |  |exact Hfe]; cbn;
          [done|by apply elem_of_union_l, elem_of_singleton|].
        unfold cost_inv; cbn. split_and!; auto.
        intros n p Hnp. destruct (Hpar n p Hnp) as [? ?].
        split; [by apply elem_of_union_r|done].
      * left. rewrite (for_each_closed _ _ _ _ _ Hfe). done.
Qed.

End SearchFacts.

(** ** Exhausting the frontier *)

Lemma dict_iadd_Ret key v d old :
d !! key = Some old -> dict_iadd key v d = Ret (<[key := py_add old v]> d).
Proof. unfold dict_iadd. by intros ->. Qed.

Lemma count_wait_total w s :
is_Some (s !! "traffic_lights_encountered"%string) ->
is_Some (s !! "total_wait_time"%string) ->
exists s', count_wait w s = Ret s' /\
           s' !! "nodes_explored"%string = s !! "nodes_explored"%string /\
           is_Some (s' !! "traffic_lights_encountered"%string) /\
           is_Some (s' !! "total_wait_time"%string).
Proof.
intros [a Ha] [b Hb]. unfold count_wait. destruct (Qltb 0 w).
- rewrite (dict_iadd_Ret _ _ _ _ Ha). cbn.
  rewrite (dict_iadd_Ret "total_wait_time" (PyFloat w) _ b).
  2:{ by rewrite lookup_insert_ne. }
  eexists. split; [done|]. split_and!.
  + by rewrite !lookup_insert_ne.
  + rewrite lookup_insert_ne by done. rewrite lookup_insert_eq. eauto.
  + rewrite lookup_insert_eq. eauto.
- exists s. eauto.
Qed.

Section Exhaust.
Context (pow_half : Q -> Q) (self : AStarPathfinder).
Context (start goal : Z) (R : gset Z).
Hypothesis Hwf : wf_predictor (traffic_predictor self).
Hypothesis HR : forall n, n ∈ R <-> reachable (road_network self) start n.
Hypothesis Hgoal : goal ∉ R.
Hypothesis Hnb : forall n, n ∈ R -> exists succs, get_neighbors (road_network self) n = Ret succs.

Lemma relax_total current st v :
  node_id current ∈ closed_set st ->
  exh_inv self start R (Some (node_id current)) st ->
  exists st', relax pow_half self goal current st v = Ret st'.
Proof.
  intros Hcur (_ & _ & _ & _ & _ & (_ & Hk1 & Hk2) & _ & Hcl).
  unfold relax. case_bool_decide; [eauto|].
  unfold get_edge_cost.
  destruct (get_edge_distance (road_network self) (node_id current) v) as [d|]; [|cbn; eauto].
  destruct (get_wait_time_total (traffic_predictor self) (node_id current) v (current_time st) Hwf)
    as (w & Hw & _).
  rewrite Hw. cbn.
  destruct (count_wait_total w (stats st) Hk1 Hk2) as (s' & Hs' & _).
  unfold count_wait in Hs'. rewrite Hs'. cbn.
  destruct (Hcl _ Hcur) as [g ->]. cbn.
  destruct (match g_costs st !! v with Some g0 => _ | None => true end); eauto.
Qed.

Lemma relax_exh current st v :
  node_id current ∈ closed_set st ->
  exh_inv self start R (Some (node_id current)) st ->
  (is_Some (get_edge_distance (road_network self) (node_id current) v) -> v ∈ R) ->
  exists st', relax pow_half self goal current st v = Ret st' /\
    exh_inv self start R (Some (node_id current)) st' /\
    closed_set st' = closed_set st /\
    (length (open_list st') <= S (length (open_list st)))%nat /\
    (forall n, is_Some (g_costs st !! n) -> is_Some (g_costs st' !! n)) /\
    (is_Some (get_edge_distance (road_network self) (node_id current) v) ->
     is_Some (g_costs st' !! v)).
Proof.
  intros Hcur Hinv HvR.
  destruct (relax_total current st v Hcur Hinv) as [st' Hst'].
  exists st'. split; [done|].
  destruct Hinv as (Ha & Hb & Hc & Hd & He & (Hf & Hk1 & Hk2) & Hg & Hh).
  apply relax_inv in Hst'
    as [[-> Hcase]|(Hv & d & w & gcur & Hd' & Hw & Hgc & Hcl & _ & Hcw & H)].
  { split; [by unfold exh_inv|]. split; [done|]. split; [lia|]. split; [done|].
    intros Hsome. destruct Hcase as [?|Hn]; [by apply Hh|].
    rewrite Hn in Hsome. by destruct Hsome. }
  destruct (count_wait_total w (stats st) Hk1 Hk2) as (s' & Hs' & Hn' & Hk1' & Hk2').
  rewrite Hcw in Hs'. injection Hs' as <-.
  assert (v ∈ R) as HvinR by (apply HvR; rewrite Hd'; eauto).
  destruct H as [(Ho & Hg' & Hp & _)|(Ho & Hg' & Hp & (g & Hgv & _))].
  - assert (forall n, is_Some (g_costs st !! n) -> is_Some (g_costs st' !! n)) as Hmono.
    { intros n Hn. rewrite Hg'. apply lookup_insert_is_Some'. by right. }
    assert (forall x, x ∈ open_list st' <->
              x = mkPathNode v (gcur + (d + w * average_speed))
                    (heuristic pow_half self v goal) (Some current)
              \/ x ∈ open_list st) as Hmem.
    { intros x. rewrite Ho, heappush_perm. apply elem_of_cons. }
    split; [|split; [done|split; [|split; [done|]]]].
    + unfold exh_inv. rewrite Hcl. split_and!.
      * done.
      * intros x [->|Hx]%Hmem; cbn; auto.
      * intros n. rewrite Hg'. destruct (decide (n = v)) as [->|Hne].
        -- intros _. right. eexists. split; [apply Hmem; left; done|done].
        -- rewrite lookup_insert_ne by done. intros [?|(x & Hx & ?)]%Hc; [by left|].
           right. exists x. split; [apply Hmem; by right|done].
      * by apply Hmono.
      * intros u' v' Hu' Hne' Hedge. apply Hmono. by apply (He u' v').
      * by rewrite Hn'.
      * done.
      * done.
      * intros x [->|Hx]%Hmem; cbn; [rewrite Hg', lookup_insert_eq; eauto|auto].
      * auto.
    + rewrite Ho. assert (length (heappush (open_list st)
          (mkPathNode v (gcur + (d + w * average_speed))
             (heuristic pow_half self v goal) (Some current)))
        = S (length (open_list st))) as ->; [|lia].
      by rewrite heappush_perm.
    + intros _. rewrite Hg', lookup_insert_eq. eauto.
  - split; [|split; [done|split; [rewrite Ho; lia|split; [by rewrite Hg'|]]]].
    + unfold exh_inv. rewrite Hcl, Ho, Hg', Hn'. split_and!; auto.
    + intros _. rewrite Hg', Hgv. eauto.
Qed.

Lemma for_each_exh current nbrs st :
  node_id current ∈ closed_set st ->
  exh_inv self start R (Some (node_id current)) st ->
  (forall v, v ∈ nbrs -> is_Some (get_edge_distance (road_network self) (node_id current) v) -> v ∈ R) ->
  exists st', for_each (relax pow_half self goal current) nbrs st = Ret st' /\
    exh_inv self start R (Some (node_id current)) st' /\
    closed_set st' = closed_set st /\
    (length (open_list st') <= length (open_list st) + length nbrs)%nat /\
    (forall n, is_Some (g_costs st !! n) -> is_Some (g_costs st' !! n)) /\
    (forall v, v ∈ nbrs -> is_Some (get_edge_distance (road_network self) (node_id current) v) ->
       is_Some (g_costs st' !! v)).
Proof.
  revert st. induction nbrs as [|v nbrs IH]; intros st Hcur Hinv HR'.
  { exists st. cbn. split_and!; auto; [lia|]. intros v Hv. by apply elem_of_nil in Hv. }
  destruct (relax_exh current st v Hcur Hinv) as (st1 & H1 & Hinv1 & Hcl1 & Hlen1 & Hm1 & Hv1).
  { apply HR'. left. }
  destruct (IH st1) as (st' & H2 & Hinv2 & Hcl2 & Hlen2 & Hm2 & Hv2).
  { by rewrite Hcl1. } { done. } { intros v' Hv'. apply HR'. by right. }
  exists st'. cbn. rewrite H1. cbn. split; [done|]. split; [done|].
  split; [congruence|]. split; [cbn; lia|]. split; [auto|].
  intros v' [->|Hv']%elem_of_cons Hsome; auto.
Qed.

Lemma measure_close (closed : gset Z) (u : Z) :
  u ∈ R -> u ∉ closed ->
  sum_list_with (out_degree (road_network self)) (elements (R ∖ closed))
  = (out_degree (road_network self) u
     + sum_list_with (out_degree (road_network self)) (elements (R ∖ ({[u]} ∪ closed))))%nat.
Proof.
  intros HuR Hu.
  assert (R ∖ closed = {[u]} ∪ (R ∖ ({[u]} ∪ closed))) as ->.
  { apply set_eq. intros x. rewrite !elem_of_union, !elem_of_difference,
      !elem_of_union, !elem_of_singleton.
    destruct (decide (x = u)) as [->|Hx]; tauto. }
  rewrite elements_union_singleton; [done|].
  rewrite elem_of_difference, elem_of_union, elem_of_singleton. tauto.
Qed.

Lemma closed_is_R st :
  exh_inv self start R None st -> open_list st = [] -> closed_set st = R.
Proof.
  intros (Ha & _ & Hc & Hd & He & _) Hopen.
  assert (forall n, is_Some (g_costs st !! n) -> n ∈ closed_set st) as Hdom.
  { intros n [?|(x & Hx & _)]%Hc; [done|]. rewrite Hopen in Hx.
    by apply elem_of_nil in Hx. }
  apply set_eq. intros n. split; [apply Ha|].
  intros Hn%HR. unfold reachable in Hn.
  assert (forall u, rtc (edge (road_network self)) u n -> u ∈ closed_set st -> n ∈ closed_set st) as Hgen.
  { clear Hn. intros u Hrtc. induction Hrtc as [u|u v n Huv _ IH]; intros Hu; [done|].
    apply IH, Hdom. by apply (He u v). }
  apply (Hgen start); auto.
Qed.

Lemma search_loop_exhaust fuel0 fuel st :
  exh_inv self start R None st ->
  (measure self R st < fuel)%nat ->
  exists stats',
    search_loop pow_half self fuel0 fuel goal st = Ret ([], PInf, stats') /\
    stats' !! "nodes_explored"%string = Some (PyInt (Z.of_nat (size R))).
Proof.
  revert st. induction fuel as [|fuel IH]; intros st Hinv Hfuel; [lia|].
  cbn. destruct (open_list st) as [|x0 l0] eqn:Hol.
  { exists (stats st). split; [done|].
    rewrite <- (closed_is_R st Hinv Hol). apply Hinv. }
  destruct (heappop_is_Some (x0 :: l0)) as [[current rest] Hpop]; [done|].
  rewrite Hpop. apply heappop_perm in Hpop. rewrite <- Hol in Hpop.
  assert (current ∈ open_list st) as Hcur by (rewrite Hpop; left).
  assert (forall x, x ∈ rest -> x ∈ open_list st) as Hrest
    by (intros x Hx; rewrite Hpop; by right).
  assert (length (open_list st) = S (length rest)) as Hlen by (by rewrite Hpop).
  destruct Hinv as (Ha & Hb & Hc & Hd & He & (Hf & Hk1 & Hk2) & Hg & Hh).
  assert (node_id current ∈ R) as HcR by auto.
  rewrite bool_decide_false by (intros E; rewrite E in HcR; done).
  unfold measure in Hfuel.
  case_bool_decide as Hcl.
  - apply IH.
    + unfold exh_inv; cbn. split_and!; auto.
      intros n [?|(x & Hx & Hn)]%Hc; [by left|].
      rewrite Hpop in Hx. apply elem_of_cons in Hx as [->|Hx]; [left; by rewrite <- Hn|].
      right. eauto.
    + unfold measure; cbn. lia.
  - rewrite (dict_iadd_Ret _ _ _ _ Hf). cbn.
    destruct (Hnb _ HcR) as [nbrs Hnbrs]. rewrite Hnbrs. cbn.
    set (st0 := {| open_list := rest |}).
    destruct (for_each_exh current nbrs st0)
      as (st' & Hfe & Hinv' & Hcl' & Hlen' & Hmono & Hnew).
    { cbn. apply elem_of_union_l, elem_of_singleton. done. }
    { unfold exh_inv; cbn. split_and!; auto.
      - intros n [->%elem_of_singleton|Hn]%elem_of_union; auto.
      - intros n [?|(x & Hx & Hn)]%Hc; [left; by apply elem_of_union_r|].
        rewrite Hpop in Hx. apply elem_of_cons in Hx as [->|Hx].
        + left. apply elem_of_union_l, elem_of_singleton. done.
        + right. eauto.
      - intros u v [->%elem_of_singleton|Hu]%elem_of_union Hne; [done|].
        by apply He.
      - rewrite lookup_insert_eq. cbn. do 2 f_equal.
        rewrite size_union by (apply disjoint_singleton_l; done).
        rewrite size_singleton. lia.
      - by rewrite lookup_insert_ne.
      - by rewrite lookup_insert_ne.
      - intros n [->%elem_of_singleton|Hn]%elem_of_union; auto. }
    { intros v Hv Hsome. apply HR. eapply rtc_r; [by apply HR|].
      exists nbrs. done. }
    rewrite Hfe. cbn. apply IH.
    + destruct Hinv' as (Ha' & Hb' & Hc' & Hd' & He' & (Hf' & Hk1' & Hk2') & Hg' & Hh').
      unfold exh_inv. split_and!; auto.
      intros u v Hu _ Huv. destruct (decide (u = node_id current)) as [->|Hne].
      * destruct Huv as (succs & Hs & Hv & Hsome).
        rewrite Hnbrs in Hs. injection Hs as <-. by apply Hnew.
      * apply (He' u v); [done|congruence|done].
    + unfold measure. rewrite Hcl'. cbn.
      rewrite (measure_close (closed_set st) (node_id current)) in Hfuel by done.
      unfold out_degree in Hfuel at 1. rewrite Hnbrs in Hfuel.
      cbn in Hlen'. lia.
Qed.
End Exhaust.

(** ** The simulated clock *)

Section Clock.
Context (pow_half : Q -> Q) (self : AStarPathfinder).
Lemma relax_log_eq goal current st log v :
  relax_log pow_half self goal current (st, log) v
  = match relax pow_half self goal current st v with
    | Ret st' =>
        Ret (st',
             if bool_decide (v ∈ closed_set st) then log
             else match get_edge_cost self (node_id current) v (current_time st) with
                  | Ret (Fin edge_cost) =>
                      log ++ [(node_id current, v, current_time st, edge_cost)]
                  | _ => log
                  end)
    | Raise e => Raise e
    | OutOfFuel => OutOfFuel
    end.
Proof.
  unfold relax_log, relax. case_bool_decide; [done|].
  destruct (get_edge_cost self (node_id current) v (current_time st)) as [[ec|]| |];
    cbn; [|done..].
  destruct (get_wait_time _ _ _ _) as [w| |]; cbn; [|done..].
  destruct (if Qltb 0 w then _ else _) as [s1| |]; cbn; [|done..].
  destruct (g_costs st !! node_id current) as [g|]; cbn; [|done].
  by destruct (match g_costs st !! v with Some _ => _ | None => _ end).
Qed.

Lemma for_each_relax_log_erase goal current nbrs st log :
  erase (for_each (relax_log pow_half self goal current) nbrs (st, log))
  = for_each (relax pow_half self goal current) nbrs st.
Proof.
  revert st log. induction nbrs as [|v nbrs IH]; intros st log; [done|].
  cbn [for_each]. rewrite relax_log_eq.
  destruct (relax pow_half self goal current st v) as [st1| |]; [|done..].
  apply IH.
Qed.

Lemma search_loop_log_erase fuel0 fuel goal st log :
  erase (search_loop_log pow_half self fuel0 fuel goal st log)
  = search_loop pow_half self fuel0 fuel goal st.
Proof.
  revert st log. induction fuel as [|fuel IH]; intros st log; [done|].
  cbn. destruct (open_list st) as [|x0 l0]; [done|].
  destruct (heappop (x0 :: l0)) as [[current rest]|]; [|done].
  case_bool_decide.
  { destruct (reconstruct fuel0 (parents st) goal); done. }
  case_bool_decide; [apply IH|].
  destruct (dict_iadd _ _ _) as [s1| |]; cbn; [|done..].
  destruct (get_neighbors (road_network self) (node_id current)) as [nbrs| |]; cbn; [|done..].
  rewrite <- (for_each_relax_log_erase goal current nbrs _ log).
  destruct (for_each (relax_log _ _ _ _) _ _) as [[st1 log1]| |]; cbn; [|done..].
  apply IH.
Qed.

Lemma find_path_log_erase fuel start goal t :
  erase (find_path_log pow_half self fuel start goal t)
  = find_path pow_half self fuel start goal t.
Proof.
  unfold find_path_log, find_path. case_bool_decide; [done|].
  destruct (_ || _); [done|]. apply search_loop_log_erase.
Qed.

(** What one logged relaxation does: nothing, or it prices the edge at
    the clock of the state, logs that price, moves the clock on by it,
    and offers the neighbour the cost of [current] plus that price. *)
Lemma relax_log_inv goal current st log v st' log' :
  relax_log pow_half self goal current (st, log) v = Ret (st', log') ->
  (st' = st /\ log' = log) \/
  ((v ∉ closed_set st) /\
   exists d w gcur c,
     get_edge_distance (road_network self) (node_id current) v = Some d /\
     get_wait_time (traffic_predictor self) (node_id current) v (current_time st) = Ret w /\
     c = (d + w * average_speed)%Q /\
     g_costs st !! node_id current = Some gcur /\
     log' = log ++ [(node_id current, v, current_time st, c)] /\
     closed_set st' = closed_set st /\
     current_time st' = (current_time st + c / average_speed)%Q /\
     ((open_list st' =
         heappush (open_list st)
           (mkPathNode v (gcur + c) (heuristic pow_half self v goal) (Some current)) /\
       g_costs st' = <[v := (gcur + c)%Q]> (g_costs st) /\
       parents st' = <[v := node_id current]> (parents st) /\
       (g_costs st !! v = None \/
        exists g, g_costs st !! v = Some g /\ (gcur + c < g)%Q)) \/
      (open_list st' = open_list st /\
       g_costs st' = g_costs st /\
       parents st' = parents st))).
Proof.
  unfold relax_log. case_bool_decide as Hcl.
  { intros [= <- <-]. by left. }
  intros (ec & Hc & H)%bind_Ret.
  apply get_edge_cost_inv in Hc as [[-> Hd]|(d & w & Hd & Hw & ->)].
  { injection H as <- <-. by left. }
  right. split; [done|].
  apply bind_Ret in H as (w' & Hw' & H).
  rewrite Hw in Hw'. injection Hw' as <-.
  apply bind_Ret in H as (stats' & Hst & H).
  apply bind_Ret in H as (gcur & Hg & H).
  destruct (g_costs st !! node_id current) as [g0|] eqn:Hg0; [|done].
  injection Hg as ->.
  exists d, w, gcur, (d + w * average_speed)%Q. do 4 (split; [done|]).
  destruct (g_costs st !! v) as [gv|] eqn:Hgv.
  - destruct (Qltb _ gv) eqn:Hlt; injection H as <- <-; cbn.
    + apply Qltb_true in Hlt. do 3 (split; [done|]). left. eauto 10.
    + do 3 (split; [done|]). right. eauto.
  - injection H as <- <-; cbn. do 3 (split; [done|]). left. eauto 10.
Qed.

Lemma clock_chain_app t l1 l2 :
  clock_chain self t l1 ->
  clock_chain self (chain_end t l1) l2 ->
  clock_chain self t (l1 ++ l2).
Proof.
  revert t. induction l1 as [|[[[u v] tq] ec] l1 IH]; intros t; cbn; [done|].
  intros (-> & Hp & H1) H2. split_and!; auto.
Qed.

Lemma chain_end_app t l1 l2 :
  chain_end t (l1 ++ l2) = chain_end (chain_end t l1) l2.
Proof.
  revert t. induction l1 as [|[[[u v] tq] ec] l1 IH]; intros t; cbn; [done|].
  apply IH.
Qed.

Lemma relax_log_on_clock t0 goal current st log v st' log' :
  on_clock self t0 st log ->
  relax_log pow_half self goal current (st, log) v = Ret (st', log') ->
  on_clock self t0 st' log'.
Proof.
  intros [Hch Hend] H.
  apply relax_log_inv in H
    as [[-> ->]|(Hv & d & w & gcur & c & Hd & Hw & -> & _ & -> & _ & Ht & _)].
  { done. }
  split.
  - apply clock_chain_app; [done|]. cbn. rewrite Hend. split_and!; eauto.
  - rewrite chain_end_app. cbn. by rewrite Hend, Ht.
Qed.

Lemma for_each_on_clock t0 goal current nbrs st log st' log' :
  on_clock self t0 st log ->
  for_each (relax_log pow_half self goal current) nbrs (st, log) = Ret (st', log') ->
  on_clock self t0 st' log'.
Proof.
  revert st log. induction nbrs as [|v nbrs IH]; intros st log Hon; cbn.
  { by intros [= <- <-]. }
  intros ([st1 log1] & H1 & H2)%bind_Ret.
  eapply IH; [|exact H2]. by eapply relax_log_on_clock.
Qed.

Lemma for_each_log_closed goal current nbrs st log st' log' :
  for_each (relax_log pow_half self goal current) nbrs (st, log) = Ret (st', log') ->
  closed_set st' = closed_set st.
Proof.
  revert st log. induction nbrs as [|v nbrs IH]; intros st log; cbn.
  { by intros [= <- <-]. }
  intros ([st1 log1] & H1 & H2)%bind_Ret. rewrite (IH _ _ H2).
  apply relax_log_inv in H1
    as [[-> _]|(_ & d & w & g & c & _ & _ & _ & _ & _ & -> & _)]; done.
Qed.

(** *** The logged prices are the prices of the search *)

Lemma chain_priced start goal st log n c g :
  ledger_inv pow_half self start goal st log ->
  chain (parents st) n c ->
  g_costs st !! n = Some g ->
  exists s, priced_route log (reverse c) s /\ (g == s)%Q.
Proof.
  intros (Hs & Hps & Hroot & Hpar & _) Hc. revert g.
  induction Hc as [n Hn|n p c Hp Hc IH]; intros g Hg.
  - assert (n = start) as -> by eauto. rewrite Hs in Hg. injection Hg as <-.
    exists 0%Q. split; [apply priced_start|reflexivity].
  - destruct (Hpar n p Hp) as (_ & t & ec & gp & Hin & Hgp & Hgn).
    rewrite Hg in Hgn. injection Hgn as ->.
    destruct (IH gp Hgp) as (s & Hs' & E).
    destruct (chain_head _ _ _ Hc) as [c' ->].
    rewrite reverse_cons. exists (s + ec)%Q. split.
    + eapply priced_step; [|exact Hs'|exact Hin].
      rewrite reverse_cons. apply last_snoc.
    + by rewrite E.
Qed.

Lemma relax_log_ledger start goal current st log v st' log' :
  start ∈ closed_set st ->
  node_id current ∈ closed_set st ->
  ledger_inv pow_half self start goal st log ->
  relax_log pow_half self goal current (st, log) v = Ret (st', log') ->
  ledger_inv pow_half self start goal st' log'.
Proof.
  intros Hstart Hcur (Hs & Hps & Hroot & Hpar & Hopen & Hheap & Hh & Hfront & Hgoal) H.
  apply relax_log_inv in H
    as [[-> ->]|(Hv & d & w & gcur & c & Hd & Hw & Hc & Hgc & -> & Hcl & _ & H)].
  { by split_and!. }
  assert (v <> start) as Hvs by (intros ->; done).
  assert (v <> node_id current) as Hvc by (intros ->; done).
  assert (forall n p, parents st !! n = Some p ->
            p ∈ closed_set st /\
            exists t c0 gp,
              (p, n, t, c0) ∈ log ++ [(node_id current, v, current_time st, c)] /\
              g_costs st !! p = Some gp /\ g_costs st !! n = Some (gp + c0)%Q) as Hpar'.
  { intros n p Hnp. destruct (Hpar n p Hnp) as (? & t & c0 & gp & ? & ? & ?).
    split; [done|]. exists t, c0, gp. split_and!; try done.
    apply elem_of_app. by left. }
  destruct H as [(Ho & Hg & Hp & Hbetter)|(Ho & Hg & Hp)]; unfold ledger_inv;
    rewrite Ho, Hg, Hp, Hcl.
  2:{ by split_and!. }
  split_and!.
  - by rewrite lookup_insert_ne.
  - by rewrite lookup_insert_ne.
  - intros n g. destruct (decide (n = v)) as [->|Hn].
    + rewrite !lookup_insert_eq. done.
    + rewrite !lookup_insert_ne by done. apply Hroot.
  - intros n p. destruct (decide (n = v)) as [->|Hn].
    + rewrite !lookup_insert_eq. intros [= <-]. split; [done|].
      exists (current_time st), c, gcur.
      rewrite lookup_insert_ne by done. split_and!; try done.
      apply elem_of_app. right. by apply list_elem_of_singleton.
    + rewrite lookup_insert_ne by done. intros Hp'.
      destruct (Hpar' n p Hp') as (Hpc & t & c0 & gp & ? & ? & ?).
      split; [done|]. exists t, c0, gp.
      rewrite !lookup_insert_ne by (try done; intros ->; done). done.
  - intros x Hx. rewrite heappush_perm in Hx.
    apply elem_of_cons in Hx as [->|Hx]; cbn.
    + rewrite lookup_insert_eq. eexists. split; [done|lra].
    + destruct (Hopen x Hx) as (g & Hgx & Hle).
      destruct (decide (node_id x = v)) as [E|E].
      * rewrite E, lookup_insert_eq. eexists. split; [done|].
        rewrite E in Hgx. destruct Hbetter as [Hn|(g' & Hg' & Hlt)]; [congruence|].
        rewrite Hgx in Hg'. injection Hg' as <-. lra.
      * rewrite lookup_insert_ne by done. eauto.
  - by apply heappush_ok.
  - intros x Hx. rewrite heappush_perm in Hx.
    apply elem_of_cons in Hx as [->|Hx]; [done|by apply Hh].
  - intros n g Hn. destruct (decide (n = v)) as [->|Hne].
    + rewrite lookup_insert_eq. intros [= <-].
      eexists. split; [rewrite heappush_perm; by left|done].
    + rewrite lookup_insert_ne by done. intros Hgn.
      destruct (Hfront n g Hn Hgn) as (x & Hx & ? & ?).
      exists x. split; [|done]. rewrite heappush_perm. by right.
  - done.
Qed.

Lemma for_each_ledger start goal current nbrs st log st' log' :
  start ∈ closed_set st ->
  node_id current ∈ closed_set st ->
  ledger_inv pow_half self start goal st log ->
  for_each (relax_log pow_half self goal current) nbrs (st, log) = Ret (st', log') ->
  ledger_inv pow_half self start goal st' log'.
Proof.
  revert st log. induction nbrs as [|v nbrs IH]; intros st log Hs Hc Hinv; cbn.
  { by intros [= <- <-]. }
  intros ([st1 log1] & H1 & H2)%bind_Ret.
  assert (closed_set st1 = closed_set st) as Hcl.
  { apply (for_each_log_closed goal current [v] st log st1 log1). cbn. by rewrite H1. }
  eapply (IH st1 log1); [by rewrite Hcl|by rewrite Hcl| |done].
  by eapply relax_log_ledger.
Qed.

(** The entry popped for the goal carries the best-known cost of the
    goal: the entries for the goal share one heuristic, and a finite
    one when the goal is a node. *)
Lemma goal_entry_ledger start goal st log current rest g :
  is_Some (get_node (road_network self) goal) ->
  ledger_inv pow_half self start goal st log ->
  heappop (open_list st) = Some (current, rest) ->
  node_id current = goal ->
  g_costs st !! goal = Some g ->
  (g_cost current == g)%Q.
Proof.
  intros [nd Hnd] (_ & _ & _ & _ & Hopen & Hheap & Hh & Hfront & Hgoal) Hpop Hcur Hg.
  destruct (heappop_ok _ _ _ Hheap Hpop) as [_ Hleast].
  apply heappop_perm in Hpop.
  assert (g <= g_cost current)%Q as Hlo.
  { destruct (Hopen current) as (g' & Hg' & Hle); [rewrite Hpop; by left|].
    rewrite Hcur, Hg in Hg'. by injection Hg' as <-. }
  destruct (Hfront goal g Hgoal Hg) as (y & Hy & Hny & Hgy).
  rewrite Hpop in Hy. apply elem_of_cons in Hy as [->|Hy]; [by rewrite <- Hgy|].
  specialize (Hleast y Hy). unfold PathNode_le, PathNode_lt, f_cost in Hleast.
  rewrite (Hh y), (Hh current), Hny, Hcur in Hleast
    by (rewrite Hpop; first [by left|by right]).
  unfold heuristic in Hleast. rewrite Hnd in Hleast. cbn in Hleast.
  destruct (Qlt_le_dec _ _) as [|Hle] in Hleast; [done|].
  rewrite Hgy in Hle. set (h := pow_half _) in Hle. lra.
Qed.

Lemma search_loop_log_ledger t0 start goal fuel0 fuel st log path cost stats' log' :
  is_Some (get_node (road_network self) goal) ->
  on_clock self t0 st log ->
  ledger_inv pow_half self start goal st log ->
  (start ∈ closed_set st \/ forall x, x ∈ open_list st -> node_id x = start) ->
  search_loop_log pow_half self fuel0 fuel goal st log = Ret (path, cost, stats', log') ->
  clock_chain self t0 log' /\
  (path <> [] ->
   exists c s, cost = Fin c /\ priced_route log' path s /\ (c == s)%Q).
Proof.
  intros Hnode. revert st log.
  induction fuel as [|fuel IH]; intros st log Hon Hinv Hst; cbn; [done|].
  destruct (open_list st) as [|x0 l0] eqn:Hol.
  { intros [= <- _ _ <-]. split; [apply Hon|done]. }
  destruct (heappop (x0 :: l0)) as [[current rest]|] eqn:Hpop; [|done].
  rewrite <- Hol in Hpop.
  pose proof (heappop_perm _ _ _ Hpop) as Hperm.
  assert (current ∈ open_list st) as Hcur by (rewrite Hperm; left).
  assert (forall x, x ∈ rest -> x ∈ open_list st) as Hrest
    by (intros x Hx; rewrite Hperm; by right).
  case_bool_decide as Hgoal.
  - intros (p & Hp & [= <- <- <- <-])%bind_Ret. split; [apply Hon|]. intros _.
    unfold reconstruct in Hp.
    apply bind_Ret in Hp as (l & Hl & [= <-]).
    apply reconstruct_loop_chain in Hl as (c & -> & Hc).
    pose proof Hinv as (_ & _ & _ & _ & Hopen & _).
    destruct (Hopen current Hcur) as (g & Hg & _). rewrite Hgoal in Hg.
    pose proof (goal_entry_ledger start goal st log current rest g
                  Hnode Hinv Hpop Hgoal Hg) as Hge.
    destruct (chain_priced start goal st log goal c g Hinv Hc Hg) as (s & Hs & E).
    exists (g_cost current), s. split; [done|]. split; [done|].
    by rewrite Hge.
  - destruct Hinv as (Hs & Hps & Hroot & Hpar & Hopen & Hheap & Hh & Hfront & Hgoalc).
    destruct (heappop_ok _ _ _ Hheap Hpop) as [Hheap' _].
    case_bool_decide as Hclosed.
    + apply IH; cbn.
      * done.
      * unfold ledger_inv; cbn. split_and!; auto.
        intros n g Hn Hg. destruct (Hfront n g Hn Hg) as (x & Hx & Hnx & Hgx).
        exists x. split; [|done]. rewrite Hperm in Hx.
        apply elem_of_cons in Hx as [->|Hx]; [|done]. by rewrite Hnx in Hclosed.
      * destruct Hst as [?|Hst]; [by left|]. right. intros x Hx.
        apply Hst. rewrite <- Hol. auto.
    + intros (s1 & Hs1 & H)%bind_Ret.
      apply bind_Ret in H as (nbrs & Hn & H).
      apply bind_Ret in H as ([st1 log1] & Hfe & H).
      assert (start ∈ ({[node_id current]} ∪ closed_set st : gset Z)) as Hsc.
      { destruct Hst as [?|Hst]; [by apply elem_of_union_r|].
        rewrite <- (Hst current) by (rewrite <- Hol; done).
        by apply elem_of_union_l, elem_of_singleton. }
      pose proof (for_each_log_closed _ _ _ _ _ _ _ Hfe) as Hcl.
      revert H. cbn. apply IH.
      * eapply for_each_on_clock; [|exact Hfe]. done.
      * eapply for_each_ledger; [| | |exact Hfe]; cbn;
          [done|by apply elem_of_union_l, elem_of_singleton|].
        unfold ledger_inv; cbn. split_and!; auto.
        -- intros n p Hnp. destruct (Hpar n p Hnp) as [? ?].
           split; [by apply elem_of_union_r|done].
        -- intros n g Hnn Hg.
           assert (n <> node_id current) as Hnc
             by (intros ->; apply Hnn; by apply elem_of_union_l, elem_of_singleton).
           assert (n ∉ closed_set st) as Hn'
             by (intros ?; apply Hnn; by apply elem_of_union_r).
           destruct (Hfront n g Hn' Hg) as (x & Hx & Hnx & Hgx).
           exists x. split; [|done]. rewrite Hperm in Hx.
           apply elem_of_cons in Hx as [->|Hx]; [|done]. done.
        -- intros [E%elem_of_singleton|E]%elem_of_union; [|done].
           by rewrite E in Hgoal.
      * left. rewrite Hcl. done.
Qed.

Lemma initial_ledger start goal t :
  ledger_inv pow_half self start goal (initial_search pow_half self start goal t) [].
Proof.
  unfold ledger_inv, initial_search; cbn. split_and!.
  - by rewrite lookup_singleton_eq.
  - done.
  - intros n g [-> _]%lookup_singleton_Some. done.
  - intros n p. by rewrite lookup_empty.
  - intros x ->%list_elem_of_singleton.
    cbn. rewrite lookup_singleton_eq. eexists. split; [done|lra].
  - intros i x p Hi Hx. destruct i; [lia|done].
  - by intros x ->%list_elem_of_singleton.
  - intros n g _ [-> <-]%lookup_singleton_Some.
    eexists. split; [by apply list_elem_of_singleton|done].
  - apply not_elem_of_empty.
Qed.

End Clock.

(** ** The sample data is well formed *)

Lemma red_light_wf : wf_light red_light.
Proof. unfold wf_light, red_light; cbn. split_and!; lra. Qed.

Lemma red_signal_wf : wf_predictor red_signal.
Proof.
  intros k tl H. cbn in H. apply lookup_singleton_Some in H as [_ <-].
  apply red_light_wf.
Qed.

Lemma fork_signal_wf : wf_predictor fork_signal.
Proof.
  intros k tl H. cbn in H. apply lookup_singleton_Some in H as [_ <-].
  apply red_light_wf.
Qed.

Lemma fork_edge_closed (u v : Z) :
  u ∈ ({[1; 2; 3]} : gset Z) -> edge fork u v -> v ∈ ({[1; 2; 3]} : gset Z).
Proof.
  intros Hu (succs & Hs & Hv & _).
  rewrite !elem_of_union, !elem_of_singleton in Hu.
  destruct Hu as [[-> | ->] | ->]; vm_compute in Hs; injection Hs as <-.
  - rewrite !elem_of_cons in Hv. rewrite !elem_of_union, !elem_of_singleton.
    destruct Hv as [-> | [-> | Hv]]; auto. by apply elem_of_nil in Hv.
  - by apply elem_of_nil in Hv.
  - by apply elem_of_nil in Hv.
Qed.

Lemma fork_reachable (n : Z) :
  n ∈ ({[1; 2; 3]} : gset Z) <-> reachable fork 1 n.
Proof.
  split.
  - rewrite !elem_of_union, !elem_of_singleton.
    intros [[-> | ->] | ->]; [apply rtc_refl| |]; apply rtc_once;
      exists [2; 3]; (split; [reflexivity|]); (split; [|by eexists]);
      rewrite !elem_of_cons; auto.
  - assert (forall u, rtc (edge fork) u n ->
              u ∈ ({[1; 2; 3]} : gset Z) -> n ∈ ({[1; 2; 3]} : gset Z)) as Hgen.
    { intros u Hrtc. induction Hrtc as [u|u v n Huv _ IH]; [done|].
      intros Hu. by apply IH, (fork_edge_closed u). }
    intros Hn. apply (Hgen 1 Hn).
    rewrite !elem_of_union, !elem_of_singleton. auto.
Qed.

(** ** The two scenarios of the two-node network *)

Example two_nodes_no_signal :
  summary (find_path sqrt_approx plain_finder 10 1 2 0)
  = Ret ([1; 2], Fin 1000,
         [("nodes_explored"%string, PyInt 1);
          ("total_wait_time"%string, PyFloat 0);
          ("traffic_lights_encountered"%string, PyInt 0)]).
Proof. vm_compute. reflexivity. Qed.

(** 1000 + 60 * 13.89 = 1833.4 *)
Example two_nodes_red_signal :
  summary_wait (get_wait_time red_signal 1 2 0) = Ret 60%Q /\
  summary (find_path sqrt_approx red_finder 10 1 2 0)
  = Ret ([1; 2], Fin (9167 # 5),
         [("nodes_explored"%string, PyInt 1);
          ("total_wait_time"%string, PyFloat 60);
          ("traffic_lights_encountered"%string, PyInt 1)]).
Proof. split; vm_compute; reflexivity. Qed.

(** With no road back, 1 is unreachable from 2. *)
Example two_nodes_backwards :
  summary (find_path sqrt_approx plain_finder 10 2 1 0)
  = Ret ([], PInf,
         [("nodes_explored"%string, PyInt 1);
          ("total_wait_time"%string, PyFloat 0);
          ("traffic_lights_encountered"%string, PyInt 0)]).
Proof. vm_compute. reflexivity. Qed.

(** ** Binary64 rounding *)

Section Rounding.
Import Binary64.

Lemma inject_Z_sub (a b : Z) : (inject_Z (a - b) == inject_Z a - inject_Z b)%Q.
Proof. unfold Z.sub. rewrite inject_Z_plus, inject_Z_opp. ring. Qed.

Lemma pow2_pos (e : Z) : (0 < pow2 e)%Q.
Proof. apply Qpower_0_lt. reflexivity. Qed.

Lemma pow2_add (a b : Z) : (pow2 (a + b) == pow2 a * pow2 b)%Q.
Proof. apply Qpower_plus. discriminate. Qed.

Lemma pow2_le (a b : Z) : a <= b -> (pow2 a <= pow2 b)%Q.
Proof. intros H. apply Qpower_le_compat_l; [done|]. discriminate. Qed.

Lemma pow2_lt_inv (a b : Z) : (pow2 a < pow2 b)%Q -> a < b.
Proof. intros H. eapply Qpower_lt_compat_l_inv; [exact H|]. reflexivity. Qed.

Lemma pow2_Z (n : Z) : 0 <= n -> (pow2 n == inject_Z (2 ^ n))%Q.
Proof. intros H. unfold pow2. by rewrite Zpower_Qpower. Qed.

(** A multiple of [2 ^ j] is a whole multiple of any finer unit. *)
Lemma grid_div (m j e : Z) :
  e <= j -> (inject_Z m * pow2 j / pow2 e == inject_Z (m * 2 ^ (j - e)))%Q.
Proof.
  intros H. rewrite inject_Z_mult, <- pow2_Z by lia.
  replace j with ((j - e) + e) at 1 by lia. rewrite pow2_add.
  pose proof (pow2_pos e). field. lra.
Qed.

Lemma ilog2_le (q : Q) : (0 < q)%Q -> (pow2 (ilog2 q) <= q)%Q.
Proof.
  intros Hq. unfold ilog2.
  set (a := Z.log2 (Qnum q)). set (b := Z.log2 (Z.pos (Qden q))).
  destruct (Qle_bool (pow2 (a - b)) q) eqn:E; [by apply Qle_bool_iff|].
  assert (0 < Qnum q) as Hn by (destruct q as [n d]; unfold Qlt in Hq; cbn in *; lia).
  destruct (Z.log2_spec (Qnum q) Hn) as [Ha _]. fold a in Ha.
  destruct (Z.log2_spec (Z.pos (Qden q)) ltac:(lia)) as [_ Hb]. fold b in Hb.
  assert (0 <= a) by apply Z.log2_nonneg. assert (0 <= b) by apply Z.log2_nonneg.
  rewrite Zle_Qle in Ha. rewrite Zlt_Qlt in Hb.
  rewrite <- pow2_Z in Ha by lia.
  replace (Z.succ b) with (b + 1) in Hb by lia. rewrite <- pow2_Z in Hb by lia.
  replace (a - b - 1) with (a + - (b + 1)) by lia.
  rewrite pow2_add. unfold pow2 at 2. rewrite Qpower_opp. fold (pow2 (b + 1)).
  pose proof (pow2_pos a). pose proof (pow2_pos (b + 1)).
  clearbody a b. clear E Hq.
  destruct q as [n d]; cbn [Qnum Qden] in *.
  rewrite (Qmake_Qdiv n d).
  set (D := inject_Z (Z.pos d)) in *. set (N := inject_Z n) in *.
  set (A := pow2 a) in *. set (B := pow2 (b + 1)) in *.
  assert (0 < D)%Q as HD by (unfold D; rewrite <- (Zlt_Qlt 0); lia).
  apply Qle_shift_div_l; [done|].
  assert (A * / B * D == A * D / B)%Q as -> by (field; lra).
  apply Qle_shift_div_r; [done|]. nra.
Qed.

Lemma rne_comp (x y : Q) : (x == y)%Q -> rne x = rne y.
Proof.
  intros E. unfold rne. rewrite (Qfloor_comp _ _ E).
  assert ((x - inject_Z (Qfloor y) ?= 1 # 2) = (y - inject_Z (Qfloor y) ?= 1 # 2))%Q as ->
    by (by rewrite E).
  done.
Qed.

Lemma rne_Z (n : Z) : rne (inject_Z n) = n.
Proof.
  unfold rne. rewrite Qfloor_Z.
  destruct (Qcompare_spec (inject_Z n - inject_Z n) (1 # 2)) as [E|E|E];
    [exfalso; lra|done|exfalso; lra].
Qed.

Lemma rne_floor (x : Q) : Qfloor x <= rne x.
Proof. unfold rne. destruct (_ ?= _)%Q; [destruct (Z.even _)|..]; lia. Qed.

Lemma rne_ge_Z (x : Q) (n : Z) : (inject_Z n <= x)%Q -> n <= rne x.
Proof.
  intros H. apply Qfloor_resp_le in H. rewrite Qfloor_Z in H.
  pose proof (rne_floor x). lia.
Qed.

Lemma rne_le_Z (x : Q) (n : Z) : (x <= inject_Z n)%Q -> rne x <= n.
Proof.
  intros H. pose proof (Qfloor_le x) as Hf.
  assert (Qfloor x <= n) as Hfn.
  { apply Qfloor_resp_le in H. by rewrite Qfloor_Z in H. }
  destruct (decide (Qfloor x = n)) as [E|E].
  - (* then [x] is [n] and does not move *)
    rewrite (rne_comp x (inject_Z n)); [by rewrite rne_Z|].
    rewrite E in Hf. lra.
  - assert (Qfloor x + 1 <= n) by lia.
    unfold rne. destruct (_ ?= _)%Q; [destruct (Z.even _)|..]; lia.
Qed.

(** Rounding never crosses a binary64 number above. *)
Lemma round64_le (x hi : Q) :
  representable hi -> (0 <= x)%Q -> (x <= hi)%Q ->
  exists y, round64 x = Finite y /\ (0 <= y)%Q /\ (y <= hi)%Q.
Proof.
  intros (m & eh & Heh & Hm & Ehi & Hbig) H0 Hle. unfold round64.
  destruct (Qeq_bool x 0) eqn:Ez.
  { exists 0%Q. split; [done|]. lra. }
  apply Qeq_bool_neq in Ez. assert (0 < x)%Q as Hx by lra.
  pose proof (Qabs_pos x H0) as Eabs.
  set (e := Z.max (ilog2 (Qabs x) - 52) (-1074)).
  assert (e <= eh) as He.
  { assert (ilog2 (Qabs x) < 53 + eh); [|lia]. apply pow2_lt_inv.
    pose proof (ilog2_le (Qabs x) ltac:(lra)). pose proof (pow2_pos eh).
    assert (hi < pow2 53 * pow2 eh)%Q; [|rewrite pow2_add; lra].
    rewrite Ehi. apply Qmult_lt_compat_r; [done|].
    rewrite pow2_Z by lia. rewrite <- Zlt_Qlt. lia. }
  pose proof (pow2_pos e) as Hpe.
  assert (x / pow2 e <= inject_Z (m * 2 ^ (eh - e)))%Q as Hup.
  { rewrite <- grid_div by done. rewrite <- Ehi.
    apply Qle_shift_div_l; [done|].
    assert (x / pow2 e * pow2 e == x)%Q as -> by (field; lra). done. }
  assert (0 <= x / pow2 e)%Q as Hlo by (apply Qle_shift_div_l; [done|lra]).
  apply rne_le_Z in Hup. apply (rne_ge_Z _ 0) in Hlo.
  set (r := rne (x / pow2 e)) in *.
  assert (0 <= inject_Z r * pow2 e)%Q as Hy0.
  { apply Qmult_le_0_compat; [|lra]. by rewrite <- (Zle_Qle 0). }
  assert (inject_Z r * pow2 e <= hi)%Q as Hyhi.
  { rewrite Ehi.
    assert (inject_Z m * pow2 eh == inject_Z (m * 2 ^ (eh - e)) * pow2 e)%Q as ->
      by (rewrite <- grid_div by done; field; lra).
    apply Qmult_le_compat_r; [|lra]. by rewrite <- Zle_Qle. }
  assert (Qle_bool (pow2 1024) (Qabs (inject_Z r * pow2 e)) = false) as ->.
  { apply not_true_is_false. intros Hb%Qle_bool_iff.
    rewrite Qabs_pos in Hb by done.
    rewrite (Qabs_pos hi) in Hbig by lra. lra. }
  eexists. split; [done|]. rewrite Qred_correct. done.
Qed.

(** A binary64 number rounds to itself. *)
Lemma round64_exact (x : Q) :
  representable x -> exists y, round64 x = Finite y /\ (y == x)%Q.
Proof.
  intros (m & ex & Hex & Hm & Ex & Hbig). unfold round64.
  destruct (Qeq_bool x 0) eqn:Ez.
  { apply Qeq_bool_iff in Ez. exists 0%Q. split; [done|]. by rewrite Ez. }
  apply Qeq_bool_neq in Ez.
  assert (0 < Qabs x)%Q as Hx.
  { pose proof (Qabs_nonneg x). destruct (Qeq_dec (Qabs x) 0) as [E|E]; [|lra].
    exfalso. apply Ez.
    assert (Qabs x <= 0)%Q as Hc by lra. apply Qabs_Qle_condition in Hc. lra. }
  set (e := Z.max (ilog2 (Qabs x) - 52) (-1074)).
  assert (e <= ex) as He.
  { assert (ilog2 (Qabs x) < 53 + ex); [|lia]. apply pow2_lt_inv.
    pose proof (ilog2_le _ Hx). pose proof (pow2_pos ex).
    assert (Qabs x < pow2 53 * pow2 ex)%Q; [|rewrite pow2_add; lra].
    rewrite Ex, Qabs_Qmult, (Qabs_pos (pow2 ex)) by lra.
    apply Qmult_lt_compat_r; [done|].
    rewrite pow2_Z by lia.
    assert (Qabs (inject_Z m) == inject_Z (Z.abs m))%Q as -> by reflexivity.
    rewrite <- Zlt_Qlt. lia. }
  pose proof (pow2_pos e) as Hpe.
  assert (x / pow2 e == inject_Z (m * 2 ^ (ex - e)))%Q as Hint.
  { rewrite <- grid_div by done. by rewrite Ex. }
  rewrite (rne_comp _ _ Hint), rne_Z.
  assert (inject_Z (m * 2 ^ (ex - e)) * pow2 e == x)%Q as Ey.
  { rewrite <- Hint. field. lra. }
  assert (Qle_bool (pow2 1024) (Qabs (inject_Z (m * 2 ^ (ex - e)) * pow2 e)) = false) as ->.
  { apply not_true_is_false. intros Hb%Qle_bool_iff. rewrite Ey in Hb. lra. }
  eexists. split; [done|]. by rewrite Qred_correct.
Qed.
End Rounding.

(** [Binary64] rounds as the machine does, on sums and differences
    that are exact, inexact, ties, subnormal, overflowing or not
    numbers. *)
Example hardware_agrees : forallb Hardware.agree Hardware.samples = true.
Proof. vm_compute. reflexivity. Qed.

Section Modulo.
Import Binary64.

Lemma Qtrunc_rem (x c : Q) :
  (0 < c)%Q ->
  let r := (x - inject_Z (Qtrunc (x / c)) * c)%Q in
  (- c < r)%Q /\ (r < c)%Q.
Proof.
  intros Hc r. unfold r, Qtrunc.
  assert (forall k : Z, x - inject_Z k * c == (x / c - inject_Z k) * c)%Q as E
    by (intros k; field; lra).
  destruct (Qle_bool 0 (x / c)) eqn:Hs.
  - pose proof (Qfloor_le (x / c)). pose proof (Qlt_floor (x / c)) as Hlt.
    rewrite inject_Z_plus in Hlt. change (inject_Z 1) with 1%Q in Hlt.
    rewrite E. set (u := (x / c - inject_Z (Qfloor (x / c)))%Q).
    assert (0 <= u)%Q by (unfold u; lra). assert (u < 1)%Q by (unfold u; lra).
    split; nra.
  - pose proof (Qle_ceiling (x / c)). pose proof (Qceiling_lt (x / c)) as Hlt.
    replace (Qceiling (x / c) - 1) with (Qceiling (x / c) + -1) in Hlt by lia.
    rewrite inject_Z_plus in Hlt. change (inject_Z (-1)) with (-1)%Q in Hlt.
    rewrite E. set (u := (x / c - inject_Z (Qceiling (x / c)))%Q).
    assert (u <= 0)%Q by (unfold u; lra). assert (-1 < u)%Q by (unfold u; lra).
    split; nra.
Qed.

Lemma Qmod_unique (a c : Q) (k : Z) :
  (0 < c)%Q ->
  (0 <= a - inject_Z k * c)%Q -> (a - inject_Z k * c < c)%Q ->
  (Qmod a c == a - inject_Z k * c)%Q.
Proof.
  intros Hc H0 H1. unfold Qmod.
  assert (Qfloor (a / c) = k) as ->; [|reflexivity].
  apply Qfloor_unique.
  - apply Qle_shift_div_l; lra.
  - rewrite inject_Z_plus. change (inject_Z 1) with 1%Q.
    apply Qlt_shift_div_r; lra.
Qed.

(** The number that [%] returns for a positive binary64 divisor lies
    between 0 and the divisor, which it can reach. *)
Lemma py_mod_bounds (a : binary64) (c x : Q) :
  representable c -> (0 < c)%Q ->
  py_mod a (Finite c) = Ret (Finite x) ->
  (0 <= x)%Q /\ (x <= c)%Q.
Proof.
  intros Hrep Hc. unfold py_mod.
  destruct (Qeq_bool c 0) eqn:Ez; [done|].
  destruct a as [q| | |]; cbn [fmod]; [|done..]. rewrite Ez.
  destruct (Qtrunc_rem q c Hc) as [Hlo Hhi].
  rewrite <- (Qred_correct (q - inject_Z (Qtrunc (q / c)) * c)) in Hlo, Hhi.
  set (r := Qred (q - inject_Z (Qtrunc (q / c)) * c)%Q) in *.
  destruct (Qeq_bool r 0) eqn:Er.
  { intros [= <-]. lra. }
  cbn [fltb]. unfold Qltb.
  destruct (Qlt_le_dec c 0) as [?|_]; [lra|].
  destruct (Qlt_le_dec r 0) as [Hneg|Hpos]; cbn [xorb].
  - cbn [fadd]. destruct (round64_le (r + c) c Hrep) as (y & Hy & ? & ?); [lra..|].
    rewrite Hy. by intros [= <-].
  - intros [= <-]. lra.
Qed.
End Modulo.

Section Grid.
Import Binary64.

Lemma grid_lt (j n m : Z) :
  (inject_Z n * pow2 j < inject_Z m * pow2 j)%Q -> n < m.
Proof.
  intros H. pose proof (pow2_pos j).
  rewrite Zlt_Qlt. apply (Qmult_lt_r _ _ (pow2 j)); done.
Qed.

Lemma grid_le (j n m : Z) :
  (inject_Z n * pow2 j <= inject_Z m * pow2 j)%Q -> n <= m.
Proof.
  intros H. pose proof (pow2_pos j).
  rewrite Zle_Qle. apply (Qmult_le_r _ _ (pow2 j)); done.
Qed.

Lemma grid_representable (j n : Z) (q : Q) :
  -1074 <= j <= 970 -> Z.abs n < 2 ^ 53 -> (q == inject_Z n * pow2 j)%Q ->
  representable q.
Proof.
  intros Hj Hn E. exists n, j. split_and!; [lia|done|done|].
  pose proof (pow2_pos j).
  rewrite E, Qabs_Qmult, (Qabs_pos (pow2 j)) by lra.
  assert (Qabs (inject_Z n) == inject_Z (Z.abs n))%Q as -> by reflexivity.
  apply Qlt_le_trans with (pow2 53 * pow2 j)%Q.
  - apply Qmult_lt_compat_r; [done|]. rewrite pow2_Z by lia. rewrite <- Zlt_Qlt. lia.
  - rewrite <- pow2_add. apply pow2_le. lia.
Qed.

(** On the grid, subtraction does not round. *)
Lemma grid_sub (j : Z) (a b : Q) :
  -1074 <= j <= 970 -> on_grid j a -> on_grid j b ->
  exists y, fsub (Finite a) (Finite b) = Finite y /\ (y == a - b)%Q.
Proof.
  intros Hj (na & Hna & Ea) (nb & Hnb & Eb). cbn [fsub].
  apply round64_exact, (grid_representable j (na - nb)); [done|lia|].
  rewrite Ea, Eb, inject_Z_sub. ring.
Qed.

Lemma grid_value (j n m : Z) (q : Q) :
  (q == inject_Z n * pow2 j)%Q -> 0 <= n -> n < m -> Z.abs m < 2 ^ 52 -> on_grid j q.
Proof. intros E H0 Hm Hb. exists n. split; [lia|done]. Qed.

(** On the grid, [%] by a positive divisor is the exact modulo. *)
Lemma py_mod_on_grid (j na nc : Z) (a c : Q) :
  -1074 <= j <= 970 -> (0 < c)%Q ->
  Z.abs na < 2 ^ 53 -> (a == inject_Z na * pow2 j)%Q ->
  Z.abs nc < 2 ^ 52 -> (c == inject_Z nc * pow2 j)%Q ->
  exists p np,
    py_mod (Finite a) (Finite c) = Ret (Finite p) /\
    (p == Qmod a c)%Q /\ (p == inject_Z np * pow2 j)%Q /\ 0 <= np < nc.
Proof.
  intros Hj Hc Hna Ea Hnc Ec. unfold py_mod.
  destruct (Qeq_bool c 0) eqn:Ez; [apply Qeq_bool_iff in Ez; lra|].
  cbn [fmod]. rewrite Ez.
  destruct (Qtrunc_rem a c Hc) as [Hlo Hhi].
  set (T := Qtrunc (a / c)) in *.
  assert (Qred (a - inject_Z T * c) == a - inject_Z T * c)%Q as Ered
    by apply Qred_correct.
  rewrite <- Ered in Hlo, Hhi.
  set (r := Qred (a - inject_Z T * c)%Q) in *.
  assert (r == inject_Z (na - T * nc) * pow2 j)%Q as Er.
  { rewrite Ered, Ea, Ec, inject_Z_sub, inject_Z_mult. ring. }
  assert (0 < nc) as Hnc0.
  { apply (grid_lt j). rewrite <- Ec. change (inject_Z 0) with 0%Q. lra. }
  destruct (Qeq_bool r 0) eqn:Er0.
  { apply Qeq_bool_iff in Er0. exists 0%Q, 0. split_and!; [done| |ring|lia|lia].
    rewrite (Qmod_unique a c T Hc); lra. }
  apply Qeq_bool_neq in Er0.
  cbn [fltb]. unfold Qltb.
  destruct (Qlt_le_dec c 0) as [?|_]; [lra|].
  destruct (Qlt_le_dec r 0) as [Hneg|Hpos]; cbn [xorb].
  - cbn [fadd].
    assert (r + c == inject_Z (na - T * nc + nc) * pow2 j)%Q as Erc.
    { rewrite Er, Ec, !inject_Z_plus. ring. }
    assert (0 <= na - T * nc + nc < nc) as Hb.
    { split.
      - apply (grid_le j). rewrite <- Erc. change (inject_Z 0) with 0%Q. lra.
      - apply (grid_lt j). rewrite <- Erc, <- Ec. lra. }
    destruct (round64_exact (r + c)) as (y & Hy & Ey).
    { apply (grid_representable j (na - T * nc + nc)); [done|lia|done]. }
    rewrite Hy. exists y, (na - T * nc + nc). split_and!; [done| |by rewrite Ey|lia|lia].
    rewrite Ey. rewrite (Qmod_unique a c (T - 1) Hc).
    + rewrite Ered, inject_Z_sub. change (inject_Z 1) with 1%Q. ring.
    + rewrite inject_Z_sub. change (inject_Z 1) with 1%Q. lra.
    + rewrite inject_Z_sub. change (inject_Z 1) with 1%Q. lra.
  - assert (0 <= na - T * nc < nc) as Hb.
    { split.
      - apply (grid_le j). rewrite <- Er. change (inject_Z 0) with 0%Q. lra.
      - apply (grid_lt j). rewrite <- Er, <- Ec. lra. }
    exists r, (na - T * nc). split_and!; [done| |done|lia|lia].
    rewrite (Qmod_unique a c T Hc); lra.
Qed.

Lemma fltb_comp (a b a' b' : Q) :
  (a == a')%Q -> (b == b')%Q -> fltb (Finite a) (Finite b) = Qltb a' b'.
Proof. intros Ea Eb. cbn. by apply Qltb_comp. Qed.
End Grid.

(** On the grid the oracle rounds nowhere: it returns what the exact
    oracle returns. *)
Lemma light_wait_on_grid (j : Z) (tl : TrafficLight) (t : Q) :
  Binary64.grid_light j tl -> Binary64.on_grid j t ->
  exists w w',
    light_wait tl t = Ret w /\
    Binary64.light_wait tl (Binary64.Finite t) = Ret (Binary64.Finite w') /\
    (w' == w)%Q.
Proof.
  intros (Hj & Hc & Hgc & Hgg & Hgr & Hga) Ht.
  rewrite light_wait_unfold by lra. cbv zeta.
  set (pos := Qmod (t - phase_start_time tl) (cycle_time tl)).
  unfold Binary64.light_wait, Binary64.cycle_position.
  destruct (grid_sub j t (phase_start_time tl) Hj Ht Hga) as (a & Ha & Ea). rewrite Ha.
  pose proof Hgc as (nc & Hnc & Ec).
  assert (exists na, Z.abs na < 2 ^ 53 /\ (a == inject_Z na * Binary64.pow2 j)%Q)
    as (na & Hna & Ena).
  { destruct Ht as (nt & ? & Et). destruct Hga as (n0 & ? & E0).
    exists (nt - n0). split; [lia|]. rewrite Ea, Et, E0, inject_Z_sub. ring. }
  destruct (py_mod_on_grid j na nc a (cycle_time tl) Hj Hc Hna Ena Hnc Ec)
    as (p & np & Hp & Ep & Egp & Hnp).
  rewrite Hp. cbn [mbind result_bind].
  assert (p == pos)%Q as Epos by (rewrite Ep; unfold pos; by apply Qmod_comp).
  assert (Binary64.on_grid j p) as Hgp by (exists np; split; [lia|done]).
  assert (forall x, Binary64.on_grid j x ->
            exists y, Binary64.fsub (Binary64.Finite x) (Binary64.Finite p)
                      = Binary64.Finite y /\ (y == x - pos)%Q) as Hsub.
  { intros x Hx. destruct (grid_sub j x p Hj Hx Hgp) as (y & Hy & Ey).
    exists y. split; [done|]. by rewrite Ey, Epos. }
  destruct (String.eqb _ _).
  - rewrite (fltb_comp p _ pos (green_time tl)) by done.
    destruct (Qltb pos (green_time tl)).
    + destruct (Hsub _ Hgg) as (y & -> & Ey).
      rewrite (fltb_comp 5 y 5 (green_time tl - pos)) by done.
      destruct (Qltb 5 _); do 2 eexists; split_and!; reflexivity.
    + destruct (Hsub _ Hgc) as (y & -> & Ey). do 2 eexists; split_and!; done.
  - rewrite (fltb_comp p _ pos (red_time tl)) by done.
    destruct (Qltb pos (red_time tl)).
    + destruct (Hsub _ Hgr) as (y & -> & Ey). do 2 eexists; split_and!; done.
    + do 2 eexists; split_and!; reflexivity.
Qed.


Lemma on_grid_comp (j : Z) (a b : Q) :
  (a == b)%Q -> Binary64.on_grid j a -> Binary64.on_grid j b.
Proof. intros E (n & Hn & Ea). exists n. split; [done|]. by rewrite <- E. Qed.

Lemma grid_add (j : Z) (a b : Q) :
  -1074 <= j <= 970 -> Binary64.on_grid j (a + b) ->
  exists y, Binary64.fadd (Binary64.Finite a) (Binary64.Finite b) = Binary64.Finite y /\
            (y == a + b)%Q.
Proof.
  intros Hj (n & Hn & E). cbn [Binary64.fadd].
  apply round64_exact, (grid_representable j n); [done|lia|done].
Qed.

Lemma get_wait_time_on_grid (p : TrafficLightPredictor) (from_node to_node : Z)
    (tl : TrafficLight) (j : Z) (t : Q) :
  traffic_lights p !! (from_node, to_node) = Some tl ->
  Binary64.grid_light j tl -> Binary64.on_grid j t ->
  exists w w',
    get_wait_time p from_node to_node t = Ret w /\
    Binary64.get_wait_time p from_node to_node (Binary64.Finite t)
    = Ret (Binary64.Finite w') /\
    (w' == w)%Q.
Proof.
  intros Hl Hg Ht. unfold get_wait_time, Binary64.get_wait_time. rewrite Hl.
  by apply (light_wait_on_grid j).
Qed.

Lemma green_light_on_grid : Binary64.grid_light 0 green_light.
Proof.
  split_and!; [lia|lia|reflexivity|..].
  - exists 120. split; [lia|reflexivity].
  - exists 60. split; [lia|reflexivity].
  - exists 60. split; [lia|reflexivity].
  - exists 0. split; [lia|reflexivity].
Qed.

Lemma red_light_on_grid : Binary64.grid_light 0 red_light.
Proof.
  split_and!; [lia|lia|reflexivity|..].
  - exists 120. split; [lia|reflexivity].
  - exists 60. split; [lia|reflexivity].
  - exists 60. split; [lia|reflexivity].
  - exists 0. split; [lia|reflexivity].
Qed.

(** * The properties of the specification *)

(** C1.  Monotonic cost: whenever [find_path] returns a non-empty path,
    over signals that satisfy the data model's invariant, every pair of
    consecutive nodes of the path is an edge with a static distance and
    the returned cost is finite and at least the sum of those
    distances. *)
Theorem find_path_cost_lower_bound (pow_half : Q -> Q) (self : AStarPathfinder)
    (fuel : nat) (start goal : Z) (t : Q)
    (path : list Z) (cost : xfloat) (stats' : gmap string pyval) :
  wf_predictor (traffic_predictor self) ->
  find_path pow_half self fuel start goal t = Ret (path, cost, stats') ->
  path <> [] ->
  exists c d,
    cost = Fin c /\
    path_distance (road_network self) path = Some d /\
    (d <= c)%Q.
Proof.
  intros Hwf. unfold find_path. case_bool_decide as Hsg.
  { intros [= <- <- _] _. exists 0%Q, 0%Q. split_and!; done. }
  destruct (_ || _).
  { intros [= <- _ _]. done. }
  apply (search_loop_cost pow_half self start); [done| |].
  - unfold cost_inv, initial_search; cbn. split; [by rewrite lookup_singleton_eq|].
    split; [done|]. split; [|split].
    + intros n g [-> _]%lookup_singleton_Some. done.
    + intros n p. by rewrite lookup_empty.
    + intros x ->%list_elem_of_singleton.
      cbn. rewrite lookup_singleton_eq. eexists. split; [done|lra].
  - right. cbn. by intros x ->%list_elem_of_singleton.
Qed.

Lemma find_path_cost_lower_bound_witness :
  exists c d,
    red_run_cost = Fin c /\
    path_distance (road_network red_finder) [1; 2] = Some d /\
    (d <= c)%Q.
Proof.
  apply (find_path_cost_lower_bound sqrt_approx red_finder 10 1 2 0
           [1; 2] red_run_cost red_run_stats).
  - exact red_signal_wf.
  - vm_compute. reflexivity.
  - discriminate.
Defined.

(** The start == goal shortcut, for any id. *)
Lemma find_path_same (pow_half : Q -> Q) (self : AStarPathfinder)
    (fuel : nat) (n : Z) (t : Q) :
  find_path pow_half self fuel n n t = Ret ([n], Fin 0, ∅).
Proof. unfold find_path. by rewrite bool_decide_true. Qed.

(** C2, as stated, fails: on the two-node network, [find_path(1, 1, 0)]
    returns a stats dict that is not a record of zero counts. *)
Lemma trivial_path_stats_have_no_counts :
  has_node (road_network plain_finder) 1 = true /\
  ~ (exists s,
        find_path sqrt_approx plain_finder 10 1 1 0 = Ret ([1], Fin 0, s) /\
        zero_counts s).
Proof.
  split; [reflexivity|].
  intros (s & Hs & Hz & _). rewrite find_path_same in Hs.
  injection Hs as <-. by rewrite lookup_empty in Hz.
Qed.

(** C2, amended.  For every node [n] of the graph and every start time,
    [find_path(n, n, t)] returns the one-node path, cost 0 and the empty
    stats dict: it holds none of the three counts, and each of them
    reads as zero through [stats.get(key, 0)] only. *)
Theorem trivial_path_valid_node (pow_half : Q -> Q) (self : AStarPathfinder)
    (fuel : nat) (n : Z) (t : Q) :
  has_node (road_network self) n = true ->
  exists s,
    find_path pow_half self fuel n n t = Ret ([n], Fin 0, s) /\
    s = ∅ /\
    (forall key, s !! key = None) /\
    (forall key, stats_get s key = PyInt 0).
Proof.
  intros _. exists ∅. split; [apply find_path_same|]. split; [done|].
  split; intros key; unfold stats_get; by rewrite lookup_empty.
Qed.

Lemma trivial_path_valid_node_witness :
  exists s,
    find_path sqrt_approx plain_finder 10 1 1 0 = Ret ([1], Fin 0, s) /\
    s = ∅ /\
    (forall key, s !! key = None) /\
    (forall key, stats_get s key = PyInt 0).
Proof.
  apply (trivial_path_valid_node sqrt_approx plain_finder 10 1 0).
  reflexivity.
Defined.

(** C3, as stated, fails: with start and goal the same absent id 7, the
    result is not the failure report. *)
Lemma absent_equal_endpoints_are_not_reported :
  has_node (road_network plain_finder) 7 = false /\
  ~ (exists s, find_path sqrt_approx plain_finder 10 7 7 0 = Ret ([], PInf, s)).
Proof.
  split; [reflexivity|].
  intros (s & Hs). rewrite find_path_same in Hs. discriminate Hs.
Qed.

(** C3, amended.  For start and goal two different ids, one of them
    absent from the graph, [find_path] returns the empty path, cost
    +infinity and the empty stats dict, whatever the fuel: nothing is
    raised. *)
Theorem absent_endpoint_is_reported (pow_half : Q -> Q) (self : AStarPathfinder)
    (fuel : nat) (start goal : Z) (t : Q) :
  start <> goal ->
  has_node (road_network self) start = false \/
  has_node (road_network self) goal = false ->
  find_path pow_half self fuel start goal t = Ret ([], PInf, ∅).
Proof.
  intros Hne Habs. unfold find_path. rewrite bool_decide_false by done.
  destruct Habs as [-> | ->]; [done|].
  by rewrite orb_true_r.
Qed.

Lemma absent_endpoint_is_reported_witness :
  find_path sqrt_approx plain_finder 0 7 1 0 = Ret ([], PInf, ∅).
Proof.
  apply (absent_endpoint_is_reported sqrt_approx plain_finder 0 7 1 0).
  - lia.
  - left. reflexivity.
Defined.

(** C4.  Unreachable goal: when start and goal are nodes of the graph,
    [R] is the set of nodes reachable from start along edges, the goal
    is not among them, the signals satisfy the data model's invariant
    and the neighbours of the nodes of [R] can be listed, then with
    fuel for [search_budget] iterations [find_path] returns the empty
    path, cost +infinity and stats whose [nodes_explored] is the size
    of [R]. *)
Theorem find_path_unreachable (pow_half : Q -> Q) (self : AStarPathfinder)
    (fuel : nat) (start goal : Z) (t : Q) (R : gset Z) :
  wf_predictor (traffic_predictor self) ->
  has_node (road_network self) start = true ->
  has_node (road_network self) goal = true ->
  (forall n, n ∈ R <-> reachable (road_network self) start n) ->
  goal ∉ R ->
  (forall n, n ∈ R -> exists succs, get_neighbors (road_network self) n = Ret succs) ->
  (search_budget (road_network self) R <= fuel)%nat ->
  exists stats',
    find_path pow_half self fuel start goal t = Ret ([], PInf, stats') /\
    stats' !! "nodes_explored"%string = Some (PyInt (Z.of_nat (size R))).
Proof.
  intros Hwf Hs Hg HR Hgoal Hnb Hfuel.
  assert (start ∈ R) as HsR by (apply HR; apply rtc_refl).
  unfold find_path. rewrite bool_decide_false by (intros ->; done).
  rewrite Hs, Hg. cbn [negb orb].
  apply (search_loop_exhaust pow_half self start goal R); auto.
  - unfold exh_inv, initial_search; cbn. split_and!.
    + apply empty_subseteq.
    + by intros x ->%list_elem_of_singleton.
    + intros n [g [-> _]%lookup_singleton_Some]. right. eexists. split; [left|done].
    + rewrite lookup_singleton_eq. eauto.
    + intros u v Hu. by apply elem_of_empty in Hu.
    + by rewrite size_empty.
    + done.
    + done.
    + intros x ->%list_elem_of_singleton. cbn. rewrite lookup_singleton_eq. eauto.
    + intros n Hn. by apply elem_of_empty in Hn.
  - unfold measure, initial_search, search_budget in *; cbn.
    rewrite difference_empty_L. lia.
Qed.

Lemma find_path_unreachable_witness :
  exists stats',
    find_path sqrt_approx fork_finder 4 1 4 0 = Ret ([], PInf, stats') /\
    stats' !! "nodes_explored"%string
      = Some (PyInt (Z.of_nat (size ({[1; 2; 3]} : gset Z)))).
Proof.
  apply (find_path_unreachable sqrt_approx fork_finder 4 1 4 0 {[1; 2; 3]}).
  - exact fork_signal_wf.
  - reflexivity.
  - reflexivity.
  - exact fork_reachable.
  - rewrite !elem_of_union, !elem_of_singleton. lia.
  - intros n _. unfold get_neighbors. cbn. eauto.
  - vm_compute. lia.
Defined.

(** C5.  Over signals that satisfy the data model's invariant,
    [get_wait_time] returns a wait that is not negative, for every
    directed edge and time; and for an edge without a signal it returns
    exactly 0. *)
Theorem get_wait_time_nonneg (p : TrafficLightPredictor) (from_node to_node : Z) (t : Q) :
  wf_predictor p ->
  (exists w, get_wait_time p from_node to_node t = Ret w /\ (0 <= w)%Q) /\
  (traffic_lights p !! (from_node, to_node) = None ->
   get_wait_time p from_node to_node t = Ret 0%Q).
Proof.
  intros Hp. split; [by apply get_wait_time_total|].
  unfold get_wait_time. by intros ->.
Qed.

Lemma get_wait_time_nonneg_witness :
  (exists w, get_wait_time red_signal 1 2 30 = Ret w /\ (0 <= w)%Q) /\
  get_wait_time red_signal 2 1 30 = Ret 0%Q.
Proof.
  split.
  - apply (get_wait_time_nonneg red_signal 1 2 30). exact red_signal_wf.
  - apply (get_wait_time_nonneg red_signal 2 1 30); [exact red_signal_wf|].
    vm_compute. reflexivity.
Defined.

(** C6.  In binary64 arithmetic, a signal whose current phase is green,
    at the position [pos] of the query time in its cycle as the code
    computes it, [(t - anchor) % cycle]: when [pos < green_time] and
    the remaining green [green_time - pos], as the code rounds it, is
    more than 5, the wait is 0; when [pos < green_time] and the
    remaining green is not more than 5, the wait is the full red
    duration; and otherwise the wait is [cycle_time - pos], the rest of
    the cycle, which for a positive cycle and a position that is a
    number is never negative and at most the cycle.  It is 0, and so
    not positive, when the modulo returns the cycle itself
    ([green_phase_rest_can_be_zero]). *)
Theorem green_phase_wait (p : TrafficLightPredictor) (from_node to_node : Z)
    (tl : TrafficLight) (t pos : Binary64.binary64) :
  traffic_lights p !! (from_node, to_node) = Some tl ->
  current_phase tl = "green"%string ->
  Binary64.cycle_position tl t = Ret pos ->
  let green := Binary64.Finite (green_time tl) in
  let cycle := Binary64.Finite (cycle_time tl) in
  (Binary64.fltb pos green = true ->
   Binary64.fltb (Binary64.Finite 5) (Binary64.fsub green pos) = true ->
   Binary64.get_wait_time p from_node to_node t = Ret (Binary64.Finite 0)) /\
  (Binary64.fltb pos green = true ->
   Binary64.fltb (Binary64.Finite 5) (Binary64.fsub green pos) = false ->
   Binary64.get_wait_time p from_node to_node t
   = Ret (Binary64.Finite (red_time tl))) /\
  (Binary64.fltb pos green = false ->
   Binary64.get_wait_time p from_node to_node t = Ret (Binary64.fsub cycle pos) /\
   forall x,
     Binary64.representable (cycle_time tl) -> (0 < cycle_time tl)%Q ->
     pos = Binary64.Finite x ->
     exists r, Binary64.fsub cycle pos = Binary64.Finite r /\
               (0 <= r)%Q /\ (r <= cycle_time tl)%Q).
Proof.
  intros Hl Hph Hpos green cycle.
  unfold Binary64.get_wait_time, Binary64.light_wait. rewrite Hl, Hpos. cbn [mbind result_bind].
  rewrite Hph. change (("green" =? "green")%string) with true. cbv iota.
  fold green cycle.
  split_and!.
  - by intros -> ->.
  - by intros -> ->.
  - intros ->. split; [done|]. intros x Hrep Hc ->.
    destruct (py_mod_bounds _ _ _ Hrep Hc Hpos) as [H0 H1].
    cbn [Binary64.fsub cycle].
    destruct (round64_le (cycle_time tl - x) (cycle_time tl) Hrep) as (y & Hy & ? & ?);
      [lra..|].
    eauto.
Qed.

Lemma green_phase_wait_witness :
  let t := Binary64.Finite 10 in
  let pos := Binary64.Finite 10 in
  let green := Binary64.Finite (green_time green_light) in
  let cycle := Binary64.Finite (cycle_time green_light) in
  (Binary64.fltb pos green = true ->
   Binary64.fltb (Binary64.Finite 5) (Binary64.fsub green pos) = true ->
   Binary64.get_wait_time green_signal 1 2 t = Ret (Binary64.Finite 0)) /\
  (Binary64.fltb pos green = true ->
   Binary64.fltb (Binary64.Finite 5) (Binary64.fsub green pos) = false ->
   Binary64.get_wait_time green_signal 1 2 t
   = Ret (Binary64.Finite (red_time green_light))) /\
  (Binary64.fltb pos green = false ->
   Binary64.get_wait_time green_signal 1 2 t = Ret (Binary64.fsub cycle pos) /\
   forall x,
     Binary64.representable (cycle_time green_light) -> (0 < cycle_time green_light)%Q ->
     pos = Binary64.Finite x ->
     exists r, Binary64.fsub cycle pos = Binary64.Finite r /\
               (0 <= r)%Q /\ (r <= cycle_time green_light)%Q).
Proof.
  apply (green_phase_wait green_signal 1 2 green_light
           (Binary64.Finite 10) (Binary64.Finite 10)).
  - vm_compute. reflexivity.
  - reflexivity.
  - vm_compute. reflexivity.
Defined.


(** The float modulo returns the cycle itself for the elapsed time
    [-2 ^ -60]: the position has passed [green_time], and the rest of
    the cycle is 0, not positive. *)
Lemma green_phase_rest_can_be_zero :
  exists pos w,
    Binary64.cycle_position green_light (Binary64.Finite (- (1 # 2 ^ 60)))
    = Ret (Binary64.Finite pos) /\
    (green_time green_light <= pos)%Q /\
    Binary64.get_wait_time green_signal 1 2 (Binary64.Finite (- (1 # 2 ^ 60)))
    = Ret (Binary64.Finite w) /\
    ~ (0 < w)%Q.
Proof.
  exists 120%Q, 0%Q. split_and!.
  - vm_compute. reflexivity.
  - vm_compute. discriminate.
  - vm_compute. reflexivity.
  - vm_compute. discriminate.
Qed.

(** C7.  Periodicity in binary64 arithmetic: when the durations and the
    anchor of the signal, the time [t] and the time [t + k * c] are
    whole multiples of one power of two [2 ^ j], of fewer than
    [2 ^ 52] units each (whole seconds, for instance), the waits at [t]
    and at [t + k * c] are equal, for every integer [k]: nothing the
    oracle computes is rounded there.  Off such a grid the two waits
    can differ ([wait_not_periodic_off_grid]). *)
Theorem get_wait_time_periodic (p : TrafficLightPredictor) (from_node to_node : Z)
    (tl : TrafficLight) (j : Z) (t : Q) (k : Z) :
  traffic_lights p !! (from_node, to_node) = Some tl ->
  Binary64.grid_light j tl ->
  Binary64.on_grid j t ->
  Binary64.on_grid j (t + inject_Z k * cycle_time tl) ->
  exists w w',
    Binary64.get_wait_time p from_node to_node (Binary64.Finite t)
    = Ret (Binary64.Finite w) /\
    Binary64.get_wait_time p from_node to_node
      (Binary64.Finite (t + inject_Z k * cycle_time tl))
    = Ret (Binary64.Finite w') /\
    (w == w')%Q.
Proof.
  intros Hl Hg Ht Ht'.
  destruct (get_wait_time_on_grid p _ _ tl j t Hl Hg Ht) as (w1 & w & H1 & Hw & E1).
  destruct (get_wait_time_on_grid p _ _ tl j _ Hl Hg Ht') as (w2 & w' & H2 & Hw' & E2).
  exists w, w'. split_and!; [done..|].
  unfold get_wait_time in H1, H2. rewrite Hl in H1, H2.
  destruct Hg as (_ & Hc & _).
  destruct (light_wait_periodic tl t k) as (v & v' & Hv & Hv' & E); [lra|].
  rewrite Hv in H1. rewrite Hv' in H2. injection H1 as <-. injection H2 as <-.
  by rewrite E1, E2.
Qed.

Lemma get_wait_time_periodic_witness :
  exists w w',
    Binary64.get_wait_time green_signal 1 2 (Binary64.Finite 57)
    = Ret (Binary64.Finite w) /\
    Binary64.get_wait_time green_signal 1 2
      (Binary64.Finite (57 + inject_Z (-3) * cycle_time green_light))
    = Ret (Binary64.Finite w') /\
    (w == w')%Q.
Proof.
  apply (get_wait_time_periodic green_signal 1 2 green_light 0 57 (-3)).
  - vm_compute. reflexivity.
  - exact green_light_on_grid.
  - exists 57. split; [lia|reflexivity].
  - exists (-303). split; [lia|reflexivity].
Defined.

(** With the anchor at the float [0.1], the times
    [55.099999999999994] and that plus one cycle of 120 s, both
    floats, get the waits 0 and 60: at the first more than 5 s of
    green remain, at the second the rounded position leaves 5 s or
    less. *)
Lemma wait_not_periodic_off_grid :
  let t := (1938658902094643 # 35184372088832)%Q in
  Binary64.representable t /\
  Binary64.representable (t + inject_Z 1 * cycle_time offset_light) /\
  exists w w',
    Binary64.get_wait_time offset_signal 1 2 (Binary64.Finite t)
    = Ret (Binary64.Finite w) /\
    Binary64.get_wait_time offset_signal 1 2
      (Binary64.Finite (t + inject_Z 1 * cycle_time offset_light))
    = Ret (Binary64.Finite w') /\
    ~ (w == w')%Q.
Proof.
  cbv zeta. split_and!.
  - exists 1938658902094643, (-45). split_and!; [lia|lia|reflexivity|reflexivity].
  - exists 6160783552754483, (-45). split_and!; [lia|lia|reflexivity|reflexivity].
  - exists 0%Q, 60%Q. split_and!.
    + vm_compute. reflexivity.
    + vm_compute. reflexivity.
    + discriminate.
Qed.

(** C8.  The simulated clock: whenever [find_path] returns, the run has
    a pricing log, one entry for each edge priced during expansion, in
    expansion order, and the log is on the clock that starts at the
    start time: each edge was priced, its wait queried, at the clock
    reached so far, and the clock then advanced by
    [edge_cost / average_speed].  These prices are the ones the search
    uses: the cost returned with a path is the sum, along the path, of
    logged prices of its edges, each taken at the clock of its
    expansion and not at the time the path arrives there. *)
Theorem clock_follows_expansion_order (pow_half : Q -> Q) (self : AStarPathfinder)
    (fuel : nat) (start goal : Z) (t0 : Q)
    (r : list Z * xfloat * gmap string pyval) :
  find_path pow_half self fuel start goal t0 = Ret r ->
  exists log,
    find_path_log pow_half self fuel start goal t0 = Ret (r, log) /\
    clock_chain self t0 log /\
    (r.1.1 <> [] ->
     exists c s, r.1.2 = Fin c /\ priced_route log r.1.1 s /\ (c == s)%Q).
Proof.
  intros K. rewrite <- find_path_log_erase in K.
  destruct (find_path_log pow_half self fuel start goal t0) as [[r' log]| |] eqn:E;
    cbn in K; [|done..].
  injection K as ->. exists log. split; [done|].
  unfold find_path_log in E. case_bool_decide.
  { injection E as <- <-. split; [done|]. intros _. cbn.
    exists 0%Q, 0%Q. split_and!; [done|apply priced_start|reflexivity]. }
  destruct (has_node (road_network self) start); cbn [negb orb] in E.
  2:{ injection E as <- <-. split; [done|]. by intros []. }
  destruct (has_node (road_network self) goal) eqn:Hg; cbn [negb] in E.
  2:{ injection E as <- <-. split; [done|]. by intros []. }
  apply bool_decide_eq_true in Hg.
  destruct r as [[path cost] stats'].
  eapply (search_loop_log_ledger pow_half self t0 start goal); [done| | | |exact E].
  - by split.
  - apply initial_ledger.
  - right. cbn. by intros x ->%list_elem_of_singleton.
Qed.

Lemma clock_follows_expansion_order_witness :
  exists log,
    find_path_log sqrt_approx fork_finder 10 1 3 0 = Ret (fork_run, log) /\
    clock_chain fork_finder 0 log /\
    (fork_run.1.1 <> [] ->
     exists c s, fork_run.1.2 = Fin c /\ priced_route log fork_run.1.1 s /\ (c == s)%Q).
Proof.
  apply (clock_follows_expansion_order sqrt_approx fork_finder 10 1 3 0 fork_run).
  vm_compute. reflexivity.
Defined.

(** On the fork, the road from 1 to 3 is priced at second 100, the
    clock after the road from 1 to 2 was priced, when its signal is
    green: it costs its 500 m. *)
Example fork_log_entries :
  (fun e : Z * Z * Q * Q => (e.1.1.1, e.1.1.2, Qred e.1.2, Qred e.2)) <$> fork_log
  = [(1, 2, 0%Q, 1389%Q); (1, 3, 100%Q, 500%Q)].
Proof. vm_compute. reflexivity. Qed.

(** A vehicle leaving 1 for 3 at second 0 is at that signal at second
    0, when it is red for 60 s more: priced then, the road would cost
    500 + 60 * 13.89 m. *)
Example fork_price_at_departure :
  match get_edge_cost fork_finder 1 3 0 with
  | Ret (Fin c) => Qred c
  | _ => 0%Q
  end = (6667 # 5)%Q.
Proof. vm_compute. reflexivity. Qed.

(** The run on the fork returns the road from 1 to 3 at its logged
    price of 500 m, the price at second 100, not the 1333.4 m of a
    vehicle that is at the signal at second 0. *)
Example fork_run_cost :
  fork_run.1.1 = [1; 3] /\ xred fork_run.1.2 = Fin 500.
Proof. vm_compute. split; reflexivity. Qed.

(** C9.  For every node id [n], in the graph or not, and every start
    time, [find_path(n, n, t)] returns the path [[n]], cost 0 and the
    empty stats dict: the shortcut comes before the check that the
    nodes exist. *)
Theorem trivial_path_any_id (pow_half : Q -> Q) (self : AStarPathfinder)
    (fuel : nat) (n : Z) (t : Q) :
  find_path pow_half self fuel n n t = Ret ([n], Fin 0, ∅) /\
  find_path pow_half self fuel n n t <> Ret ([], PInf, ∅).
Proof.
  rewrite find_path_same. split; [done|]. discriminate.
Qed.




(** * Further properties of the code *)

(** ** More of the signal oracle *)

Lemma Qmod_small (r b : Q) : (0 <= r)%Q -> (r < b)%Q -> (Qmod r b == r)%Q.
Proof.
  intros H0 Hb. unfold Qmod.
  assert (Qfloor (r / b) = 0) as ->.
  { apply Qfloor_unique.
    - change (inject_Z 0) with 0%Q. apply Qle_shift_div_l; lra.
    - change (inject_Z (0 + 1)) with 1%Q. apply Qlt_shift_div_r; lra. }
  change (inject_Z 0) with 0%Q. ring.
Qed.

Lemma Qmod_decompose (a b : Q) :
  ~ (b == 0)%Q -> (a == inject_Z (Qfloor (a / b)) * b + Qmod a b)%Q.
Proof. intros _. unfold Qmod. ring. Qed.

(** The position of [t + d] when [pos t + d] stays inside the cycle. *)
Lemma Qmod_shift (a d b : Q) :
  (0 < b)%Q -> (0 <= Qmod a b + d)%Q -> (Qmod a b + d < b)%Q ->
  (Qmod (a + d) b == Qmod a b + d)%Q.
Proof.
  intros Hb H0 H1.
  transitivity (Qmod (Qmod a b + d + inject_Z (Qfloor (a / b)) * b) b).
  - apply Qmod_comp. unfold Qmod. ring.
  - transitivity (Qmod (Qmod a b + d) b).
    + apply Qmod_period. lra.
    + by apply Qmod_small.
Qed.

Lemma light_wait_comp (tl : TrafficLight) (t t' : Q) :
  ~ (cycle_time tl == 0)%Q -> (t == t')%Q ->
  exists w w', light_wait tl t = Ret w /\ light_wait tl t' = Ret w' /\ (w == w')%Q.
Proof.
  intros Hc E. rewrite !light_wait_unfold by done. cbv zeta.
  assert (Qmod (t' - phase_start_time tl) (cycle_time tl)
          == Qmod (t - phase_start_time tl) (cycle_time tl))%Q as Ep
    by (apply Qmod_comp; rewrite E; reflexivity).
  set (pos := Qmod (t - _) _) in *. set (pos' := Qmod (t' - _) _) in *.
  rewrite !(Qltb_comp pos' _ pos _ Ep (Qeq_refl _)).
  rewrite (Qltb_comp 5 (green_time tl - pos') 5 (green_time tl - pos))
    by (try reflexivity; rewrite Ep; reflexivity).
  destruct (String.eqb _ _).
  - destruct (Qltb pos (green_time tl)).
    + destruct (Qltb 5 _); do 2 eexists; (split; [reflexivity|split; [reflexivity|lra]]).
    + do 2 eexists; (split; [reflexivity|split; [reflexivity|lra]]).
  - destruct (Qltb pos (red_time tl));
      do 2 eexists; (split; [reflexivity|split; [reflexivity|lra]]).
Qed.

(** X1.  Over valid signals, the wait that get_wait_time returns for a
    signalled edge never exceeds the signal's red duration, itself at
    most one cycle. *)
Theorem wait_at_most_red (p : TrafficLightPredictor) (from_node to_node : Z)
    (tl : TrafficLight) (t : Q) :
  wf_predictor p ->
  traffic_lights p !! (from_node, to_node) = Some tl ->
  exists w,
    get_wait_time p from_node to_node t = Ret w /\
    (w <= red_time tl)%Q /\ (red_time tl <= cycle_time tl)%Q.
Proof.
  intros Hp Hl. destruct (Hp _ _ Hl) as (Hc & Hg0 & Hgc & Hr).
  unfold get_wait_time. rewrite Hl.
  rewrite light_wait_unfold by lra. cbv zeta.
  destruct (Qmod_bounds (t - phase_start_time tl) (cycle_time tl) Hc) as [Hp0 Hpc].
  set (pos := Qmod _ _) in *.
  destruct (String.eqb _ _).
  - destruct (Qltb pos (green_time tl)) eqn:E1.
    + destruct (Qltb 5 _); eexists; (split; [reflexivity|]); split; lra.
    + apply Qltb_false in E1. eexists; (split; [reflexivity|]); split; lra.
  - destruct (Qltb pos (red_time tl)) eqn:E1;
      eexists; (split; [reflexivity|]); split; lra.
Qed.

Lemma wait_at_most_red_witness :
  exists w,
    get_wait_time red_signal 1 2 30 = Ret w /\
    (w <= red_time red_light)%Q /\ (red_time red_light <= cycle_time red_light)%Q.
Proof.
  apply (wait_at_most_red red_signal 1 2 red_light 30).
  - exact red_signal_wf.
  - vm_compute. reflexivity.
Defined.

(** X2.  get_wait_time raises exactly when the edge carries a signal
    whose cycle is zero, and what it raises is ZeroDivisionError; it
    never runs out of fuel. *)
Theorem get_wait_time_raises (p : TrafficLightPredictor) (from_node to_node : Z)
    (t : Q) :
  (forall e, get_wait_time p from_node to_node t = Raise e <->
     e = ZeroDivisionError /\
     exists tl, traffic_lights p !! (from_node, to_node) = Some tl /\
                (cycle_time tl == 0)%Q) /\
  get_wait_time p from_node to_node t <> OutOfFuel.
Proof.
  unfold get_wait_time.
  destruct (traffic_lights p !! (from_node, to_node)) as [tl|] eqn:Hl.
  - destruct (Qeq_dec (cycle_time tl) 0) as [Hz|Hnz].
    + unfold light_wait. rewrite (py_mod_zero _ _ Hz). cbn. split; [|done].
      intros e. split.
      * intros [= <-]. eauto.
      * by intros [-> _].
    + rewrite light_wait_unfold by done. cbv zeta.
      assert (forall (b1 b2 b3 b4 : bool) (x1 x2 x3 x4 x5 : Q),
        exists w, (if b1 then if b2 then if b3 then Ret x1 else Ret x2 else Ret x3
                   else if b4 then Ret x4 else Ret x5) = Ret w) as Hret.
      { intros [] [] [] [] *; eauto. }
      match goal with |- context [if ?b1 then if ?b2 then if ?b3 then Ret ?x1 else Ret ?x2
                                   else Ret ?x3 else if ?b4 then Ret ?x4 else Ret ?x5] =>
        destruct (Hret b1 b2 b3 b4 x1 x2 x3 x4 x5) as [w ->] end.
      split; [|done]. intros e. split; [done|].
      intros (_ & tl' & [= <-] & Hz). contradiction.
  - split; [|done]. intros e. split; [done|]. by intros (_ & tl & ? & _).
Qed.

(** In exact arithmetic, waiting out the wait of a signal anchored on
    red leaves no wait. *)
Lemma red_phase_wait_clears_exact (p : TrafficLightPredictor) (from_node to_node : Z)
    (tl : TrafficLight) (t w : Q) :
  traffic_lights p !! (from_node, to_node) = Some tl ->
  wf_light tl ->
  current_phase tl = "red"%string ->
  (0 < green_time tl)%Q ->
  get_wait_time p from_node to_node t = Ret w ->
  get_wait_time p from_node to_node (t + w) = Ret 0%Q.
Proof.
  intros Hl (Hc & Hg0 & Hgc & Hr) Hph Hg. unfold get_wait_time. rewrite Hl.
  rewrite !light_wait_unfold by lra. cbv zeta. rewrite Hph.
  change (("red" =? "green")%string) with false. cbv iota.
  destruct (Qmod_bounds (t - phase_start_time tl) (cycle_time tl) Hc) as [Hp0 Hpc].
  set (pos := Qmod (t - _) _) in *.
  assert (forall d, (0 <= pos + d)%Q -> (pos + d < cycle_time tl)%Q ->
            (Qmod (t + d - phase_start_time tl) (cycle_time tl) == pos + d)%Q) as Hshift.
  { intros d H0 H1.
    transitivity (Qmod (t - phase_start_time tl + d) (cycle_time tl)).
    - apply Qmod_comp. ring.
    - by apply Qmod_shift. }
  destruct (Qltb pos (red_time tl)) eqn:E; intros [= <-].
  - apply Qltb_true in E.
    rewrite (Qltb_comp _ (red_time tl) (red_time tl) (red_time tl)); try reflexivity.
    + assert (Qltb (red_time tl) (red_time tl) = false) as -> by (apply Qltb_false; lra).
      done.
    + rewrite Hshift by lra. ring.
  - apply Qltb_false in E.
    rewrite (Qltb_comp _ (red_time tl) pos (red_time tl)); try reflexivity.
    + assert (Qltb pos (red_time tl) = false) as -> by (by apply Qltb_false).
      done.
    + rewrite Hshift by lra. ring.
Qed.

(** X22.  Where no operation rounds, the exact oracle is the code's: for
    a signal whose durations and anchor, and a time that, are whole
    multiples of one power of two of fewer than [2 ^ 52] units each,
    get_wait_time in binary64 arithmetic returns the number that
    get_wait_time over exact rationals returns. *)
Theorem binary64_oracle_exact_on_grid (p : TrafficLightPredictor)
    (from_node to_node : Z) (tl : TrafficLight) (j : Z) (t : Q) :
  traffic_lights p !! (from_node, to_node) = Some tl ->
  Binary64.grid_light j tl -> Binary64.on_grid j t ->
  exists w w',
    get_wait_time p from_node to_node t = Ret w /\
    Binary64.get_wait_time p from_node to_node (Binary64.Finite t)
    = Ret (Binary64.Finite w') /\
    (w' == w)%Q.
Proof.
  intros Hl Hg Ht. unfold get_wait_time, Binary64.get_wait_time. rewrite Hl.
  by apply (light_wait_on_grid j).
Qed.


Lemma binary64_oracle_exact_on_grid_witness :
  exists w w',
    get_wait_time green_signal 1 2 57 = Ret w /\
    Binary64.get_wait_time green_signal 1 2 (Binary64.Finite 57)
    = Ret (Binary64.Finite w') /\
    (w' == w)%Q.
Proof.
  apply (binary64_oracle_exact_on_grid green_signal 1 2 green_light 0 57).
  - vm_compute. reflexivity.
  - exact green_light_on_grid.
  - exists 57. split; [lia|reflexivity].
Defined.

(** X3.  For a valid signal anchored on red with some green in its
    cycle, whose durations and anchor are whole multiples of one power
    of two, a vehicle that arrives at such a multiple and waits out the
    wait it is charged finds the signal open: in binary64 arithmetic
    the wait at [t + wait] is 0, as long as [t + wait] stays within
    [2 ^ 52] units.  Off such a grid the sum and the position round,
    and a wait of some 1e-14 s can be charged again. *)
Theorem red_phase_wait_clears (p : TrafficLightPredictor) (from_node to_node : Z)
    (tl : TrafficLight) (j : Z) (t w : Q) :
  traffic_lights p !! (from_node, to_node) = Some tl ->
  wf_light tl ->
  current_phase tl = "red"%string ->
  (0 < green_time tl)%Q ->
  Binary64.grid_light j tl ->
  Binary64.on_grid j t ->
  Binary64.get_wait_time p from_node to_node (Binary64.Finite t)
  = Ret (Binary64.Finite w) ->
  Binary64.on_grid j (t + w) ->
  exists w2,
    Binary64.get_wait_time p from_node to_node
      (Binary64.fadd (Binary64.Finite t) (Binary64.Finite w))
    = Ret (Binary64.Finite w2) /\
    (w2 == 0)%Q.
Proof.
  intros Hl Hwf Hph Hg Hgrid Ht Hw Htw.
  pose proof Hgrid as (Hj & Hc & _).
  destruct (get_wait_time_on_grid p _ _ tl j t Hl Hgrid Ht) as (w0 & w' & H0 & Hw' & E).
  rewrite Hw in Hw'. injection Hw' as <-.
  destruct (grid_add j t w Hj Htw) as (y & -> & Ey).
  destruct (get_wait_time_on_grid p _ _ tl j y Hl Hgrid) as (v0 & v' & Hv0 & Hv' & Ev).
  { by apply (on_grid_comp j (t + w)). }
  exists v'. split; [done|]. rewrite Ev.
  pose proof (red_phase_wait_clears_exact p _ _ tl t w0 Hl Hwf Hph Hg H0) as Hclear.
  unfold get_wait_time in Hv0, Hclear. rewrite Hl in Hv0, Hclear.
  destruct (light_wait_comp tl y (t + w0)) as (a & b & Ha & Hb & Eab); [lra| |].
  { by rewrite Ey, E. }
  rewrite Ha in Hv0. rewrite Hb in Hclear.
  injection Hv0 as <-. injection Hclear as ->. done.
Qed.

Lemma red_phase_wait_clears_witness :
  exists w2,
    Binary64.get_wait_time red_signal 1 2
      (Binary64.fadd (Binary64.Finite 130) (Binary64.Finite 50))
    = Ret (Binary64.Finite w2) /\
    (w2 == 0)%Q.
Proof.
  apply (red_phase_wait_clears red_signal 1 2 red_light 0 130 50).
  - vm_compute. reflexivity.
  - exact red_light_wf.
  - reflexivity.
  - reflexivity.
  - exact red_light_on_grid.
  - exists 130. split; [lia|reflexivity].
  - vm_compute. reflexivity.
  - exists 180. split; [lia|reflexivity].
Defined.

(** X4.  Over valid signals, predict_remaining_time returns green with a
    positive remaining time of at most the green duration, or red with a
    remaining time that is not negative and at most the red duration. *)
Theorem predict_remaining_time_bounds (p : TrafficLightPredictor)
    (from_node to_node : Z) (tl : TrafficLight) (t : Q) :
  wf_predictor p ->
  traffic_lights p !! (from_node, to_node) = Some tl ->
  exists label r,
    predict_remaining_time p from_node to_node t = Ret (label, r) /\
    ((label = "green"%string /\ (0 < r)%Q /\ (r <= green_time tl)%Q) \/
     (label = "red"%string /\ (0 <= r)%Q /\ (r <= red_time tl)%Q)).
Proof.
  intros Hp Hl. destruct (Hp _ _ Hl) as (Hc & Hg0 & Hgc & Hr).
  unfold predict_remaining_time. rewrite Hl. rewrite py_mod_Ret by lra. cbn.
  destruct (Qmod_bounds (t - phase_start_time tl) (cycle_time tl) Hc) as [Hp0 Hpc].
  set (pos := Qmod _ _) in *.
  destruct (Qltb pos (green_time tl)) eqn:E.
  - apply Qltb_true in E. do 2 eexists. split; [reflexivity|].
    left. split_and!; [done|lra|lra].
  - apply Qltb_false in E. do 2 eexists. split; [reflexivity|].
    right. split_and!; [done|lra|lra].
Qed.

Lemma predict_remaining_time_bounds_witness :
  exists label r,
    predict_remaining_time red_signal 1 2 100 = Ret (label, r) /\
    ((label = "green"%string /\ (0 < r)%Q /\ (r <= green_time red_light)%Q) \/
     (label = "red"%string /\ (0 <= r)%Q /\ (r <= red_time red_light)%Q)).
Proof.
  apply (predict_remaining_time_bounds red_signal 1 2 red_light 100).
  - exact red_signal_wf.
  - vm_compute. reflexivity.
Defined.

(** X5.  For a signal anchored on green the two queries agree: when
    predict_remaining_time says red for r seconds the wait is r; when it
    says green the wait is 0 with more than 5 s left and the red
    duration otherwise. *)
Theorem green_phase_prediction_agrees (p : TrafficLightPredictor)
    (from_node to_node : Z) (tl : TrafficLight) (t : Q) (label : string) (r : Q) :
  traffic_lights p !! (from_node, to_node) = Some tl ->
  current_phase tl = "green"%string ->
  predict_remaining_time p from_node to_node t = Ret (label, r) ->
  (label = "red"%string -> get_wait_time p from_node to_node t = Ret r) /\
  (label = "green"%string -> (5 < r)%Q ->
     get_wait_time p from_node to_node t = Ret 0%Q) /\
  (label = "green"%string -> (r <= 5)%Q ->
     get_wait_time p from_node to_node t = Ret (red_time tl)).
Proof.
  intros Hl Hph. unfold predict_remaining_time, get_wait_time. rewrite Hl.
  unfold light_wait.
  destruct (py_mod (t - phase_start_time tl) (cycle_time tl)) as [pos| |]; cbn; [|done..].
  rewrite Hph. change (("green" =? "green")%string) with true. cbv iota.
  destruct (Qltb pos (green_time tl)); intros [= <- <-].
  - split; [done|]. split.
    + intros _ H5%Qltb_true. by rewrite H5.
    + intros _ H5%Qltb_false. by rewrite H5.
  - split; [done|]. split; intros [=].
Qed.

Lemma green_phase_prediction_agrees_witness :
  ("red"%string = "red"%string ->
   get_wait_time green_signal 1 2 70 = Ret (120 - Qmod (70 - 0) 120)%Q) /\
  ("red"%string = "green"%string -> (5 < 120 - Qmod (70 - 0) 120)%Q ->
   get_wait_time green_signal 1 2 70 = Ret 0%Q) /\
  ("red"%string = "green"%string -> (120 - Qmod (70 - 0) 120 <= 5)%Q ->
   get_wait_time green_signal 1 2 70 = Ret (red_time green_light)).
Proof.
  apply (green_phase_prediction_agrees green_signal 1 2 green_light 70).
  - vm_compute. reflexivity.
  - reflexivity.
  - vm_compute. reflexivity.
Defined.

(** For a signal anchored on red the two queries part: at second 0 the
    display says green for 60 s more while the search waits 60 s. *)
Example red_phase_prediction_differs :
  predict_remaining_time red_signal 1 2 0 = Ret ("green"%string, (60 - Qmod (0 - 0) 120)%Q) /\
  get_wait_time red_signal 1 2 0 = Ret (60 - Qmod (0 - 0) 120)%Q.
Proof. split; vm_compute; reflexivity. Qed.

(** X6.  add_traffic_light changes the answers for its own directed edge
    only: waits and predictions on every other edge, the reverse edge
    included, are as before. *)
Theorem add_traffic_light_other_edges (p : TrafficLightPredictor)
    (from_node to_node : Z) (cycle ratio u anchor : Q) (f g : Z) (t : Q) :
  (f, g) <> (from_node, to_node) ->
  get_wait_time (add_traffic_light p from_node to_node cycle ratio u anchor) f g t
    = get_wait_time p f g t /\
  predict_remaining_time (add_traffic_light p from_node to_node cycle ratio u anchor) f g t
    = predict_remaining_time p f g t.
Proof.
  intros Hne. unfold get_wait_time, predict_remaining_time, add_traffic_light. cbn.
  by rewrite lookup_insert_ne.
Qed.

Lemma add_traffic_light_other_edges_witness :
  get_wait_time (add_traffic_light red_signal 2 1 90 (1 # 2) (1 # 4) 10) 1 2 30
    = get_wait_time red_signal 1 2 30 /\
  predict_remaining_time (add_traffic_light red_signal 2 1 90 (1 # 2) (1 # 4) 10) 1 2 30
    = predict_remaining_time red_signal 1 2 30.
Proof.
  apply (add_traffic_light_other_edges red_signal 2 1 90 (1 # 2) (1 # 4) 10 1 2 30).
  intros [=].
Defined.

(** X7.  add_traffic_light checks nothing.  It stores the cycle and the
    anchor it is given, in place of any signal the edge had.  With a
    positive cycle and a green ratio in [0, 1] the stored green and red
    durations lie between 0 and the cycle; a zero cycle is stored as
    well, and every wait query for that edge then raises
    ZeroDivisionError. *)
Theorem add_traffic_light_checks_nothing (p : TrafficLightPredictor)
    (from_node to_node : Z) (cycle ratio u anchor : Q) :
  let p' := add_traffic_light p from_node to_node cycle ratio u anchor in
  exists tl,
    traffic_lights p' !! (from_node, to_node) = Some tl /\
    cycle_time tl = cycle /\ phase_start_time tl = anchor /\
    ((0 < cycle)%Q -> (0 <= ratio)%Q -> (ratio <= 1)%Q ->
     (0 <= green_time tl)%Q /\ (green_time tl <= cycle)%Q /\
     (0 <= red_time tl)%Q /\ (red_time tl <= cycle)%Q) /\
    ((cycle == 0)%Q ->
     forall t, get_wait_time p' from_node to_node t = Raise ZeroDivisionError).
Proof.
  cbv zeta. eexists. split; [apply lookup_insert_eq|]. cbn.
  split_and!; [done|done| |].
  - intros Hc H0 H1. split_and!; nra.
  - intros Hz t. unfold get_wait_time, add_traffic_light. cbn.
    rewrite lookup_insert_eq. unfold light_wait. cbn.
    by rewrite (py_mod_zero _ _ Hz).
Qed.


(** ** The road network *)

Lemma dict_get_is_Some (d : list ((Z * Z) * Q)) (key : Z * Z) :
  is_Some (dict_get d key) <-> exists v, (key, v) ∈ d.
Proof.
  induction d as [|[k v] d IH]; cbn.
  - split; [by intros [? ?]|]. intros [v Hv]. by apply elem_of_nil in Hv.
  - case_bool_decide as Hk.
    + subst k. split; [|eauto]. intros _. exists v. left.
    + rewrite IH. split.
      * intros [v' Hv']. exists v'. by right.
      * intros [v' Hv']. apply elem_of_cons in Hv' as [[= ? ?]|Hv']; [done|eauto].
Qed.

(** X10.  Without a loaded graph get_neighbors never raises, and it
    lists exactly the nodes to which get_edge_distance has a distance:
    no neighbour lacks an edge. *)
Theorem neighbors_are_the_edges (rn : RoadNetwork) (u : Z) :
  graph rn = None ->
  exists neighbors,
    get_neighbors rn u = Ret neighbors /\
    forall v, v ∈ neighbors <-> is_Some (get_edge_distance rn u v).
Proof.
  intros Hg. unfold get_neighbors. rewrite Hg. eexists. split; [reflexivity|].
  intros v. unfold get_edge_distance. rewrite dict_get_is_Some.
  rewrite list_elem_of_fmap. split.
  - intros ([[a b] d] & -> & [Ha Hin]%list_elem_of_filter). cbn in *. subst a.
    eauto.
  - intros [d Hd]. exists ((u, v), d). split; [done|].
    apply list_elem_of_filter. done.
Qed.

Lemma neighbors_are_the_edges_witness :
  exists neighbors,
    get_neighbors fork 1 = Ret neighbors /\
    forall v, v ∈ neighbors <-> is_Some (get_edge_distance fork 1 v).
Proof. apply (neighbors_are_the_edges fork 1). reflexivity. Defined.

(** py_min / py_max *)
Lemma py_min_le_init (x : Q) (xs : list Q) : (py_min x xs <= x)%Q.
Proof.
  unfold py_min. revert x. induction xs as [|y xs IH]; intros x; cbn; [lra|].
  destruct (Qltb y x) eqn:E.
  - apply Qltb_true in E. specialize (IH y). lra.
  - apply IH.
Qed.

Lemma py_min_le (x : Q) (xs : list Q) (y : Q) : y ∈ xs -> (py_min x xs <= y)%Q.
Proof.
  unfold py_min. revert x. induction xs as [|z xs IH]; intros x Hy.
  { by apply elem_of_nil in Hy. }
  cbn. apply elem_of_cons in Hy as [->|Hy]; [|by apply IH].
  destruct (Qltb z x) eqn:E.
  - apply (py_min_le_init z xs).
  - apply Qltb_false in E. pose proof (py_min_le_init x xs). unfold py_min in *. lra.
Qed.

Lemma py_min_in (x : Q) (xs : list Q) : py_min x xs ∈ x :: xs.
Proof.
  unfold py_min. revert x. induction xs as [|z xs IH]; intros x; cbn; [left|].
  destruct (Qltb z x).
  - right. apply IH.
  - specialize (IH x). apply elem_of_cons in IH as [->|IH]; [left|right; by right].
Qed.

Lemma py_max_ge_init (x : Q) (xs : list Q) : (x <= py_max x xs)%Q.
Proof.
  unfold py_max. revert x. induction xs as [|y xs IH]; intros x; cbn; [lra|].
  destruct (Qltb x y) eqn:E.
  - apply Qltb_true in E. specialize (IH y). lra.
  - apply IH.
Qed.

Lemma py_max_ge (x : Q) (xs : list Q) (y : Q) : y ∈ xs -> (y <= py_max x xs)%Q.
Proof.
  unfold py_max. revert x. induction xs as [|z xs IH]; intros x Hy.
  { by apply elem_of_nil in Hy. }
  cbn. apply elem_of_cons in Hy as [->|Hy]; [|by apply IH].
  destruct (Qltb x z) eqn:E.
  - apply (py_max_ge_init z xs).
  - apply Qltb_false in E. pose proof (py_max_ge_init x xs). unfold py_max in *. lra.
Qed.

Lemma py_max_in (x : Q) (xs : list Q) : py_max x xs ∈ x :: xs.
Proof.
  unfold py_max. revert x. induction xs as [|z xs IH]; intros x; cbn; [left|].
  destruct (Qltb x z).
  - right. apply IH.
  - specialize (IH x). apply elem_of_cons in IH as [->|IH]; [left|right; by right].
Qed.

(** X11.  get_bounds is the tight bounding box: every node lies within
    it, and each of its four sides is the coordinate of some node. *)
Theorem get_bounds_encloses (rn : RoadNetwork) (k : Z) (node : Node) :
  nodes rn !! k = Some node ->
  let '(min_lat, max_lat, min_lon, max_lon) := get_bounds rn in
  ((min_lat <= lat node)%Q /\ (lat node <= max_lat)%Q /\
   (min_lon <= lon node)%Q /\ (lon node <= max_lon)%Q) /\
  (exists k1 n1, nodes rn !! k1 = Some n1 /\ lat n1 = min_lat) /\
  (exists k2 n2, nodes rn !! k2 = Some n2 /\ lat n2 = max_lat) /\
  (exists k3 n3, nodes rn !! k3 = Some n3 /\ lon n3 = min_lon) /\
  (exists k4 n4, nodes rn !! k4 = Some n4 /\ lon n4 = max_lon).
Proof.
  intros Hk. unfold get_bounds.
  assert (forall nd, nd ∈ (map_to_list (nodes rn)).*2 <->
                     exists k', nodes rn !! k' = Some nd) as Hvals.
  { intros nd. rewrite list_elem_of_fmap. split.
    - intros ([k' nd'] & -> & Hin%elem_of_map_to_list). eauto.
    - intros [k' Hk']. exists (k', nd). split; [done|]. by apply elem_of_map_to_list. }
  assert (node ∈ (map_to_list (nodes rn)).*2) as Hin by (apply Hvals; eauto).
  destruct ((map_to_list (nodes rn)).*2) as [|n0 rest] eqn:E.
  { by apply elem_of_nil in Hin. }
  assert (forall (f : Node -> Q) (q : Q), q ∈ f n0 :: (f <$> rest) ->
            exists k' n', nodes rn !! k' = Some n' /\ f n' = q) as Hatt.
  { intros f q Hq. change (f n0 :: (f <$> rest)) with (f <$> (n0 :: rest)) in Hq.
    apply list_elem_of_fmap in Hq as (n' & -> & Hn').
    apply Hvals in Hn' as [k' Hk']. eauto. }
  split; [|split_and!].
  - apply elem_of_cons in Hin as [->|Hin].
    + split_and!; auto using py_min_le_init, py_max_ge_init.
    + split_and!; [apply py_min_le|apply py_max_ge|apply py_min_le|apply py_max_ge];
        apply list_elem_of_fmap; eauto.
  - apply (Hatt lat), py_min_in.
  - apply (Hatt lat), py_max_in.
  - apply (Hatt lon), py_min_in.
  - apply (Hatt lon), py_max_in.
Qed.

Lemma get_bounds_encloses_witness :
  let '(min_lat, max_lat, min_lon, max_lon) := get_bounds fork in
  ((min_lat <= 0)%Q /\ (0 <= max_lat)%Q /\
   (min_lon <= 1 # 100)%Q /\ (1 # 100 <= max_lon)%Q) /\
  (exists k1 n1, nodes fork !! k1 = Some n1 /\ lat n1 = min_lat) /\
  (exists k2 n2, nodes fork !! k2 = Some n2 /\ lat n2 = max_lat) /\
  (exists k3 n3, nodes fork !! k3 = Some n3 /\ lon n3 = min_lon) /\
  (exists k4 n4, nodes fork !! k4 = Some n4 /\ lon n4 = max_lon).
Proof.
  apply (get_bounds_encloses fork 2 (mkNode 2 0 (1 # 100) None)).
  vm_compute. reflexivity.
Defined.

Lemma get_bounds_empty (rn : RoadNetwork) :
  nodes rn = ∅ -> get_bounds rn = (0, 0, 0, 0)%Q.
Proof. intros H. unfold get_bounds. by rewrite H, map_to_list_empty. Qed.

Lemma nearest_fold (geodesic : Q * Q -> Q * Q -> option Q) (lat0 lon0 : Q)
    (items : list (Z * Node)) (d : Q) (id : Z) :
  (forall it, it ∈ items -> is_Some (geodesic (lat0, lon0) (lat it.2, lon it.2))) ->
  exists d' id',
    foldl (nearest_step geodesic lat0 lon0) (Some (Fin d, Some id)) items
    = Some (Fin d', Some id') /\
    (d' <= d)%Q /\
    (forall it dit, it ∈ items ->
       geodesic (lat0, lon0) (lat it.2, lon it.2) = Some dit -> (d' <= dit)%Q) /\
    ((id' = id /\ d' = d) \/
     exists nd, (id', nd) ∈ items /\
                geodesic (lat0, lon0) (lat nd, lon nd) = Some d').
Proof.
  revert d id. induction items as [|[k nd] items IH]; intros d id Hdef.
  { exists d, id. cbn. split_and!; [done|lra| |by left].
    intros it dit Hit. by apply elem_of_nil in Hit. }
  assert (forall it, it ∈ items ->
            is_Some (geodesic (lat0, lon0) (lat it.2, lon it.2))) as Hdef'
    by (intros it Hit; apply Hdef; by right).
  destruct (Hdef (k, nd)) as [dk Hdk]; [left|]. cbn [snd] in Hdk.
  cbn [foldl]. unfold nearest_step at 2. cbn [fst snd]. rewrite Hdk. cbn [xlt fst].
  destruct (Qlt_le_dec dk d) as [Hlt|Hle].
  - destruct (IH dk k Hdef') as (d' & id' & Hf & Hd & Hall & Hwho).
    exists d', id'. split_and!; [done|lra| |].
    + intros it dit [->|Hit]%elem_of_cons Hg; [|by eapply Hall].
      cbn [snd] in Hg. rewrite Hdk in Hg. by injection Hg as <-.
    + right. destruct Hwho as [[-> ->]|(nd' & Hin & Hg)].
      * exists nd. split; [left|done].
      * exists nd'. split; [by right|done].
  - destruct (IH d id Hdef') as (d' & id' & Hf & Hd & Hall & Hwho).
    exists d', id'. split_and!; [done|done| |].
    + intros it dit [->|Hit]%elem_of_cons Hg; [|by eapply Hall].
      cbn [snd] in Hg. rewrite Hdk in Hg. injection Hg as <-. lra.
    + destruct Hwho as [?|(nd' & Hin & Hg)]; [by left|].
      right. exists nd'. split; [by right|done].
Qed.

Lemma nearest_fold_raised (geodesic : Q * Q -> Q * Q -> option Q) (lat0 lon0 : Q)
    (items : list (Z * Node)) :
  foldl (nearest_step geodesic lat0 lon0) None items = None.
Proof. induction items as [|it items IH]; [done|]. apply IH. Qed.

Lemma nearest_fold_raises (geodesic : Q * Q -> Q * Q -> option Q) (lat0 lon0 : Q)
    (items : list (Z * Node)) (acc : option (xfloat * option Z)) (it : Z * Node) :
  it ∈ items ->
  geodesic (lat0, lon0) (lat it.2, lon it.2) = None ->
  foldl (nearest_step geodesic lat0 lon0) acc items = None.
Proof.
  revert acc. induction items as [|it' items IH]; intros acc Hin Hg.
  { by apply elem_of_nil in Hin. }
  apply elem_of_cons in Hin as [<-|Hin]; cbn [foldl].
  - unfold nearest_step at 2. rewrite Hg.
    destruct acc; apply nearest_fold_raised.
  - by apply IH.
Qed.

(** X12.  find_nearest_node returns None on a network without nodes.
    On a network with nodes it raises the ValueError of geodesic when
    geodesic refuses the query against some node, as geopy does for a
    latitude outside [-90, 90]; when geodesic accepts the query against
    every node, it returns a node of the network that no other node is
    strictly nearer than. *)
Theorem find_nearest_node_is_nearest (geodesic : Q * Q -> Q * Q -> option Q)
    (rn : RoadNetwork) (lat0 lon0 : Q) :
  (nodes rn = ∅ -> find_nearest_node geodesic rn lat0 lon0 = Returns None) /\
  (forall k nd, nodes rn !! k = Some nd ->
     geodesic (lat0, lon0) (lat nd, lon nd) = None ->
     find_nearest_node geodesic rn lat0 lon0 = RaisesValueError) /\
  (nodes rn <> ∅ ->
   (forall k nd, nodes rn !! k = Some nd ->
      is_Some (geodesic (lat0, lon0) (lat nd, lon nd))) ->
   exists id node d,
     find_nearest_node geodesic rn lat0 lon0 = Returns (Some id) /\
     nodes rn !! id = Some node /\
     has_node rn id = true /\
     geodesic (lat0, lon0) (lat node, lon node) = Some d /\
     forall k other d', nodes rn !! k = Some other ->
       geodesic (lat0, lon0) (lat other, lon other) = Some d' -> (d <= d')%Q).
Proof.
  unfold find_nearest_node. split_and!.
  { intros ->. by rewrite map_to_list_empty. }
  { intros k nd Hk Hg. apply elem_of_map_to_list in Hk.
    destruct (map_to_list (nodes rn)) as [|it items] eqn:E.
    { by apply elem_of_nil in Hk. }
    by rewrite (nearest_fold_raises geodesic lat0 lon0 (it :: items) _ (k, nd) Hk Hg). }
  intros Hne Hdef.
  destruct (map_to_list (nodes rn)) as [|[k0 n0] items] eqn:E.
  { by apply map_to_list_empty_iff in E. }
  assert (forall it, it ∈ (k0, n0) :: items ->
            is_Some (geodesic (lat0, lon0) (lat it.2, lon it.2))) as Hall0.
  { intros [k nd] Hit. rewrite <- E in Hit. apply elem_of_map_to_list in Hit.
    by apply (Hdef k). }
  destruct (Hall0 (k0, n0)) as [d0 Hd0]; [left|]. cbn [snd] in Hd0.
  cbn [foldl]. unfold nearest_step at 2. cbn [fst snd]. rewrite Hd0. cbn [xlt fst].
  destruct (nearest_fold geodesic lat0 lon0 items d0 k0)
    as (d' & id' & -> & Hd & Hall & Hwho).
  { intros it Hit. apply Hall0. by right. }
  cbn [snd].
  assert (exists node, nodes rn !! id' = Some node /\
                       geodesic (lat0, lon0) (lat node, lon node) = Some d')
    as (node & Hnode & Hgd).
  { destruct Hwho as [[-> ->]|(nd & Hin & Hg)].
    - exists n0. split; [|done]. apply elem_of_map_to_list. rewrite E. left.
    - exists nd. split; [|done]. apply elem_of_map_to_list. rewrite E. by right. }
  exists id', node, d'. split_and!; [done|done| |done|].
  - unfold has_node. rewrite Hnode. by apply bool_decide_eq_true.
  - intros k other dk Hk Hg. apply elem_of_map_to_list in Hk. rewrite E in Hk.
    apply elem_of_cons in Hk as [[= <- <-]|Hk].
    + rewrite Hd0 in Hg. by injection Hg as <-.
    + by apply (Hall (k, other) dk Hk).
Qed.

Lemma find_nearest_node_is_nearest_witness :
  exists id node d,
    find_nearest_node flat_distance fork (1 # 100) (1 # 200) = Returns (Some id) /\
    nodes fork !! id = Some node /\
    has_node fork id = true /\
    flat_distance (1 # 100, 1 # 200) (lat node, lon node) = Some d /\
    forall k other d', nodes fork !! k = Some other ->
      flat_distance (1 # 100, 1 # 200) (lat other, lon other) = Some d' -> (d <= d')%Q.
Proof.
  apply (find_nearest_node_is_nearest flat_distance fork (1 # 100) (1 # 200)).
  - intros H. assert (nodes fork !! 1 = None) as K by (by rewrite H).
    vm_compute in K. discriminate K.
  - intros k nd Hk. apply elem_of_map_to_list in Hk.
    set (items := map_to_list (nodes fork)) in Hk. vm_compute in items. subst items.
    repeat (apply elem_of_cons in Hk as [[= -> ->]|Hk]; [vm_compute; by eexists|]).
    by apply elem_of_nil in Hk.
Defined.

(** On the fork a query at latitude 91 raises. *)
Example find_nearest_node_out_of_range :
  find_nearest_node flat_distance fork 91 0 = RaisesValueError.
Proof. vm_compute. reflexivity. Qed.


(** ** Automatic placement of signals *)

Lemma extends_refl (p : TrafficLightPredictor) : extends_with_drawn p p.
Proof. split; [done|]. intros key tl H1 H2. congruence. Qed.

Lemma extends_trans (p p1 p2 : TrafficLightPredictor) :
  extends_with_drawn p p1 -> extends_with_drawn p1 p2 -> extends_with_drawn p p2.
Proof.
  intros [K1 N1] [K2 N2]. split; [auto|].
  intros key tl Hp H2.
  destruct (traffic_lights p1 !! key) as [tl1|] eqn:E1.
  - rewrite (K2 _ _ E1) in H2. injection H2 as <-. by eapply N1.
  - by eapply N2.
Qed.

Section AutoDetect.
Context (rand : nat -> Q).
Hypothesis Hrand : forall i, (0 <= rand i)%Q /\ (rand i <= 1)%Q.

Lemma place_light_extends (node_id neighbor_id : Z) (p : TrafficLightPredictor) (k : nat) :
  extends_with_drawn p (place_light rand node_id (p, k) neighbor_id).1.
Proof.
  unfold place_light.
  destruct (traffic_lights p !! (node_id, neighbor_id)) eqn:E; [apply extends_refl|].
  unfold add_traffic_light. cbn. split.
  - intros key tl Hk. simpl. rewrite lookup_insert_ne; [done|]. intros <-. congruence.
  - intros key tl Hk. simpl. destruct (decide (key = (node_id, neighbor_id))) as [->|Hne].
    + rewrite lookup_insert_eq. intros [= <-].
      destruct (Hrand k) as [? ?]. destruct (Hrand (S k)) as [? ?].
      destruct (Hrand (S (S (S k)))) as [? ?].
      unfold drawn_light, uniform; cbn.
      split_and!; nra.
    + rewrite lookup_insert_ne by done. congruence.
Qed.

Lemma place_light_pair (node_id neighbor_id : Z) (pk : TrafficLightPredictor * nat) :
  place_light rand node_id pk neighbor_id
  = ((place_light rand node_id pk neighbor_id).1,
     (place_light rand node_id pk neighbor_id).2).
Proof. by destruct (place_light _ _ _ _). Qed.

Lemma foldl_place_light_extends (node_id : Z) (neighbors : list Z)
    (p : TrafficLightPredictor) (k : nat) :
  extends_with_drawn p (foldl (place_light rand node_id) (p, k) neighbors).1.
Proof.
  revert p k. induction neighbors as [|v vs IH]; intros p k; cbn [foldl];
    [apply extends_refl|].
  pose proof (place_light_extends node_id v p k) as H1.
  destruct (place_light rand node_id (p, k) v) as [p1 k1].
  eapply extends_trans; [exact H1|apply IH].
Qed.

Lemma place_lights_extends (rn : RoadNetwork) (junctions : list Z)
    (p : TrafficLightPredictor) (k : nat) (p' : TrafficLightPredictor) (k' : nat) :
  place_lights rand rn junctions (p, k) = Ret (p', k') ->
  extends_with_drawn p p'.
Proof.
  revert p k. induction junctions as [|u us IH]; intros p k; cbn.
  { intros [= <- _]. apply extends_refl. }
  intros (nbrs & _ & H)%bind_Ret.
  pose proof (foldl_place_light_extends u nbrs p k) as H1.
  destruct (foldl (place_light rand u) (p, k) nbrs) as [p1 k1].
  eapply extends_trans; [exact H1|eapply IH, H].
Qed.
End AutoDetect.

(** Where signals are. *)
Lemma place_light_registered (rand : nat -> Q) (node_id neighbor_id : Z)
    (p : TrafficLightPredictor) (k : nat) (key : Z * Z) :
  is_Some (traffic_lights (place_light rand node_id (p, k) neighbor_id).1 !! key) <->
  is_Some (traffic_lights p !! key) \/ key = (node_id, neighbor_id).
Proof.
  unfold place_light.
  destruct (traffic_lights p !! (node_id, neighbor_id)) eqn:E;
    unfold add_traffic_light; simpl.
  - split; [by left|]. intros [?| ->]; [done|]. by rewrite E.
  - rewrite lookup_insert_is_Some. split.
    + intros [<-|[_ ?]]; auto.
    + intros [?| ->]; [|by left].
      destruct (decide ((node_id, neighbor_id) = key)); auto.
Qed.

Lemma foldl_place_light_registered (rand : nat -> Q) (node_id : Z) (neighbors : list Z)
    (p : TrafficLightPredictor) (k : nat) (key : Z * Z) :
  is_Some (traffic_lights (foldl (place_light rand node_id) (p, k) neighbors).1 !! key) <->
  is_Some (traffic_lights p !! key) \/ (key.1 = node_id /\ key.2 ∈ neighbors).
Proof.
  revert p k. induction neighbors as [|v vs IH]; intros p k; cbn [foldl].
  { split; [by left|]. intros [?|[_ H]]; [done|]. by apply elem_of_nil in H. }
  pose proof (place_light_registered rand node_id v p k key) as H1.
  destruct (place_light rand node_id (p, k) v) as [p1 k1]. cbn [fst] in H1.
  rewrite IH, H1.
  rewrite elem_of_cons. destruct key as [a b]. cbn. split.
  - intros [[?|[= -> ->]]|[-> ?]]; auto.
  - intros [?|[-> [->|?]]]; auto.
Qed.

Lemma place_lights_registered (rand : nat -> Q) (rn : RoadNetwork) (junctions : list Z)
    (p : TrafficLightPredictor) (k : nat) (p' : TrafficLightPredictor) (k' : nat)
    (key : Z * Z) :
  place_lights rand rn junctions (p, k) = Ret (p', k') ->
  (is_Some (traffic_lights p' !! key) <->
   is_Some (traffic_lights p !! key) \/
   (key.1 ∈ junctions /\
    exists neighbors, get_neighbors rn key.1 = Ret neighbors /\ key.2 ∈ neighbors)).
Proof.
  revert p k. induction junctions as [|u us IH]; intros p k; cbn.
  { intros [= <- _]. split; [by left|]. intros [?|[H _]]; [done|].
    by apply elem_of_nil in H. }
  intros (nbrs & Hn & H)%bind_Ret.
  pose proof (foldl_place_light_registered rand u nbrs p k key) as H1.
  destruct (foldl (place_light rand u) (p, k) nbrs) as [p1 k1]. cbn [fst] in H1.
  rewrite (IH _ _ H), H1, elem_of_cons. split.
  - intros [[?|[Hu ?]]|[? ?]].
    + by left.
    + right. split; [by left|]. exists nbrs. by rewrite Hu.
    + right. split; [by right|done].
  - intros [?|[[Hu|?] (l & Hl & ?)]].
    + by do 2 left.
    + left. right. split; [done|]. rewrite Hu, Hn in Hl. by injection Hl as <-.
    + right. eauto.
Qed.

Lemma intersection_nodes_spec (rn : RoadNetwork) (node_ids found : list Z) (u : Z) :
  intersection_nodes rn node_ids = Ret found ->
  (u ∈ found <->
   u ∈ node_ids /\
   exists neighbors, get_neighbors rn u = Ret neighbors /\ (2 <= length neighbors)%nat).
Proof.
  revert found. induction node_ids as [|n ns IH]; intros found; cbn.
  { intros [= <-]. split; [intros H|intros [H _]]; by apply elem_of_nil in H. }
  intros (nbrs & Hn & H)%bind_Ret.
  apply bind_Ret in H as (found' & Hf & [= <-]).
  specialize (IH _ Hf). rewrite elem_of_cons.
  case_bool_decide as Hlen.
  - rewrite elem_of_cons, IH. split.
    + intros [Hu|[? ?]]; [|by auto]. split; [by left|]. exists nbrs. by rewrite Hu.
    + intros [[Hu|?] ?]; [by left|]. right. auto.
  - rewrite IH. split.
    + intros [? ?]. auto.
    + intros [[Hu|?] (l & Hl & ?)]; [|by eauto].
      rewrite Hu, Hn in Hl. injection Hl as <-. lia.
Qed.

Lemma auto_detect_from_extends (rand : nat -> Q) (rn : RoadNetwork)
    (node_ids : list Z) (p p' : TrafficLightPredictor) (k k' : nat) :
  (forall i, (0 <= rand i)%Q /\ (rand i <= 1)%Q) ->
  auto_detect_from rand rn node_ids p k = Ret (p', k') ->
  extends_with_drawn p p'.
Proof.
  intros Hrand. unfold auto_detect_from.
  intros (junctions & _ & H)%bind_Ret.
  exact (place_lights_extends rand Hrand rn junctions p k p' k' H).
Qed.

Lemma auto_detect_from_covers (rand : nat -> Q) (rn : RoadNetwork)
    (node_ids : list Z) (p p' : TrafficLightPredictor) (k k' : nat) (u v : Z) :
  auto_detect_from rand rn node_ids p k = Ret (p', k') ->
  (is_Some (traffic_lights p' !! (u, v)) <->
   is_Some (traffic_lights p !! (u, v)) \/
   (u ∈ node_ids /\
    exists neighbors, get_neighbors rn u = Ret neighbors /\
                      (2 <= length neighbors)%nat /\ v ∈ neighbors)).
Proof.
  unfold auto_detect_from. intros (junctions & Hj & H)%bind_Ret.
  rewrite (place_lights_registered rand rn junctions p k p' k' (u, v) H). cbn.
  rewrite (intersection_nodes_spec rn node_ids junctions u Hj).
  split.
  - intros [?|[[? (l & Hl & ?)] (l' & Hl' & ?)]]; [by left|].
    rewrite Hl in Hl'. injection Hl' as <-. right. eauto.
  - intros [?|[? (l & Hl & ? & ?)]]; [by left|]. right. eauto 10.
Qed.

Lemma node_ids_has_node (rn : RoadNetwork) (u : Z) :
  u ∈ (map_to_list (nodes rn)).*1 <-> has_node rn u = true.
Proof.
  unfold has_node. rewrite bool_decide_eq_true, list_elem_of_fmap. split.
  - intros ([k nd] & -> & Hin%elem_of_map_to_list). eauto.
  - intros [nd Hnd]. exists (u, nd). split; [done|]. by apply elem_of_map_to_list.
Qed.

(** X8.  With draws in [0, 1], auto_detect_traffic_lights keeps every
    signal there was, and each one it adds has a cycle of 90 to 150 s,
    green and red durations between 39% and 61% of the cycle (the drawn
    shares are 40% to 60%, up to the rounding of the products) and an
    anchor within one cycle. *)
Theorem auto_detect_draws_bounded_signals (rand : nat -> Q) (rn : RoadNetwork)
    (p p' : TrafficLightPredictor) (k k' : nat) :
  (forall i, (0 <= rand i)%Q /\ (rand i <= 1)%Q) ->
  auto_detect_traffic_lights rand rn p k = Ret (p', k') ->
  extends_with_drawn p p'.
Proof. apply auto_detect_from_extends. Qed.

Lemma auto_detect_draws_bounded_signals_witness :
  extends_with_drawn new_predictor fork_detected.1.
Proof.
  apply (auto_detect_draws_bounded_signals half_draws fork new_predictor
           fork_detected.1 0 fork_detected.2).
  - intros i. split; vm_compute; discriminate.
  - vm_compute. reflexivity.
Defined.

(** X9.  After auto_detect_traffic_lights an edge carries a signal
    exactly when it did before or it leaves a junction, a node with two
    neighbours or more, towards one of its neighbours. *)
Theorem auto_detect_covers_junctions (rand : nat -> Q) (rn : RoadNetwork)
    (p p' : TrafficLightPredictor) (k k' : nat) (u v : Z) :
  auto_detect_traffic_lights rand rn p k = Ret (p', k') ->
  (is_Some (traffic_lights p' !! (u, v)) <->
   is_Some (traffic_lights p !! (u, v)) \/ junction rn u v).
Proof.
  intros H. unfold junction. rewrite <- node_ids_has_node.
  by apply (auto_detect_from_covers rand rn _ p p' k k').
Qed.

Lemma auto_detect_covers_junctions_witness :
  is_Some (traffic_lights fork_detected.1 !! (1, 3)) <->
  is_Some (traffic_lights new_predictor !! (1, 3)) \/ junction fork 1 3.
Proof.
  apply (auto_detect_covers_junctions half_draws fork new_predictor
           fork_detected.1 0 fork_detected.2 1 3).
  vm_compute. reflexivity.
Defined.

(** ** The parent tree of a search *)

Lemma chain_functional (parents : gmap Z Z) (n : Z) (c1 c2 : list Z) :
  chain parents n c1 -> chain parents n c2 -> c1 = c2.
Proof.
  intros H1. revert c2. induction H1 as [n Hn|n p c Hp Hc IH]; intros c2 H2.
  - destruct H2 as [n' _|n' p' c' Hp' _]; [done|congruence].
  - destruct H2 as [n' Hn'|n' p' c' Hp' Hc']; [congruence|].
    rewrite Hp in Hp'. injection Hp' as <-. f_equal. by apply IH.
Qed.

Lemma reconstruct_loop_total (fuel : nat) (parents : gmap Z Z) (n : Z) (acc c : list Z) :
  chain parents n c -> (length c < fuel)%nat ->
  reconstruct_loop fuel parents (Some n) acc = Ret (acc ++ c).
Proof.
  intros Hc. revert fuel acc. induction Hc as [n Hn|n p c Hp Hc IH]; intros fuel acc Hlen.
  - destruct fuel as [|[|fuel]]; cbn in *; [lia..|]. by rewrite Hn.
  - destruct fuel as [|fuel]; cbn in *; [lia|]. rewrite Hp.
    rewrite IH by lia. by rewrite <- app_assoc.
Qed.

Lemma reconstruct_total (fuel : nat) (parents : gmap Z Z) (goal : Z) (c : list Z) :
  chain parents goal c -> (length c < fuel)%nat ->
  reconstruct fuel parents goal = Ret (reverse c).
Proof.
  intros Hc Hlen. unfold reconstruct.
  by rewrite (reconstruct_loop_total fuel parents goal [] c Hc Hlen).
Qed.

Lemma reconstruct_not_raise (fuel : nat) (parents : gmap Z Z) (goal : Z) (e : exn) :
  reconstruct fuel parents goal <> Raise e.
Proof.
  unfold reconstruct.
  assert (forall n acc, reconstruct_loop fuel parents n acc <> Raise e) as H.
  { induction fuel as [|fuel IH]; intros n acc; cbn; [done|].
    destruct n; [apply IH|done]. }
  specialize (H (Some goal) []).
  destruct (reconstruct_loop fuel parents (Some goal) []); cbn; congruence.
Qed.

Lemma is_route_snoc (rn : RoadNetwork) (l : list Z) (p n : Z) :
  last l = Some p -> is_route rn l -> edge rn p n -> is_route rn (l ++ [n]).
Proof.
  intros Hl Hr He. induction l as [|x l IH]; [done|].
  destruct l as [|y l].
  - cbn in Hl. injection Hl as ->. cbn. done.
  - rewrite last_cons_cons in Hl. destruct Hr as [Hxy Hr].
    change ((x :: y :: l) ++ [n]) with (x :: y :: (l ++ [n])).
    split; [done|]. apply (IH Hl Hr).
Qed.

Section Tree.
Context (pow_half : Q -> Q) (self : AStarPathfinder) (start goal : Z).

(** The chain of a closed node. *)
Lemma closed_chain (order : list Z) (st : search) :
  tree_inv self start goal order st ->
  forall i p, order !! i = Some p ->
    exists c,
      chain (parents st) p c /\
      (length c <= S i)%nat /\
      last c = Some start /\
      (forall x, x ∈ c -> exists j, (j <= i)%nat /\ order !! j = Some x) /\
      NoDup c /\
      is_route (road_network self) (reverse c).
Proof.
  intros (T1 & T2 & T3 & T4 & T5 & T6 & T7 & T8 & T9) i.
  induction i as [i IH] using lt_wf_ind. intros p Hi.
  assert (p ∈ closed_set st) as Hpc by (apply T4; by eapply list_elem_of_lookup_2).
  destruct (parents st !! p) as [q|] eqn:Hq.
  - destruct (T3 _ _ Hq) as (Hedge & i' & Hi' & Hlt).
    specialize (Hlt i Hi).
    destruct (IH i' Hlt q Hi') as (c & Hc & Hlen & Hlast & Hall & Hnd & Hroute).
    exists (p :: c). split_and!.
    + by eapply chain_step.
    + cbn. lia.
    + destruct c as [|q' c']; [by inversion Hc|]. by rewrite last_cons_cons.
    + intros x [->|Hx]%elem_of_cons; [eauto|].
      destruct (Hall x Hx) as (j & Hj & Hjx). exists j. split; [lia|done].
    + apply NoDup_cons. split; [|done]. intros Hp.
      destruct (Hall p Hp) as (j & Hj & Hjp).
      pose proof (NoDup_lookup _ _ _ _ T5 Hi Hjp). lia.
    + rewrite reverse_cons. apply (is_route_snoc _ _ q); [|done|done].
      destruct (chain_head _ _ _ Hc) as [c' ->].
      rewrite reverse_cons. apply last_snoc.
  - assert (p = start) as -> by (apply T2; auto).
    exists [start]. split_and!.
    + by apply chain_root.
    + cbn. lia.
    + done.
    + intros x ->%list_elem_of_singleton. eauto.
    + apply NoDup_singleton.
    + done.
Qed.

(** The chain of the goal, once it is on the frontier. *)
Lemma goal_chain (order : list Z) (st : search) :
  tree_inv self start goal order st ->
  start <> goal ->
  is_Some (g_costs st !! goal) ->
  exists c,
    chain (parents st) goal c /\
    (length c <= S (length order))%nat /\
    head c = Some goal /\
    last c = Some start /\
    NoDup c /\
    is_route (road_network self) (reverse c).
Proof.
  intros Hinv Hsg Hg.
  pose proof Hinv as (T1 & T2 & T3 & T4 & T5 & T6 & T7 & T8 & T9).
  destruct (parents st !! goal) as [q|] eqn:Hq.
  2:{ exfalso. apply Hsg. symmetry. by apply T2. }
  destruct (T3 _ _ Hq) as (Hedge & i & Hi & _).
  destruct (closed_chain order st Hinv i q Hi) as (c & Hc & Hlen & Hlast & Hall & Hnd & Hroute).
  exists (goal :: c). split_and!.
  - by eapply chain_step.
  - cbn. apply lookup_lt_Some in Hi. lia.
  - done.
  - destruct c as [|q' c']; [by inversion Hc|]. by rewrite last_cons_cons.
  - apply NoDup_cons. split; [|done]. intros Hgc.
    destruct (Hall goal Hgc) as (j & _ & Hj).
    apply T6, T4. by eapply list_elem_of_lookup_2.
  - rewrite reverse_cons. apply (is_route_snoc _ _ q); [|done|done].
    destruct (chain_head _ _ _ Hc) as [c' ->].
    rewrite reverse_cons. apply last_snoc.
Qed.

Lemma relax_tree (order : list Z) (current : PathNode) (st st' : search)
    (neighbors : list Z) (v : Z) :
  tree_inv self start goal order st ->
  start ∈ closed_set st ->
  node_id current ∈ closed_set st ->
  get_neighbors (road_network self) (node_id current) = Ret neighbors ->
  v ∈ neighbors ->
  relax pow_half self goal current st v = Ret st' ->
  tree_inv self start goal order st' /\ closed_set st' = closed_set st.
Proof.
  intros (T1 & T2 & T3 & T4 & T5 & T6 & T7 & T8 & T9) Hs Hcur Hn Hv H.
  apply relax_inv in H
    as [[-> _]|(Hvc & d & w & gcur & Hd & Hw & Hgc & Hcl & _ & _ & H)].
  { split; [|done]. unfold tree_inv. split_and!; done. }
  split; [|done].
  assert (v <> start) as Hvs by (intros ->; done).
  destruct H as [(Ho & Hg & Hp & _)|(Ho & Hg & Hp & _)];
    unfold tree_inv; rewrite Ho, Hg, Hp, Hcl.
  - split_and!; try done.
    + by rewrite lookup_insert_ne.
    + intros n Hsome. destruct (decide (n = v)) as [->|Hne].
      * by rewrite lookup_insert_eq.
      * rewrite lookup_insert_ne in Hsome by done. rewrite lookup_insert_ne by done.
        by apply T2.
    + intros n p. destruct (decide (n = v)) as [->|Hne].
      * rewrite lookup_insert_eq. intros [= <-]. split.
        -- exists neighbors. split_and!; [done|done|]. rewrite Hd. eauto.
        -- apply T4, list_elem_of_lookup in Hcur as [i Hi]. exists i. split; [done|].
           intros j Hj. exfalso. apply Hvc, T4. by eapply list_elem_of_lookup_2.
      * rewrite lookup_insert_ne by done. apply T3.
    + intros x Hx. rewrite heappush_perm in Hx.
      apply lookup_insert_is_Some'.
      apply elem_of_cons in Hx as [->|Hx]; [by left|right; auto].
    + intros n Hn'. apply lookup_insert_is_Some'. right. auto.
    + by left.
  - split_and!; done.
Qed.

Lemma for_each_tree (order : list Z) (current : PathNode) (neighbors nbrs : list Z)
    (st st' : search) :
  tree_inv self start goal order st ->
  start ∈ closed_set st ->
  node_id current ∈ closed_set st ->
  get_neighbors (road_network self) (node_id current) = Ret neighbors ->
  (forall v, v ∈ nbrs -> v ∈ neighbors) ->
  for_each (relax pow_half self goal current) nbrs st = Ret st' ->
  tree_inv self start goal order st'.
Proof.
  revert st. induction nbrs as [|v nbrs IH]; intros st Hinv Hs Hcur Hn Hsub; cbn.
  { by intros [= <-]. }
  intros (st1 & H1 & H2)%bind_Ret.
  destruct (relax_tree order current st st1 neighbors v) as [Hinv1 Hcl1]; auto.
  { apply Hsub. left. }
  apply (IH st1); auto; try (by rewrite Hcl1).
  intros v' Hv'. apply Hsub. by right.
Qed.

(** Opening a node: it goes last in the closing order. *)
Lemma close_tree (order : list Z) (current : PathNode) (rest : list PathNode)
    (st : search) (stats' : gmap string pyval) :
  tree_inv self start goal order st ->
  open_list st ≡ₚ current :: rest ->
  node_id current <> goal ->
  node_id current ∉ closed_set st ->
  tree_inv self start goal (order ++ [node_id current])
    {| open_list := rest;
       closed_set := {[node_id current]} ∪ closed_set st;
       g_costs := g_costs st;
       parents := parents st;
       stats := stats';
       current_time := current_time st |} /\
  start ∈ ({[node_id current]} ∪ closed_set st : gset Z).
Proof.
  intros (T1 & T2 & T3 & T4 & T5 & T6 & T7 & T8 & T9) Hpop Hng Hnc.
  assert (current ∈ open_list st) as Hcur by (rewrite Hpop; left).
  assert (start ∈ ({[node_id current]} ∪ closed_set st : gset Z)) as Hs.
  { destruct T9 as [?|[_ Hall]]; [by apply elem_of_union_r|].
    rewrite <- (Hall current Hcur). by apply elem_of_union_l, elem_of_singleton. }
  split; [|done]. unfold tree_inv; cbn. split_and!; try done.
  - intros n p Hnp. destruct (T3 _ _ Hnp) as (He & i & Hi & Hlt). split; [done|].
    exists i. split; [by apply lookup_app_l_Some|].
    intros j Hj. apply lookup_app_Some in Hj as [Hj|[Hge Hj]]; [by apply Hlt|].
    apply lookup_lt_Some in Hi. lia.
  - intros n. rewrite elem_of_union, elem_of_singleton, elem_of_app, list_elem_of_singleton.
    rewrite T4. tauto.
  - apply NoDup_app. split_and!; [done| |apply NoDup_singleton].
    intros x Hx ->%list_elem_of_singleton. by apply Hnc, T4.
  - rewrite elem_of_union, elem_of_singleton. intros [?|?]; [congruence|done].
  - intros x Hx. apply T7. rewrite Hpop. by right.
  - intros n [->%elem_of_singleton|Hn]%elem_of_union; auto.
  - by left.
Qed.

Lemma skip_tree (order : list Z) (current : PathNode) (rest : list PathNode)
    (st : search) :
  tree_inv self start goal order st ->
  open_list st ≡ₚ current :: rest ->
  node_id current ∈ closed_set st ->
  tree_inv self start goal order
    {| open_list := rest;
       closed_set := closed_set st;
       g_costs := g_costs st;
       parents := parents st;
       stats := stats st;
       current_time := current_time st |}.
Proof.
  intros (T1 & T2 & T3 & T4 & T5 & T6 & T7 & T8 & T9) Hpop Hc.
  assert (current ∈ open_list st) as Hcur by (rewrite Hpop; left).
  unfold tree_inv; cbn. split_and!; try done.
  - intros x Hx. apply T7. rewrite Hpop. by right.
  - left. destruct T9 as [?|[_ Hall]]; [done|]. by rewrite <- (Hall current Hcur).
Qed.
End Tree.

(** ** What the frontier loop returns and raises *)

Lemma count_wait_stats_ok (n : nat) (w : Q) (s : gmap string pyval) :
  stats_ok n s -> exists s', count_wait w s = Ret s' /\ stats_ok n s'.
Proof.
  intros (Hn & k & w0 & Hk & Hw & Hk0 & Hw0 & Hiff). unfold count_wait.
  destruct (Qltb 0 w) eqn:E.
  - apply Qltb_true in E.
    rewrite (dict_iadd_Ret _ _ _ _ Hk). cbn.
    rewrite (dict_iadd_Ret "total_wait_time" (PyFloat w) _ (PyFloat w0))
      by (by rewrite lookup_insert_ne).
    eexists. split; [done|]. split.
    + by rewrite !lookup_insert_ne.
    + exists (k + 1), (w0 + w)%Q. split_and!.
      * rewrite lookup_insert_ne by done. by rewrite lookup_insert_eq.
      * by rewrite lookup_insert_eq.
      * lia.
      * lra.
      * split; [lia|]. intros Hz. lra.
  - exists s. split; [done|]. split; [done|]. exists k, w0. done.
Qed.

Lemma stats_ok_close (n : nat) (s : gmap string pyval) :
  stats_ok n s ->
  exists s', dict_iadd "nodes_explored" (PyInt 1) s = Ret s' /\ stats_ok (S n) s'.
Proof.
  intros (Hn & k & w0 & Hk & Hw & Hrest).
  rewrite (dict_iadd_Ret _ _ _ _ Hn). eexists. split; [done|]. split.
  - rewrite lookup_insert_eq. cbn. do 2 f_equal. lia.
  - exists k, w0. rewrite !lookup_insert_ne by done. done.
Qed.

Lemma get_wait_time_outcome (p : TrafficLightPredictor) (from_node to_node : Z) (t : Q) :
  (exists w, get_wait_time p from_node to_node t = Ret w) \/
  (get_wait_time p from_node to_node t = Raise ZeroDivisionError /\
   exists tl, traffic_lights p !! (from_node, to_node) = Some tl /\
              (cycle_time tl == 0)%Q).
Proof.
  unfold get_wait_time.
  destruct (traffic_lights p !! (from_node, to_node)) as [tl|] eqn:Hl; [|left; eauto].
  destruct (Qeq_dec (cycle_time tl) 0) as [Hz|Hnz].
  - right. unfold light_wait. rewrite (py_mod_zero _ _ Hz). eauto.
  - left. rewrite light_wait_unfold by done. cbv zeta.
    destruct (String.eqb _ _); repeat (destruct (Qltb _ _)); eauto.
Qed.

Section Loop.
Context (pow_half : Q -> Q) (self : AStarPathfinder) (start goal : Z).

Lemma relax_outcome (current : PathNode) (st : search) (v : Z) (n : nat) :
  is_Some (g_costs st !! node_id current) ->
  stats_ok n (stats st) ->
  (exists st', relax pow_half self goal current st v = Ret st' /\
               stats_ok n (stats st') /\
               is_Some (g_costs st' !! node_id current)) \/
  (relax pow_half self goal current st v = Raise ZeroDivisionError /\
   has_zero_cycle (traffic_predictor self)).
Proof.
  intros [g Hg] Hst. unfold relax. case_bool_decide; [left; eauto|].
  unfold get_edge_cost.
  destruct (get_edge_distance _ _ v) as [d|]; [|cbn; left; eauto].
  destruct (get_wait_time_outcome (traffic_predictor self) (node_id current) v
              (current_time st)) as [[w Hw]|[Hr (tl & Hl & Hz)]].
  2:{ right. rewrite Hr. cbn. split; [done|]. exists (node_id current, v), tl. done. }
  rewrite Hw. cbn.
  destruct (count_wait_stats_ok n w (stats st) Hst) as (s' & Hs' & Hok).
  unfold count_wait in Hs'. rewrite Hs'. cbn. rewrite Hg. cbn.
  left. destruct (match g_costs st !! v with Some g0 => _ | None => true end);
    eexists; (split; [done|]); cbn; (split; [done|]).
  - apply lookup_insert_is_Some'. right. by rewrite Hg.
  - by rewrite Hg.
Qed.

Lemma for_each_outcome (current : PathNode) (nbrs : list Z) (st : search) (n : nat) :
  is_Some (g_costs st !! node_id current) ->
  stats_ok n (stats st) ->
  (exists st', for_each (relax pow_half self goal current) nbrs st = Ret st' /\
               stats_ok n (stats st')) \/
  (for_each (relax pow_half self goal current) nbrs st = Raise ZeroDivisionError /\
   has_zero_cycle (traffic_predictor self)).
Proof.
  revert st. induction nbrs as [|v nbrs IH]; intros st Hg Hst; cbn; [left; eauto|].
  destruct (relax_outcome current st v n Hg Hst) as [(st1 & -> & Hst1 & Hg1)|[-> Hz]].
  - cbn. by apply IH.
  - right. done.
Qed.

Lemma set_size_order (order : list Z) (closed : gset Z) :
  NoDup order -> (forall n, n ∈ closed <-> n ∈ order) -> size closed = length order.
Proof.
  intros Hnd Hiff. rewrite <- (size_list_to_set (C := gset Z) order Hnd).
  f_equal. apply set_eq. intros n. rewrite elem_of_list_to_set. apply Hiff.
Qed.

(** What a return of the frontier loop looks like. *)
Lemma search_loop_shape (order : list Z) (fuel0 fuel : nat) (st : search)
    (path : list Z) (cost : xfloat) (stats' : gmap string pyval) :
  start <> goal ->
  tree_inv self start goal order st ->
  stats_ok (size (closed_set st)) (stats st) ->
  search_loop pow_half self fuel0 fuel goal st = Ret (path, cost, stats') ->
  exists n,
    stats_ok n stats' /\ (1 <= n)%nat /\
    (path <> [] ->
     head path = Some start /\ last path = Some goal /\ NoDup path /\
     is_route (road_network self) path /\ (length path <= S n)%nat).
Proof.
  intros Hsg. revert order st.
  induction fuel as [|fuel IH]; intros order st Hinv Hst; cbn; [done|].
  pose proof Hinv as (T1 & T2 & T3 & T4 & T5 & T6 & T7 & T8 & T9).
  destruct (open_list st) as [|x0 l0] eqn:Hol.
  { intros [= <- _ <-]. exists (size (closed_set st)). split; [done|].
    destruct T9 as [Hs|[? _]]; [|done]. split; [|done].
    assert (size (closed_set st) <> 0%nat); [|lia].
    apply size_non_empty_iff. intros He. by apply He in Hs. }
  destruct (heappop (x0 :: l0)) as [[current rest]|] eqn:Hpop; [|done].
  apply heappop_perm in Hpop. rewrite <- Hol in Hpop.
  rewrite <- Hol in T7, T9.
  assert (current ∈ open_list st) as Hcur by (rewrite Hpop; left).
  case_bool_decide as Hgoal.
  - intros (p & Hp & [= <- <- <-])%bind_Ret.
    unfold reconstruct in Hp. apply bind_Ret in Hp as (l & Hl & [= <-]).
    apply reconstruct_loop_chain in Hl as (c & -> & Hc). rewrite app_nil_l.
    destruct (goal_chain self start goal order st Hinv Hsg)
      as (c' & Hc' & Hlen & Hhd & Hlast & Hnd & Hroute).
    { rewrite <- Hgoal. by apply T7. }
    rewrite (chain_functional _ _ _ _ Hc Hc').
    assert (start ∈ closed_set st) as Hs.
    { destruct T9 as [?|[_ Hall]]; [done|]. exfalso. apply Hsg.
      rewrite <- (Hall current Hcur). done. }
    exists (size (closed_set st)). split; [done|]. split.
    { assert (size (closed_set st) <> 0%nat); [|lia].
      apply size_non_empty_iff. intros He. by apply He in Hs. }
    intros _. split_and!.
    + by rewrite head_reverse.
    + by rewrite last_reverse.
    + by rewrite reverse_Permutation.
    + done.
    + rewrite length_reverse, (set_size_order order) by done. done.
  - case_bool_decide as Hclosed.
    + apply (IH order); [by apply (skip_tree self start goal order current)|done].
    + destruct (stats_ok_close _ _ Hst) as (s1 & -> & Hs1). cbn.
      intros (nbrs & Hn & H)%bind_Ret.
      apply bind_Ret in H as (st1 & Hfe & H).
      destruct (close_tree self start goal order current rest st s1 Hinv Hpop Hgoal Hclosed)
        as [Hinv0 Hs0].
      revert H. apply (IH (order ++ [node_id current])).
      * eapply (for_each_tree pow_half self start goal _ current nbrs nbrs);
          [exact Hinv0|done| |done|done|exact Hfe].
        cbn. by apply elem_of_union_l, elem_of_singleton.
      * rewrite (for_each_closed _ _ _ _ _ _ _ Hfe). cbn.
        rewrite size_union by (apply disjoint_singleton_l; done).
        rewrite size_singleton.
        destruct (for_each_outcome current nbrs
                    {| open_list := rest;
                       closed_set := {[node_id current]} ∪ closed_set st;
                       g_costs := g_costs st; parents := parents st;
                       stats := s1; current_time := current_time st |}
                    (S (size (closed_set st))))
          as [(st1' & Hfe' & Hok)|[Hfe' _]]; cbn; [by apply T7|done| |].
        -- rewrite Hfe in Hfe'. by injection Hfe' as <-.
        -- rewrite Hfe in Hfe'. done.
Qed.

(** What the frontier loop can raise. *)
Lemma search_loop_raises (order : list Z) (fuel0 fuel : nat) (st : search) (e : exn) :
  tree_inv self start goal order st ->
  stats_ok (size (closed_set st)) (stats st) ->
  search_loop pow_half self fuel0 fuel goal st = Raise e ->
  (e = ZeroDivisionError /\ has_zero_cycle (traffic_predictor self)) \/
  (e = NetworkXError /\ is_Some (graph (road_network self))).
Proof.
  revert order st.
  induction fuel as [|fuel IH]; intros order st Hinv Hst; cbn; [done|].
  pose proof Hinv as (T1 & T2 & T3 & T4 & T5 & T6 & T7 & T8 & T9).
  destruct (open_list st) as [|x0 l0] eqn:Hol; [done|].
  destruct (heappop_is_Some (x0 :: l0)) as [[current rest] Hpop]; [done|].
  rewrite Hpop. apply heappop_perm in Hpop. rewrite <- Hol in Hpop.
  rewrite <- Hol in T7.
  assert (current ∈ open_list st) as Hcur by (rewrite Hpop; left).
  case_bool_decide as Hgoal.
  - pose proof (reconstruct_not_raise fuel0 (parents st) goal) as Hr.
    destruct (reconstruct fuel0 (parents st) goal); cbn; [done| |done].
    intros [= <-]. by destruct (Hr e0).
  - case_bool_decide as Hclosed.
    + apply (IH order); [by apply (skip_tree self start goal order current)|done].
    + destruct (stats_ok_close _ _ Hst) as (s1 & -> & Hs1). cbn.
      destruct (get_neighbors (road_network self) (node_id current)) as [nbrs|e'|] eqn:Hn;
        cbn; [| |done].
      2:{ intros [= <-]. right. unfold get_neighbors in Hn.
          destruct (graph (road_network self)) as [g|]; [|done].
          destruct (g !! node_id current); [done|].
          injection Hn as <-. eauto. }
      destruct (close_tree self start goal order current rest st s1 Hinv Hpop Hgoal Hclosed)
        as [Hinv0 Hs0].
      destruct (for_each_outcome current nbrs
                  {| open_list := rest;
                     closed_set := {[node_id current]} ∪ closed_set st;
                     g_costs := g_costs st; parents := parents st;
                     stats := s1; current_time := current_time st |}
                  (S (size (closed_set st))))
        as [(st1 & Hfe & Hok)|[Hfe Hz]]; cbn; [by apply T7|done| |].
      * rewrite Hfe. cbn. apply (IH (order ++ [node_id current])).
        -- eapply (for_each_tree pow_half self start goal _ current nbrs nbrs);
             [exact Hinv0|done| |done|done|exact Hfe].
           cbn. by apply elem_of_union_l, elem_of_singleton.
        -- rewrite (for_each_closed _ _ _ _ _ _ _ Hfe). cbn.
           rewrite size_union by (apply disjoint_singleton_l; done).
           by rewrite size_singleton.
      * rewrite Hfe. cbn. intros [= <-]. by left.
Qed.

Lemma initial_tree (t : Q) :
  tree_inv self start goal [] (initial_search pow_half self start goal t) /\
  stats_ok (size (closed_set (initial_search pow_half self start goal t)))
    (stats (initial_search pow_half self start goal t)).
Proof.
  unfold tree_inv, initial_search; cbn. split_and!; try done.
  - intros n [g [-> _]%lookup_singleton_Some]. done.
  - intros n. split; intros H; [by apply elem_of_empty in H|by apply elem_of_nil in H].
  - by apply NoDup_nil.
  - intros x ->%list_elem_of_singleton. cbn. rewrite lookup_singleton_eq. eauto.
  - right. split; [done|]. by intros x ->%list_elem_of_singleton.
  - rewrite size_empty. split; [done|]. exists 0, 0%Q.
    split_and!; [done|done|lia|lra|done].
Qed.
End Loop.

(** ** The pathfinder *)

Section Total.
Context (pow_half : Q -> Q) (self : AStarPathfinder) (start goal : Z) (R : gset Z).
Hypothesis Hwf : wf_predictor (traffic_predictor self).
Hypothesis HR : forall n, n ∈ R <-> reachable (road_network self) start n.
Hypothesis Hnb : forall n, n ∈ R ->
  exists succs, get_neighbors (road_network self) n = Ret succs.

Lemma search_loop_total (order : list Z) (fuel0 fuel : nat) (st : search) :
  start <> goal ->
  exh_inv self start R None st ->
  tree_inv self start goal order st ->
  (measure self R st < fuel)%nat ->
  (size R + 2 <= fuel0)%nat ->
  exists path cost stats',
    search_loop pow_half self fuel0 fuel goal st = Ret (path, cost, stats') /\
    (goal ∈ R -> path <> [] /\ exists c, cost = Fin c).
Proof.
  intros Hsg. revert order st.
  induction fuel as [|fuel IH]; intros order st Hinv Htree Hfuel Hfuel0; [lia|].
  cbn. destruct (open_list st) as [|x0 l0] eqn:Hol.
  { do 3 eexists. split; [done|]. intros HgR. exfalso.
    rewrite <- (closed_is_R self start R HR st Hinv Hol) in HgR.
    destruct Htree as (_ & _ & _ & _ & _ & T6 & _). done. }
  destruct (heappop_is_Some (x0 :: l0)) as [[current rest] Hpop]; [done|].
  rewrite Hpop. apply heappop_perm in Hpop. rewrite <- Hol in Hpop.
  assert (current ∈ open_list st) as Hcur by (rewrite Hpop; left).
  assert (forall x, x ∈ rest -> x ∈ open_list st) as Hrest
    by (intros x Hx; rewrite Hpop; by right).
  assert (length (open_list st) = S (length rest)) as Hlen by (by rewrite Hpop).
  pose proof Hinv as (Ha & Hb & Hc & Hd & He & (Hf & Hk1 & Hk2) & Hg & Hh).
  pose proof Htree as (T1 & T2 & T3 & T4 & T5 & T6 & T7 & T8 & T9).
  assert (node_id current ∈ R) as HcR by auto.
  unfold measure in Hfuel.
  case_bool_decide as Hgoal.
  - destruct (goal_chain self start goal order st Htree Hsg)
      as (c & Hc' & Hclen & _ & _ & _ & _).
    { rewrite <- Hgoal. by apply Hg. }
    rewrite (reconstruct_total fuel0 (parents st) goal c Hc').
    + cbn -[reverse]. do 3 eexists. split; [done|]. intros _. split; [|eauto].
      destruct (chain_head _ _ _ Hc') as [c' ->]. rewrite reverse_cons.
      intros Hnil. by apply app_nil in Hnil as [_ ?].
    + rewrite <- (set_size_order order (closed_set st)) in Hclen by done.
      pose proof (subseteq_size _ _ Ha). lia.
  - case_bool_decide as Hcl.
    + apply (IH order).
      * unfold exh_inv; cbn. split_and!; auto.
        intros n [?|(x & Hx & Hn)]%Hc; [by left|].
        rewrite Hpop in Hx. apply elem_of_cons in Hx as [->|Hx]; [left; by rewrite <- Hn|].
        right. eauto.
      * by apply (skip_tree self start goal order current).
      * unfold measure; cbn. lia.
      * done.
    + rewrite (dict_iadd_Ret _ _ _ _ Hf). cbn.
      destruct (Hnb _ HcR) as [nbrs Hnbrs]. rewrite Hnbrs. cbn.
      set (s1 := <["nodes_explored"%string := _]> (stats st)).
      destruct (close_tree self start goal order current rest st s1 Htree Hpop Hgoal Hcl)
        as [Htree0 Hs0].
      set (st0 := {| open_list := rest |}) in *.
      destruct (for_each_exh pow_half self start goal R Hwf current nbrs st0)
        as (st' & Hfe & Hinv' & Hcl' & Hlen' & Hmono & Hnew).
      { cbn. apply elem_of_union_l, elem_of_singleton. done. }
      { unfold exh_inv; cbn. split_and!; auto.
        - intros n [->%elem_of_singleton|Hn]%elem_of_union; auto.
        - intros n [?|(x & Hx & Hn)]%Hc; [left; by apply elem_of_union_r|].
          rewrite Hpop in Hx. apply elem_of_cons in Hx as [->|Hx].
          + left. apply elem_of_union_l, elem_of_singleton. done.
          + right. eauto.
        - intros u v [->%elem_of_singleton|Hu]%elem_of_union Hne; [done|].
          by apply He.
        - unfold s1. rewrite lookup_insert_eq. cbn. do 2 f_equal.
          rewrite size_union by (apply disjoint_singleton_l; done).
          rewrite size_singleton. lia.
        - unfold s1. by rewrite lookup_insert_ne.
        - unfold s1. by rewrite lookup_insert_ne.
        - intros n [->%elem_of_singleton|Hn]%elem_of_union; auto. }
      { intros v Hv Hsome. apply HR. eapply rtc_r; [by apply HR|].
        exists nbrs. done. }
      rewrite Hfe. cbn. apply (IH (order ++ [node_id current])).
      * destruct Hinv' as (Ha' & Hb' & Hc' & Hd' & He' & (Hf' & Hk1' & Hk2') & Hg' & Hh').
        unfold exh_inv. split_and!; auto.
        intros u v Hu _ Huv. destruct (decide (u = node_id current)) as [->|Hne].
        -- destruct Huv as (succs & Hs & Hv & Hsome).
           rewrite Hnbrs in Hs. injection Hs as <-. by apply Hnew.
        -- apply (He' u v); [done|congruence|done].
      * eapply (for_each_tree pow_half self start goal _ current nbrs nbrs);
          [exact Htree0|done| |done|done|exact Hfe].
        cbn. by apply elem_of_union_l, elem_of_singleton.
      * unfold measure. rewrite Hcl'. cbn.
        rewrite (measure_close self R (closed_set st) (node_id current)) in Hfuel by done.
        unfold out_degree in Hfuel at 1. rewrite Hnbrs in Hfuel.
        cbn in Hlen'. lia.
      * done.
Qed.
End Total.

(** X15.  When the goal is reachable from the start, over valid signals
    and with fuel for search_budget + |R| iterations, find_path returns
    a non-empty path with a finite cost: it neither fails nor raises nor
    runs on. *)
Theorem find_path_reaches_goal (pow_half : Q -> Q) (self : AStarPathfinder)
    (fuel : nat) (start goal : Z) (t : Q) (R : gset Z) :
  wf_predictor (traffic_predictor self) ->
  has_node (road_network self) start = true ->
  has_node (road_network self) goal = true ->
  (forall n, n ∈ R <-> reachable (road_network self) start n) ->
  goal ∈ R ->
  (forall n, n ∈ R -> exists succs, get_neighbors (road_network self) n = Ret succs) ->
  (search_budget (road_network self) R + size R <= fuel)%nat ->
  exists path c stats',
    find_path pow_half self fuel start goal t = Ret (path, Fin c, stats') /\
    path <> [].
Proof.
  intros Hwf Hs Hg HR Hgoal Hnb Hfuel.
  unfold find_path. case_bool_decide as Hsg.
  { exists [start], 0%Q, ∅. done. }
  rewrite Hs, Hg. cbn [negb orb].
  assert (start ∈ R) as HsR by (apply HR; apply rtc_refl).
  destruct (initial_tree pow_half self start goal t) as [Htree _].
  destruct (search_loop_total pow_half self start goal R Hwf HR Hnb [] fuel fuel
              (initial_search pow_half self start goal t))
    as (path & cost & stats' & Hrun & Hres); auto.
  - unfold exh_inv, initial_search; cbn. split_and!.
    + apply empty_subseteq.
    + by intros x ->%list_elem_of_singleton.
    + intros n [g [-> _]%lookup_singleton_Some]. right. eexists. split; [left|done].
    + rewrite lookup_singleton_eq. eauto.
    + intros u v Hu. by apply elem_of_empty in Hu.
    + by rewrite size_empty.
    + done.
    + done.
    + intros x ->%list_elem_of_singleton. cbn. rewrite lookup_singleton_eq. eauto.
    + intros n Hn. by apply elem_of_empty in Hn.
  - unfold measure, initial_search, search_budget in *; cbn.
    rewrite difference_empty_L. lia.
  - unfold search_budget in Hfuel. lia.
  - destruct (Hres Hgoal) as [Hne [c ->]]. eauto.
Qed.

Lemma find_path_reaches_goal_witness :
  exists path c stats',
    find_path sqrt_approx fork_finder 7 1 3 0 = Ret (path, Fin c, stats') /\
    path <> [].
Proof.
  apply (find_path_reaches_goal sqrt_approx fork_finder 7 1 3 0 {[1; 2; 3]}).
  - exact fork_signal_wf.
  - reflexivity.
  - reflexivity.
  - exact fork_reachable.
  - rewrite !elem_of_union, !elem_of_singleton. lia.
  - intros n _. unfold get_neighbors. cbn. eauto.
  - vm_compute. lia.
Defined.

(** X14.  Every non-empty path that find_path returns starts at the
    start node, ends at the goal, visits no node twice, and each of its
    steps is an edge: a listed neighbour with a distance. *)
Theorem find_path_is_route (pow_half : Q -> Q) (self : AStarPathfinder)
    (fuel : nat) (start goal : Z) (t : Q)
    (path : list Z) (cost : xfloat) (stats' : gmap string pyval) :
  find_path pow_half self fuel start goal t = Ret (path, cost, stats') ->
  path <> [] ->
  head path = Some start /\ last path = Some goal /\ NoDup path /\
  is_route (road_network self) path.
Proof.
  unfold find_path. case_bool_decide as Hsg.
  { intros [= <- _ _] _. subst goal. split_and!; try done. apply NoDup_singleton. }
  destruct (_ || _).
  { intros [= <- _ _]. done. }
  intros Hrun Hne.
  destruct (initial_tree pow_half self start goal t) as [Htree Hst].
  destruct (search_loop_shape pow_half self start goal [] fuel fuel _ path cost stats'
              Hsg Htree Hst Hrun) as (n & _ & _ & Hshape).
  destruct (Hshape Hne) as (? & ? & ? & ? & _). done.
Qed.

Lemma find_path_is_route_witness :
  head [1; 3] = Some 1 /\ last [1; 3] = Some 3 /\ NoDup [1; 3] /\
  is_route (road_network fork_finder) [1; 3].
Proof.
  apply (find_path_is_route sqrt_approx fork_finder 10 1 3 0
           [1; 3] fork_run.1.2 fork_run.2).
  - vm_compute. reflexivity.
  - discriminate.
Defined.

(** X16.  Every stats dict that a search returns, other than the empty
    one of the two shortcuts, holds the three counts: at least one node
    explored, at least the nodes of the path but its last, and a total
    wait that is zero exactly when no signal was counted. *)
Theorem find_path_stats (pow_half : Q -> Q) (self : AStarPathfinder)
    (fuel : nat) (start goal : Z) (t : Q)
    (path : list Z) (cost : xfloat) (stats' : gmap string pyval) :
  find_path pow_half self fuel start goal t = Ret (path, cost, stats') ->
  stats' <> ∅ ->
  exists (n : nat) (k : Z) (w : Q),
    stats' !! "nodes_explored"%string = Some (PyInt (Z.of_nat n)) /\
    stats' !! "traffic_lights_encountered"%string = Some (PyInt k) /\
    stats' !! "total_wait_time"%string = Some (PyFloat w) /\
    (1 <= n)%nat /\ (length path <= S n)%nat /\
    0 <= k /\ (0 <= w)%Q /\ (k = 0 <-> (w == 0)%Q).
Proof.
  unfold find_path. case_bool_decide as Hsg.
  { intros [= _ _ <-]. done. }
  destruct (_ || _).
  { intros [= _ _ <-]. done. }
  intros Hrun _.
  destruct (initial_tree pow_half self start goal t) as [Htree Hst].
  destruct (search_loop_shape pow_half self start goal [] fuel fuel _ path cost stats'
              Hsg Htree Hst Hrun) as (n & (Hn & k & w & Hk & Hw & Hrest) & Hn1 & Hshape).
  exists n, k, w. split_and!; try done; try apply Hrest.
  destruct path as [|x path']; [cbn; lia|].
  by destruct (Hshape ltac:(done)) as (_ & _ & _ & _ & ?).
Qed.

Lemma find_path_stats_witness :
  exists (n : nat) (k : Z) (w : Q),
    red_run_stats !! "nodes_explored"%string = Some (PyInt (Z.of_nat n)) /\
    red_run_stats !! "traffic_lights_encountered"%string = Some (PyInt k) /\
    red_run_stats !! "total_wait_time"%string = Some (PyFloat w) /\
    (1 <= n)%nat /\ (length [1; 2] <= S n)%nat /\
    0 <= k /\ (0 <= w)%Q /\ (k = 0 <-> (w == 0)%Q).
Proof.
  apply (find_path_stats sqrt_approx red_finder 10 1 2 0 [1; 2] red_run_cost red_run_stats).
  - vm_compute. reflexivity.
  - intros H. assert (red_run_stats !! "nodes_explored"%string = None) as K
      by (by rewrite H).
    vm_compute in K. discriminate K.
Defined.

(** X17.  find_path raises nothing of its own: a raise is the
    ZeroDivisionError of a signal with a zero cycle or the NetworkXError
    of a loaded graph, never a KeyError or an IndexError. *)
Theorem find_path_raises (pow_half : Q -> Q) (self : AStarPathfinder)
    (fuel : nat) (start goal : Z) (t : Q) (e : exn) :
  find_path pow_half self fuel start goal t = Raise e ->
  (e = ZeroDivisionError /\ has_zero_cycle (traffic_predictor self)) \/
  (e = NetworkXError /\ is_Some (graph (road_network self))).
Proof.
  unfold find_path. case_bool_decide as Hsg; [done|].
  destruct (_ || _); [done|].
  destruct (initial_tree pow_half self start goal t) as [Htree Hst].
  by apply (search_loop_raises pow_half self start goal []).
Qed.

Lemma find_path_raises_witness :
  (ZeroDivisionError = ZeroDivisionError /\
   has_zero_cycle (traffic_predictor zero_finder)) \/
  (ZeroDivisionError = NetworkXError /\ is_Some (graph (road_network zero_finder))).
Proof.
  apply (find_path_raises sqrt_approx zero_finder 10 1 2 0 ZeroDivisionError).
  vm_compute. reflexivity.
Defined.

(** X13.  Over valid signals, get_edge_cost is +infinity exactly for a
    pair without a distance; otherwise it is finite, at least the
    distance, the distance itself on an edge without signal, and at most
    the distance plus 13.89 m for each second of red. *)
Theorem get_edge_cost_bounds (self : AStarPathfinder) (u v : Z) (t : Q) :
  wf_predictor (traffic_predictor self) ->
  (get_edge_distance (road_network self) u v = None ->
   get_edge_cost self u v t = Ret PInf) /\
  (forall d, get_edge_distance (road_network self) u v = Some d ->
     exists c,
       get_edge_cost self u v t = Ret (Fin c) /\
       (d <= c)%Q /\
       (traffic_lights (traffic_predictor self) !! (u, v) = None -> (c == d)%Q) /\
       (forall tl, traffic_lights (traffic_predictor self) !! (u, v) = Some tl ->
          (c <= d + red_time tl * average_speed)%Q)).
Proof.
  intros Hwf. unfold get_edge_cost. split; [by intros ->|].
  intros d ->.
  destruct (get_wait_time_total (traffic_predictor self) u v t Hwf) as (w & Hw & Hw0).
  rewrite Hw. cbn. eexists. split; [done|].
  assert (0 < average_speed)%Q as Hsp by (unfold average_speed; lra).
  split_and!.
  - nra.
  - intros Hn. unfold get_wait_time in Hw. rewrite Hn in Hw. injection Hw as <-. ring.
  - intros tl Hl. destruct (Hwf _ _ Hl) as (Hc & Hg0 & Hgc & Hr).
    unfold get_wait_time in Hw. rewrite Hl in Hw.
    rewrite light_wait_unfold in Hw by lra. cbv zeta in Hw.
    destruct (Qmod_bounds (t - phase_start_time tl) (cycle_time tl) Hc) as [Hp0 Hpc].
    set (pos := Qmod _ _) in *.
    assert (w <= red_time tl)%Q; [|nra].
    destruct (String.eqb _ _).
    + destruct (Qltb pos (green_time tl)) eqn:E1.
      * destruct (Qltb 5 _); injection Hw as <-; lra.
      * apply Qltb_false in E1. injection Hw as <-. lra.
    + destruct (Qltb pos (red_time tl)) eqn:E1; injection Hw as <-; lra.
Qed.

Lemma get_edge_cost_bounds_witness :
  (get_edge_distance (road_network red_finder) 1 2 = None ->
   get_edge_cost red_finder 1 2 30 = Ret PInf) /\
  (forall d, get_edge_distance (road_network red_finder) 1 2 = Some d ->
     exists c,
       get_edge_cost red_finder 1 2 30 = Ret (Fin c) /\
       (d <= c)%Q /\
       (traffic_lights (traffic_predictor red_finder) !! (1, 2) = None -> (c == d)%Q) /\
       (forall tl, traffic_lights (traffic_predictor red_finder) !! (1, 2) = Some tl ->
          (c <= d + red_time tl * average_speed)%Q)).
Proof.
  apply (get_edge_cost_bounds red_finder 1 2 30). exact red_signal_wf.
Defined.

(** ** The price of a returned path *)

Lemma wait_allowance (self : AStarPathfinder) (u v : Z) (t w : Q) :
  wf_predictor (traffic_predictor self) ->
  get_wait_time (traffic_predictor self) u v t = Ret w ->
  (w * average_speed <= allowance self u v)%Q.
Proof.
  intros Hwf Hw. unfold allowance. unfold get_wait_time in Hw.
  assert (0 < average_speed)%Q as Hsp by (unfold average_speed; lra).
  destruct (traffic_lights (traffic_predictor self) !! (u, v)) as [tl|] eqn:Hl.
  2:{ injection Hw as <-. lra. }
  destruct (Hwf _ _ Hl) as (Hc & Hg0 & Hgc & Hr).
  rewrite light_wait_unfold in Hw by lra. cbv zeta in Hw.
  destruct (Qmod_bounds (t - phase_start_time tl) (cycle_time tl) Hc) as [Hp0 Hpc].
  set (pos := Qmod _ _) in *.
  assert (w <= red_time tl)%Q; [|nra].
  destruct (String.eqb _ _).
  - destruct (Qltb pos (green_time tl)) eqn:E1.
    + destruct (Qltb 5 _); injection Hw as <-; lra.
    + apply Qltb_false in E1. injection Hw as <-. lra.
  - destruct (Qltb pos (red_time tl)) eqn:E1; injection Hw as <-; lra.
Qed.

Lemma path_allowance_snoc (self : AStarPathfinder) (l : list Z) (p n : Z) :
  last l = Some p ->
  (path_allowance self (l ++ [n]) == path_allowance self l + allowance self p n)%Q.
Proof.
  induction l as [|x l IH]; intros Hl; [done|].
  destruct l as [|y l].
  - cbn in Hl. injection Hl as ->. cbn. ring.
  - rewrite last_cons_cons in Hl.
    change (path_allowance self ((x :: y :: l) ++ [n])) with
      (allowance self x y + path_allowance self ((y :: l) ++ [n]))%Q.
    change (path_allowance self (x :: y :: l)) with
      (allowance self x y + path_allowance self (y :: l))%Q.
    rewrite (IH Hl). ring.
Qed.

Lemma path_allowance_no_signal (self : AStarPathfinder) (path : list Z) :
  traffic_lights (traffic_predictor self) = ∅ -> path_allowance self path = 0%Q.
Proof.
  intros He. assert (forall u v, allowance self u v = 0%Q) as Ha.
  { intros u v. unfold allowance. by rewrite He, lookup_empty. }
  induction path as [|x [|y l] IH]; [done|done|].
  change (path_allowance self (x :: y :: l)) with
    (allowance self x y + path_allowance self (y :: l))%Q.
  rewrite Ha, IH. done.
Qed.

Section Price.
Context (pow_half : Q -> Q) (self : AStarPathfinder) (start goal : Z).
Hypothesis Hwf : wf_predictor (traffic_predictor self).

Lemma chain_upper (st : search) (n : Z) (c : list Z) (g : Q) :
  cost_inv self start st ->
  price_inv pow_half self goal st ->
  chain (parents st) n c ->
  g_costs st !! n = Some g ->
  exists d, path_distance (road_network self) (reverse c) = Some d /\
            (g <= d + path_allowance self (reverse c))%Q.
Proof.
  intros (Hs & Hps & Hroot & _) (_ & _ & _ & Hpar & _) Hc. revert g.
  induction Hc as [n Hn|n p c Hp Hc IH]; intros g Hg.
  - assert (n = start) as -> by eauto. rewrite Hs in Hg. injection Hg as <-.
    exists 0%Q. split; [done|]. cbn. lra.
  - destruct (Hpar n p Hp) as (gp & gn & d0 & Hgp & Hgn & Hd0 & Hle).
    rewrite Hg in Hgn. injection Hgn as <-.
    destruct (IH gp Hgp) as (d' & Hd' & Hle').
    destruct (chain_head _ _ _ Hc) as [c' ->].
    rewrite reverse_cons.
    destruct (path_distance_snoc self (reverse (p :: c')) p n d' d0) as (s' & Hs' & E); auto.
    { rewrite reverse_cons. apply last_snoc. }
    exists s'. split; [done|].
    rewrite (path_allowance_snoc self (reverse (p :: c')) p n)
      by (rewrite reverse_cons; apply last_snoc).
    lra.
Qed.

Lemma relax_price (current : PathNode) (st st' : search) (v : Z) :
  node_id current ∈ closed_set st ->
  cost_inv self start st ->
  price_inv pow_half self goal st ->
  relax pow_half self goal current st v = Ret st' ->
  price_inv pow_half self goal st'.
Proof.
  intros Hcur (_ & _ & _ & Hcpar & _) (Hheap & Hh & Hfront & Hpar & Hgoal) H.
  apply relax_inv in H as [[-> _]|(Hv & d & w & gcur & Hd & Hw & Hgc & Hcl & _ & _ & H)].
  { done. }
  pose proof (wait_allowance self _ _ _ _ Hwf Hw) as Hwa.
  assert (v <> node_id current) as Hvc by (intros ->; done).
  destruct H as [(Ho & Hg & Hp & _)|(Ho & Hg & Hp & _)]; unfold price_inv;
    rewrite Ho, Hg, Hp, Hcl; [|done].
  split_and!.
  - by apply heappush_ok.
  - intros x Hx. rewrite heappush_perm in Hx.
    apply elem_of_cons in Hx as [->|Hx]; [done|by apply Hh].
  - intros n g Hn. destruct (decide (n = v)) as [->|Hne].
    + rewrite lookup_insert_eq. intros [= <-]. eexists. split; [rewrite heappush_perm; by left|done].
    + rewrite lookup_insert_ne by done. intros Hgn.
      destruct (Hfront n g Hn Hgn) as (x & Hx & ? & ?).
      exists x. split; [|done]. rewrite heappush_perm. by right.
  - intros n p. destruct (decide (n = v)) as [->|Hn].
    + rewrite !lookup_insert_eq. intros [= <-].
      exists gcur, (gcur + (d + w * average_speed))%Q, d.
      rewrite lookup_insert_ne by done. split_and!; try done. lra.
    + rewrite lookup_insert_ne by done. intros Hp'.
      destruct (Hcpar n p Hp') as (Hpc & _).
      destruct (Hpar n p Hp') as (gp & gn & d0 & ? & ? & ? & ?).
      exists gp, gn, d0.
      rewrite !lookup_insert_ne by (try done; intros ->; done). done.
  - done.
Qed.

Lemma for_each_price (current : PathNode) (nbrs : list Z) (st st' : search) :
  start ∈ closed_set st ->
  node_id current ∈ closed_set st ->
  cost_inv self start st ->
  price_inv pow_half self goal st ->
  for_each (relax pow_half self goal current) nbrs st = Ret st' ->
  cost_inv self start st' /\ price_inv pow_half self goal st'.
Proof.
  revert st. induction nbrs as [|v nbrs IH]; intros st Hs Hc Hci Hpi; cbn.
  { by intros [= <-]. }
  intros (st1 & H1 & H2)%bind_Ret.
  assert (closed_set st1 = closed_set st) as Hcl.
  { apply (for_each_closed pow_half self goal current [v]). cbn. by rewrite H1. }
  eapply (IH st1); [by rewrite Hcl|by rewrite Hcl| | |done].
  - by eapply relax_cost_inv.
  - by eapply relax_price.
Qed.

(** The entry popped for the goal carries the best-known cost of the
    goal. *)
Lemma goal_entry_cost (st : search) (current : PathNode) (rest : list PathNode) (g : Q) :
  is_Some (get_node (road_network self) goal) ->
  price_inv pow_half self goal st ->
  heappop (open_list st) = Some (current, rest) ->
  node_id current = goal ->
  g_costs st !! goal = Some g ->
  (g_cost current <= g)%Q.
Proof.
  intros [nd Hnd] (Hheap & Hh & Hfront & _ & Hgoal) Hpop Hcur Hg.
  destruct (heappop_ok _ _ _ Hheap Hpop) as [_ Hleast].
  apply heappop_perm in Hpop.
  destruct (Hfront goal g Hgoal Hg) as (y & Hy & Hny & Hgy).
  rewrite Hpop in Hy. apply elem_of_cons in Hy as [->|Hy]; [rewrite <- Hgy; lra|].
  specialize (Hleast y Hy). unfold PathNode_le, PathNode_lt, f_cost in Hleast.
  rewrite (Hh y), (Hh current), Hny, Hcur in Hleast
    by (rewrite Hpop; first [by left|by right]).
  unfold heuristic in Hleast. rewrite Hnd in Hleast. cbn in Hleast.
  destruct (Qlt_le_dec _ _) as [|Hle] in Hleast; [done|].
  rewrite Hgy in Hle. set (h := pow_half _) in Hle. lra.
Qed.

Lemma search_loop_price (fuel0 fuel : nat) (st : search)
    (path : list Z) (cost : xfloat) (stats' : gmap string pyval) :
  is_Some (get_node (road_network self) goal) ->
  cost_inv self start st ->
  price_inv pow_half self goal st ->
  (start ∈ closed_set st \/ forall x, x ∈ open_list st -> node_id x = start) ->
  search_loop pow_half self fuel0 fuel goal st = Ret (path, cost, stats') ->
  path <> [] ->
  exists c d, cost = Fin c /\ path_distance (road_network self) path = Some d /\
              (c <= d + path_allowance self path)%Q.
Proof.
  intros Hnode. revert st. induction fuel as [|fuel IH]; intros st Hci Hpi Hst; cbn; [done|].
  destruct (open_list st) as [|x0 l0] eqn:Hol.
  { intros [= <- _ _]. done. }
  destruct (heappop (x0 :: l0)) as [[current rest]|] eqn:Hpop; [|done].
  rewrite <- Hol in Hpop.
  pose proof (heappop_perm _ _ _ Hpop) as Hperm.
  assert (current ∈ open_list st) as Hcur by (rewrite Hperm; left).
  assert (forall x, x ∈ rest -> x ∈ open_list st) as Hrest
    by (intros x Hx; rewrite Hperm; by right).
  case_bool_decide as Hgoal.
  - intros (p & Hp & [= <- <- <-])%bind_Ret Hne.
    unfold reconstruct in Hp.
    apply bind_Ret in Hp as (l & Hl & [= <-]).
    apply reconstruct_loop_chain in Hl as (c & -> & Hc).
    destruct Hci as (Hs & Hps & Hroot & Hpar & Hopen).
    destruct (Hopen current Hcur) as (g & Hg & Hle). rewrite Hgoal in Hg.
    pose proof (goal_entry_cost st current rest g Hnode Hpi Hpop Hgoal Hg) as Hge.
    destruct (chain_upper st goal c g) as (d & Hd & Hle'); [done..|].
    exists (g_cost current), d. split; [done|]. split; [done|].
    cbn [app]. lra.
  - destruct Hci as (Hs & Hps & Hroot & Hpar & Hopen).
    destruct Hpi as (Hheap & Hh & Hfront & Hppar & Hgoalc).
    destruct (heappop_ok _ _ _ Hheap Hpop) as [Hheap' _].
    case_bool_decide as Hclosed.
    + apply IH; cbn.
      * unfold cost_inv; cbn. split_and!; auto.
      * unfold price_inv; cbn. split_and!; auto.
        intros n g Hn Hg. destruct (Hfront n g Hn Hg) as (x & Hx & Hnx & Hgx).
        exists x. split; [|done]. rewrite Hperm in Hx.
        apply elem_of_cons in Hx as [->|Hx]; [|done]. by rewrite Hnx in Hclosed.
      * destruct Hst as [?|Hst]; [by left|]. right. intros x Hx.
        apply Hst. rewrite <- Hol. auto.
    + intros (s1 & Hs1 & H)%bind_Ret.
      apply bind_Ret in H as (nbrs & Hn & H).
      apply bind_Ret in H as (st1 & Hfe & H).
      assert (start ∈ ({[node_id current]} ∪ closed_set st : gset Z)) as Hsc.
      { destruct Hst as [?|Hst]; [by apply elem_of_union_r|].
        rewrite <- (Hst current) by (rewrite <- Hol; done).
        by apply elem_of_union_l, elem_of_singleton. }
      pose proof (for_each_closed pow_half self goal current nbrs _ _ Hfe) as Hcl.
      apply for_each_price in Hfe as [Hci1 Hpi1]; cbn.
      * revert H. apply IH; [done|done|].
        left. rewrite Hcl. done.
      * done.
      * by apply elem_of_union_l, elem_of_singleton.
      * unfold cost_inv; cbn. split_and!; auto.
        intros n p Hnp. destruct (Hpar n p Hnp) as [? ?].
        split; [by apply elem_of_union_r|done].
      * unfold price_inv; cbn. split_and!; auto.
        -- intros n g Hnn Hg.
           assert (n <> node_id current) as Hnc
             by (intros ->; apply Hnn; by apply elem_of_union_l, elem_of_singleton).
           assert (n ∉ closed_set st) as Hn'
             by (intros ?; apply Hnn; by apply elem_of_union_r).
           destruct (Hfront n g Hn' Hg) as (x & Hx & Hnx & Hgx).
           exists x. split; [|done]. rewrite Hperm in Hx.
           apply elem_of_cons in Hx as [->|Hx]; [|done]. done.
        -- intros [E%elem_of_singleton|E]%elem_of_union; [|done].
           by rewrite E in Hgoal.
Qed.

Lemma initial_price (t : Q) :
  cost_inv self start (initial_search pow_half self start goal t) /\
  price_inv pow_half self goal (initial_search pow_half self start goal t).
Proof.
  split.
  - unfold cost_inv, initial_search; cbn. split; [by rewrite lookup_singleton_eq|].
    split; [done|]. split; [|split].
    + intros n g [-> _]%lookup_singleton_Some. done.
    + intros n p. by rewrite lookup_empty.
    + intros x ->%list_elem_of_singleton.
      cbn. rewrite lookup_singleton_eq. eexists. split; [done|lra].
  - unfold price_inv, initial_search; cbn. split_and!.
    + intros i x p Hi Hx. destruct i; [lia|done].
    + by intros x ->%list_elem_of_singleton.
    + intros n g _ [-> <-]%lookup_singleton_Some.
      eexists. split; [by apply list_elem_of_singleton|done].
    + intros n p. by rewrite lookup_empty.
    + apply not_elem_of_empty.
Qed.
End Price.

(** ** The order of the frontier and the returned cost *)

Lemma sample_frontier_ok : heap_ok sample_frontier.
Proof.
  intros i x p Hi. destruct i as [|[|[|i]]]; [lia| | |done].
  - intros [= <-] [= <-]. reflexivity.
  - intros [= <-] [= <-]. reflexivity.
Qed.

(** X18.  PathNode.__lt__ (f_cost < f_cost, with f = g + h) is a strict
    weak order on frontier entries, also when heuristics are +infinity:
    no entry is less than itself, less-than is transitive, being not
    less is transitive, and an entry whose heuristic is +infinity is
    less than no entry. *)
Theorem PathNode_lt_strict_weak_order :
  (forall a, PathNode_lt a a = false) /\
  (forall a b c, PathNode_lt a b = true -> PathNode_lt b c = true ->
     PathNode_lt a c = true) /\
  (forall a b c, PathNode_lt b a = false -> PathNode_lt c b = false ->
     PathNode_lt c a = false) /\
  (forall a b, h_cost a = PInf -> PathNode_lt a b = false).
Proof.
  split_and!.
  - intros a. apply xlt_irrefl.
  - intros a b c. apply xlt_trans.
  - intros a b c. apply xlt_neg_trans.
  - intros a b Ha. unfold PathNode_lt, f_cost. rewrite Ha. done.
Qed.

(** X19.  Under PathNode.__lt__ heapq keeps the frontier a heap, in
    which no entry is less than its parent at position (i - 1) / 2:
    heappush of any entry into a heap gives a heap, and heappop of a
    heap leaves a heap and returns an entry than which no entry of the
    frontier is less, that is, one of least f_cost. *)
Theorem frontier_pops_least (heap : list PathNode) :
  heap_ok heap ->
  (forall x, heap_ok (heappush heap x)) /\
  (forall x rest, heappop heap = Some (x, rest) ->
     heap_ok rest /\ forall y, y ∈ heap -> PathNode_lt y x = false).
Proof.
  intros Hok. split.
  - intros x. by apply heappush_ok.
  - intros x rest Hpop. destruct (heappop_ok _ _ _ Hok Hpop) as [Hrest Hleast].
    split; [done|]. intros y Hy.
    rewrite (heappop_perm _ _ _ Hpop) in Hy.
    apply elem_of_cons in Hy as [->|Hy]; [apply xlt_irrefl|by apply Hleast].
Qed.

Lemma frontier_pops_least_witness :
  (forall x, heap_ok (heappush sample_frontier x)) /\
  (forall x rest, heappop sample_frontier = Some (x, rest) ->
     heap_ok rest /\ forall y, y ∈ sample_frontier -> PathNode_lt y x = false).
Proof.
  apply (frontier_pops_least sample_frontier). exact sample_frontier_ok.
Defined.

(** X20.  Over valid signals, the cost that find_path returns with a
    non-empty path is finite and at most the summed edge distances of
    that path plus, for every signalled edge on it, the red time of its
    signal driven at 13.89 m/s. *)
Theorem find_path_cost_upper_bound (pow_half : Q -> Q) (self : AStarPathfinder)
    (fuel : nat) (start goal : Z) (t : Q)
    (path : list Z) (cost : xfloat) (stats' : gmap string pyval) :
  wf_predictor (traffic_predictor self) ->
  find_path pow_half self fuel start goal t = Ret (path, cost, stats') ->
  path <> [] ->
  exists c d,
    cost = Fin c /\
    path_distance (road_network self) path = Some d /\
    (c <= d + path_allowance self path)%Q.
Proof.
  intros Hwf. unfold find_path. case_bool_decide as Hsg.
  { intros [= <- <- _] _. exists 0%Q, 0%Q. split_and!; done. }
  destruct (has_node (road_network self) start); cbn [negb orb].
  2:{ intros [= <- _ _]. done. }
  destruct (has_node (road_network self) goal) eqn:Hg; cbn [negb].
  2:{ intros [= <- _ _]. done. }
  apply bool_decide_eq_true in Hg.
  destruct (initial_price pow_half self start goal t) as [Hci Hpi].
  apply (search_loop_price pow_half self start goal Hwf); try done.
  right. cbn. by intros x ->%list_elem_of_singleton.
Qed.

Lemma find_path_cost_upper_bound_witness :
  exists c d,
    red_run_cost = Fin c /\
    path_distance (road_network red_finder) [1; 2] = Some d /\
    (c <= d + path_allowance red_finder [1; 2]%Z)%Q.
Proof.
  apply (find_path_cost_upper_bound sqrt_approx red_finder 10 1 2 0
           [1; 2] red_run_cost red_run_stats).
  - exact red_signal_wf.
  - vm_compute. reflexivity.
  - discriminate.
Defined.

(** X21.  On a predictor without signals, the cost that find_path
    returns with a non-empty path equals the summed edge distances of
    that path. *)
Theorem find_path_cost_without_signals (pow_half : Q -> Q) (self : AStarPathfinder)
    (fuel : nat) (start goal : Z) (t : Q)
    (path : list Z) (cost : xfloat) (stats' : gmap string pyval) :
  traffic_lights (traffic_predictor self) = ∅ ->
  find_path pow_half self fuel start goal t = Ret (path, cost, stats') ->
  path <> [] ->
  exists c d,
    cost = Fin c /\
    path_distance (road_network self) path = Some d /\
    (c == d)%Q.
Proof.
  intros He. 
  assert (wf_predictor (traffic_predictor self)) as Hwf.
  { intros k tl. by rewrite He, lookup_empty. }
  unfold find_path. case_bool_decide as Hsg.
  { intros [= <- <- _] _. exists 0%Q, 0%Q. split_and!; done. }
  destruct (has_node (road_network self) start); cbn [negb orb].
  2:{ intros [= <- _ _]. done. }
  destruct (has_node (road_network self) goal) eqn:Hg; cbn [negb].
  2:{ intros [= <- _ _]. done. }
  apply bool_decide_eq_true in Hg.
  intros Hrun Hne.
  destruct (initial_price pow_half self start goal t) as [Hci Hpi].
  assert (start ∈ closed_set (initial_search pow_half self start goal t) \/
          forall x, x ∈ open_list (initial_search pow_half self start goal t) ->
                    node_id x = start) as Hst.
  { right. cbn. by intros x ->%list_elem_of_singleton. }
  destruct (search_loop_cost pow_half self start goal fuel fuel _ path cost stats'
              Hwf Hci Hst Hrun Hne) as (c & d & -> & Hd & Hlo).
  destruct (search_loop_price pow_half self start goal Hwf fuel fuel _ path (Fin c) stats'
              Hg Hci Hpi Hst Hrun Hne) as (c' & d' & [= <-] & Hd' & Hup).
  rewrite Hd in Hd'. injection Hd' as <-.
  rewrite (path_allowance_no_signal self path He) in Hup.
  exists c, d. split_and!; try done. lra.
Qed.

Lemma find_path_cost_without_signals_witness :
  exists c d,
    plain_run.1.2 = Fin c /\
    path_distance (road_network plain_finder) [1; 2] = Some d /\
    (c == d)%Q.
Proof.
  apply (find_path_cost_without_signals sqrt_approx plain_finder 10 1 2 0
           [1; 2] plain_run.1.2 plain_run.2).
  - reflexivity.
  - vm_compute. reflexivity.
  - discriminate.
Defined.
